(** * SearchEngine: index synchronizer, query parser, ranker and search

    A shallow embedding of [ReactNativeClient/lib/services/SearchEngine.js].
    Each definition carries the name of the method it embeds.  A JavaScript
    string is the Rocq string of its UTF-8 encoding, the integer columns of
    the database are [Z], JavaScript numbers that take part in the weight
    computation are binary64 floats, and what the engine reaches through
    [require] is gathered in the class [Collaborators].  The calls the
    engine awaits are taken to return: a run in which the store, the
    settings or the change log rejects a call is not described. *)

From Stdlib Require Import ZArith List String Ascii Bool Lia.
From Stdlib Require Import Sorting.Sorted Sorting.Permutation.
From Stdlib Require Import Floats Uint63.
Import ListNotations.

Local Open Scope string_scope.
Local Open Scope Z_scope.
Local Open Scope list_scope.

(** ** Collaborators

    The modules the file requires and the string built-ins it calls.  None of
    them is part of the source file, so the embedding is parametric in them. *)

Class Collaborators := {
  (* lib/models/ItemChange.js *)
  TYPE_CREATE : Z;
  TYPE_UPDATE : Z;
  TYPE_DELETE : Z;
  (* lib/BaseModel.js *)
  TYPE_NOTE : Z;
  (* String.prototype.normalize, String.prototype.toLowerCase, diacritics.remove *)
  String_normalize : string -> string;
  String_toLowerCase : string -> string;
  removeDiacritics : string -> string;
  (* the Number function, applied to a string *)
  Number : string -> float;
  (* lib/string-utils.js *)
  pregQuote : string -> string;
  scriptType : string -> string
}.

(** ** Data model *)

(** A row of table [notes], with the columns the engine reads. *)
Record Note := {
  note_id : string;
  note_title : string;
  note_body : string;
  is_conflict : Z;
  encryption_applied : Z
}.

(** A row of table [item_changes]. *)
Record ItemChange := {
  change_id : Z;
  item_type : Z;
  item_id : string;
  change_type : Z
}.

(** A row of table [notes_normalized]. *)
Record NormalizedRow := {
  n_id : string;
  n_title : string;
  n_body : string
}.

(** What the engine only reads during a run, and finds unchanged until the
    run ends: the two tables, and the id that [ItemChange.lastChangeId()]
    answers with, the high-water mark of the change log.  The schema of
    table [notes] is not in the file: the names that the store resolves in a
    statement on the table, besides [id], [title] and [body] (its other
    columns, the aliases of its row id), are a field, and so are the rows the
    store answers with to a list of ids that the embedding does not read. *)
Record World := {
  notes : list Note;
  item_changes : list ItemChange;
  ItemChange_lastChangeId : Z;
  other_names : list string;
  unread_select : list string -> list Note
}.

(** The statements the engine sends to the database. *)
Inductive Query :=
| DeleteAllNormalized
| DeleteNormalized (id : string)
| InsertNormalized (id title body : string).

(** Calls to collaborators that leave no value behind, in the order made. *)
Inductive Event :=
| InfoUpdating
| InfoUpdated
| WaitForAllSaved
| SaveAll
| DeleteProcessedChanges.

Inductive Error :=
| InvalidChangeType (type : Z)
| TypeError (message : string).

(** How a call of an async method ends; [OutOfFuel] is the embedding's own
    and is shown below never to happen. *)
Inductive Outcome :=
| Returned
| Thrown (e : Error)
| OutOfFuel.

(** The engine together with the stores it writes: its run guard, the two
    settings, table [notes_normalized] and the trace of calls. *)
Record Engine := {
  isIndexing_ : bool;
  initialIndexingDone : bool;
  lastProcessedChangeId : Z;
  notes_normalized : list NormalizedRow;
  events : list Event
}.

Definition set_isIndexing (b : bool) (e : Engine) : Engine :=
  {| isIndexing_ := b;
     initialIndexingDone := initialIndexingDone e;
     lastProcessedChangeId := lastProcessedChangeId e;
     notes_normalized := notes_normalized e;
     events := events e |}.

Definition set_initialIndexingDone (b : bool) (e : Engine) : Engine :=
  {| isIndexing_ := isIndexing_ e;
     initialIndexingDone := b;
     lastProcessedChangeId := lastProcessedChangeId e;
     notes_normalized := notes_normalized e;
     events := events e |}.

Definition set_lastProcessedChangeId (id : Z) (e : Engine) : Engine :=
  {| isIndexing_ := isIndexing_ e;
     initialIndexingDone := initialIndexingDone e;
     lastProcessedChangeId := id;
     notes_normalized := notes_normalized e;
     events := events e |}.

Definition set_notes_normalized (t : list NormalizedRow) (e : Engine) : Engine :=
  {| isIndexing_ := isIndexing_ e;
     initialIndexingDone := initialIndexingDone e;
     lastProcessedChangeId := lastProcessedChangeId e;
     notes_normalized := t;
     events := events e |}.

Definition emit (ev : Event) (e : Engine) : Engine :=
  {| isIndexing_ := isIndexing_ e;
     initialIndexingDone := initialIndexingDone e;
     lastProcessedChangeId := lastProcessedChangeId e;
     notes_normalized := notes_normalized e;
     events := events e ++ [ev] |}.

(** ** Strings

    A string holds the UTF-8 encoding of a JavaScript string.  The
    characters the engine looks for (quote, space, colon, star, backslash,
    digits) are single bytes, and no byte of the encoding of another
    character equals one of them: its loops over code units are loops over
    bytes here. *)

Definition quote_char : ascii := "034"%char.
Definition star : string := "*".

Fixpoint contains_char (c : ascii) (s : string) : bool :=
  match s with
  | EmptyString => false
  | String d s' => Ascii.eqb d c || contains_char c s'
  end.

Fixpoint last_char (s : string) : option ascii :=
  match s with
  | EmptyString => None
  | String c EmptyString => Some c
  | String _ s' => last_char s'
  end.

(** [s.split(sep)] for a one-character separator. *)
Fixpoint split_on (sep : ascii) (s : string) : list string :=
  match s with
  | EmptyString => [EmptyString]
  | String c s' =>
      if Ascii.eqb c sep then EmptyString :: split_on sep s'
      else
        match split_on sep s' with
        | [] => [String c EmptyString]
        | p :: ps => String c p :: ps
        end
  end.

(** [parts.join(sep)] *)
Fixpoint join (sep : string) (parts : list string) : string :=
  match parts with
  | [] => EmptyString
  | [p] => p
  | p :: ps => (p ++ sep ++ join sep ps)%string
  end.

Fixpoint starts_with (p s : string) : bool :=
  match p, s with
  | EmptyString, _ => true
  | String a p', String b s' => Ascii.eqb a b && starts_with p' s'
  | String _ _, EmptyString => false
  end.

Definition utf8 (bytes : list nat) : string :=
  fold_right (fun b s => String (ascii_of_nat b) s) EmptyString bytes.

(** The white space and the line terminators of ECMAScript, which
    [String.prototype.trim] takes off, each as the bytes of its encoding:
    U+0009 to U+000D, U+0020, U+00A0, U+1680, U+2000 to U+200A, U+2028,
    U+2029, U+202F, U+205F, U+3000 and U+FEFF. *)
Definition white_space : list string :=
  map utf8
    [[9]; [10]; [11]; [12]; [13]; [32]; [194; 160]; [225; 154; 128];
     [226; 128; 128]; [226; 128; 129]; [226; 128; 130]; [226; 128; 131];
     [226; 128; 132]; [226; 128; 133]; [226; 128; 134]; [226; 128; 135];
     [226; 128; 136]; [226; 128; 137]; [226; 128; 138];
     [226; 128; 168]; [226; 128; 169]; [226; 128; 175]; [226; 129; 159];
     [227; 128; 128]; [239; 187; 191]]%nat.

(** The number of bytes of the white-space character [s] begins with; 0
    when it begins with none. *)
Definition white_space_width (s : string) : nat :=
  match find (fun p => starts_with p s) white_space with
  | Some p => String.length p
  | None => O
  end.

(** [s.trimStart()], [skip] bytes of [s] being the rest of a white-space
    character already met. *)
Fixpoint trim_start_from (skip : nat) (s : string) : string :=
  match s with
  | EmptyString => EmptyString
  | String _ s' =>
      match skip with
      | S k => trim_start_from k s'
      | O =>
          match white_space_width s with
          | O => s
          | S k => trim_start_from k s'
          end
      end
  end.

Definition trim_start (s : string) : string := trim_start_from 0 s.

(** [s] is made of white space alone. *)
Definition all_white_space (s : string) : bool := (trim_start s =? "")%string.

(** [s.trimEnd()]: [s] up to where white space alone is left. *)
Fixpoint trim_end (s : string) : string :=
  match s with
  | EmptyString => EmptyString
  | String c s' => if all_white_space s then EmptyString else String c (trim_end s')
  end.

Definition trim (s : string) : string := trim_end (trim_start s).

(** The ASCII letters in lower case, the other bytes as they are. *)
Definition ascii_toLowerCase (c : ascii) : ascii :=
  let n := nat_of_ascii c in
  if (65 <=? n)%nat && (n <=? 90)%nat then ascii_of_nat (n + 32) else c.

Fixpoint string_map (f : ascii -> ascii) (s : string) : string :=
  match s with
  | EmptyString => EmptyString
  | String c s' => String (f c) (string_map f s')
  end.

(** ** The database *)

Definition exec (q : Query) (t : list NormalizedRow) : list NormalizedRow :=
  match q with
  | DeleteAllNormalized => []
  | DeleteNormalized id => filter (fun r => negb (n_id r =? id)%string) t
  | InsertNormalized id title body =>
      t ++ [{| n_id := id; n_title := title; n_body := body |}]
  end.

(** [this.db().exec(sql)] *)
Definition db_exec (q : Query) (e : Engine) : Engine :=
  set_notes_normalized (exec q (notes_normalized e)) e.

(** [this.db().transactionExecBatch(queries)] *)
Definition transactionExecBatch (queries : list Query) (e : Engine) : Engine :=
  set_notes_normalized (fold_left (fun t q => exec q t) queries (notes_normalized e)) e.

(** [is_conflict = 0 AND encryption_applied = 0] *)
Definition eligible (n : Note) : bool :=
  (is_conflict n =? 0) && (encryption_applied n =? 0).

(** [SELECT id FROM notes WHERE is_conflict = 0 AND encryption_applied = 0] *)
Definition select_eligible_ids (w : World) : list string :=
  map note_id (filter eligible (notes w)).

(** What the store compares [id] with, for one member of the list of an
    [IN]: a column of the row, a string, or what the embedding does not
    read. *)
Inductive Operand :=
| ColumnId
| ColumnTitle
| ColumnBody
| Literal (s : string)
| Unread.

Definition NUL : ascii := "000"%char.

(** The list is built by concatenation, each id between double quotes.
    SQLite reads a token between double quotes as a name: the column of that
    name when the table has one, names being compared without regard to the
    case of ASCII letters, and the string itself when nothing has the name.
    An id that holds a double quote or a NUL ends its token early and the
    rest is read as SQL; an id that names one of the other columns is
    compared through values that are not in the model: neither is read. *)
Definition read_id (w : World) (id : string) : Operand :=
  if contains_char quote_char id || contains_char NUL id then Unread
  else
    let name := string_map ascii_toLowerCase id in
    if (name =? "id")%string then ColumnId
    else if (name =? "title")%string then ColumnTitle
    else if (name =? "body")%string then ColumnBody
    else if existsb (String.eqb name)
              ("is_conflict" :: "encryption_applied"
               :: map (string_map ascii_toLowerCase) (other_names w))
    then Unread
    else Literal id.

Definition is_unread (o : Operand) : bool :=
  match o with
  | Unread => true
  | _ => false
  end.

(** [id = operand], on one row. *)
Definition id_equals (n : Note) (o : Operand) : bool :=
  match o with
  | ColumnId => true
  | ColumnTitle => (note_id n =? note_title n)%string
  | ColumnBody => (note_id n =? note_body n)%string
  | Literal s => (note_id n =? s)%string
  | Unread => false
  end.

(** The tokens of ['("' + ids.join('","') + '")'] when no id holds a double
    quote: the ids, and one empty token when there is no id. *)
Definition in_list (ids : list string) : list string :=
  match ids with
  | [] => [EmptyString]
  | _ :: _ => ids
  end.

(** ['SELECT id, title, body FROM notes WHERE id IN ("' + ids.join('","') +
    '") AND is_conflict = 0 AND encryption_applied = 0'].  For a list with a
    member that is not read, the rows are those the field [unread_select]
    gives; where the store rejects the statement, as it does when a double
    quote of an id leaves the SQL malformed, the call fails and the run is
    not described. *)
Definition select_notes_in (w : World) (ids : list string) : list Note :=
  let operands := map (read_id w) (in_list ids) in
  if existsb is_unread operands then unread_select w ids
  else filter (fun n => existsb (id_equals n) operands && eligible n) (notes w).

(** The store reads [id] as the string it is. *)
Definition is_literal (w : World) (id : string) : bool :=
  match read_id w id with
  | Literal _ => true
  | _ => false
  end.

(** [ORDER BY id ASC] *)
Fixpoint insert_by_id (c : ItemChange) (l : list ItemChange) : list ItemChange :=
  match l with
  | [] => [c]
  | d :: l' =>
      if (change_id c <=? change_id d) then c :: l else d :: insert_by_id c l'
  end.

Definition order_by_id (l : list ItemChange) : list ItemChange :=
  fold_right insert_by_id [] l.

Section Synchronizer.
Context `{Collaborators}.

Definition normalizeText_ (text : string) : string :=
  removeDiacritics (String_toLowerCase (String_normalize text)).

Definition normalizeNote_ (note : Note) : Note :=
  {| note_id := note_id note;
     note_title := normalizeText_ (note_title note);
     note_body := normalizeText_ (note_body note);
     is_conflict := is_conflict note;
     encryption_applied := encryption_applied note |}.

Fixpoint noteById_ (notes : list Note) (noteId : string) : option Note :=
  match notes with
  | [] => None
  | n :: rest => if (note_id n =? noteId)%string then Some n else noteById_ rest noteId
  end.

(** The [SELECT ... LIMIT 100] of [syncTables]. *)
Definition select_changes (w : World) (lastChangeId : Z) : list ItemChange :=
  firstn 100
    (order_by_id
       (filter (fun c => (item_type c =? TYPE_NOTE) && (lastChangeId <? change_id c))
          (item_changes w))).

(** The [for] loop inside the [while] loop of [rebuildIndex_]: the
    insertions for the notes of one slice of at most 100 ids. *)
Definition rebuild_queries (notes : list Note) : list Query :=
  map (fun note =>
         let n := normalizeNote_ note in
         InsertNormalized (note_id n) (note_title n) (note_body n))
      notes.

(** The [while (noteIds.length)] loop of [rebuildIndex_]; [None] when the
    fuel runs out before the ids do. *)
Fixpoint rebuild_loop (fuel : nat) (w : World) (noteIds : list string) (e : Engine)
  : option Engine :=
  match noteIds with
  | [] => Some e
  | _ :: _ =>
      match fuel with
      | O => None
      | S fuel' =>
          let currentIds := firstn 100 noteIds in
          let noteIds' := skipn 100 noteIds in
          let notes := select_notes_in w currentIds in
          rebuild_loop fuel' w noteIds' (transactionExecBatch (rebuild_queries notes) e)
      end
  end.

Definition rebuildIndex_fuel (fuel : nat) (w : World) (e : Engine) : option Engine :=
  let noteIds := select_eligible_ids w in
  let lastChangeId := ItemChange_lastChangeId w in
  let e := db_exec DeleteAllNormalized e in
  match rebuild_loop fuel w noteIds e with
  | None => None
  | Some e => Some (set_lastProcessedChangeId lastChangeId e)
  end.

Definition rebuildIndex_ (w : World) (e : Engine) : option Engine :=
  rebuildIndex_fuel (List.length (notes w)) w e.

(** The [for] loop over one batch of changes: the statements gathered so far
    and the running [lastChangeId], or the error thrown. *)
Fixpoint changes_queries (notes : list Note) (changes : list ItemChange)
  (queries : list Query) (lastChangeId : Z) : Error + (list Query * Z) :=
  match changes with
  | [] => inr (queries, lastChangeId)
  | change :: rest =>
      if (change_type change =? TYPE_CREATE) || (change_type change =? TYPE_UPDATE) then
        let queries := queries ++ [DeleteNormalized (item_id change)] in
        let queries :=
          match noteById_ notes (item_id change) with
          | Some note =>
              let n := normalizeNote_ note in
              queries ++ [InsertNormalized (item_id change) (note_title n) (note_body n)]
          | None => queries
          end in
        changes_queries notes rest queries (change_id change)
      else if (change_type change =? TYPE_DELETE) then
        changes_queries notes rest (queries ++ [DeleteNormalized (item_id change)])
          (change_id change)
      else inl (InvalidChangeType (change_type change))
  end.

(** One turn of the [while (true)] loop of [syncTables]: the fetch was
    empty, the batch threw, or the batch was applied and the watermark
    persisted. *)
Inductive Turn :=
| Done
| Failed (err : Error)
| Applied (lastChangeId : Z) (e : Engine).

Definition sync_turn (w : World) (lastChangeId : Z) (e : Engine) : Turn :=
  let changes := select_changes w lastChangeId in
  match changes with
  | [] => Done
  | _ :: _ =>
      let noteIds := map item_id changes in
      let notes := select_notes_in w noteIds in
      match changes_queries notes changes [] lastChangeId with
      | inl err => Failed err
      | inr (queries, lastChangeId') =>
          let e := transactionExecBatch queries e in
          let e := set_lastProcessedChangeId lastChangeId' e in
          let e := emit SaveAll e in
          Applied lastChangeId' e
      end
  end.

(** The [while (true)] loop of [syncTables]. *)
Fixpoint sync_loop (fuel : nat) (w : World) (lastChangeId : Z) (e : Engine)
  : Outcome * Engine :=
  match fuel with
  | O => (OutOfFuel, e)
  | S fuel' =>
      match sync_turn w lastChangeId e with
      | Done => (Returned, e)
      | Failed err => (Thrown err, e)
      | Applied lastChangeId' e' => sync_loop fuel' w lastChangeId' e'
      end
  end.

Definition syncTables_fuel (fuel : nat) (w : World) (e : Engine) : Outcome * Engine :=
  if isIndexing_ e then (Returned, e)
  else
    let e := set_isIndexing true e in
    let e := emit InfoUpdating e in
    let e := emit WaitForAllSaved e in
    if negb (initialIndexingDone e) then
      match rebuildIndex_ w e with
      | None => (OutOfFuel, e)
      | Some e =>
          let e := set_initialIndexingDone true e in
          let e := set_isIndexing false e in
          (Returned, e)
      end
    else
      let lastChangeId := lastProcessedChangeId e in
      match sync_loop fuel w lastChangeId e with
      | (Returned, e) =>
          let e := emit DeleteProcessedChanges e in
          let e := emit InfoUpdated e in
          let e := set_isIndexing false e in
          (Returned, e)
      | other => other
      end.

Definition syncTables (w : World) (e : Engine) : Outcome * Engine :=
  syncTables_fuel (S (List.length (item_changes w))) w e.

(** A sequence of runs, each against the tables as they stand when it
    starts: the engine after every run. *)
Fixpoint run_all (ws : list World) (e : Engine) : list Engine :=
  match ws with
  | [] => []
  | w :: ws' =>
      let e' := snd (syncTables w e) in
      e' :: run_all ws' e'
  end.

End Synchronizer.

(** ** Objects used as maps

    An object whose properties hold arrays of strings: the properties in the
    order they were created, plus the slot that assigning to [__proto__] writes.
    An assignment to an existing key keeps its place. *)
Definition JSObject (V : Type) := list (string * V).

Fixpoint obj_get {V} (o : JSObject V) (k : string) : option V :=
  match o with
  | [] => None
  | (k', v) :: o' => if (k' =? k)%string then Some v else obj_get o' k
  end.

Fixpoint obj_set {V} (o : JSObject V) (k : string) (v : V) : JSObject V :=
  match o with
  | [] => [(k, v)]
  | (k', v') :: o' =>
      if (k' =? k)%string then (k, v) :: o' else (k', v') :: obj_set o' k v
  end.

(** Assigning to [__proto__] replaces the prototype and creates no property. *)
Definition is_own_key (k : string) : bool := negb (k =? "__proto__")%string.

(** A canonical array index: the decimal numeral, without leading zero, of a
    number below 2^32 - 1. *)
Fixpoint decimal_value (s : string) (acc : N) : option N :=
  match s with
  | EmptyString => Some acc
  | String c s' =>
      let n := N_of_ascii c in
      if (48 <=? n)%N && (n <=? 57)%N
      then decimal_value s' (acc * 10 + (n - 48))%N
      else None
  end.

Definition array_index (k : string) : option N :=
  match k with
  | EmptyString => None
  | String c rest =>
      if Ascii.eqb c "0"%char && negb (rest =? EmptyString)%string then None
      else
        match decimal_value k 0%N with
        | Some n => if (n <? 4294967295)%N then Some n else None
        | None => None
        end
  end.

Fixpoint insert_index {V} (n : N) (p : string * V) (l : list (N * (string * V)))
  : list (N * (string * V)) :=
  match l with
  | [] => [(n, p)]
  | (m, q) :: l' => if (n <=? m)%N then (n, p) :: l else (m, q) :: insert_index n p l'
  end.

Definition index_properties {V} (o : JSObject V) : list (string * V) :=
  map snd
    (fold_right
       (fun p acc =>
          match array_index (fst p) with
          | Some n => insert_index n p acc
          | None => acc
          end)
       [] o).

Definition named_properties {V} (o : JSObject V) : list (string * V) :=
  filter (fun p => match array_index (fst p) with Some _ => false | None => true end) o.

(** The own properties in the order [for ... in] visits them: array indices
    in ascending order, then the other keys in creation order. *)
Definition own_properties {V} (o : JSObject V) : list (string * V) :=
  filter (fun p => is_own_key (fst p)) (index_properties o ++ named_properties o).

(** ** Query parser *)

Inductive TermType := regex | text.

Record Term := {
  term_type : TermType;
  term_value : string;
  term_scriptType : string;
  originalValue : string
}.

Record ParsedQuery := {
  termCount : Z;
  keys : list string;
  terms : JSObject (list Term)
}.

(** The variables of the scanning loop of [parseQuery]. *)
Record Scan := {
  scan_terms : JSObject (list string);
  inQuote : bool;
  currentCol : string;
  currentTerm : string
}.

Definition scan_start : Scan :=
  {| scan_terms := [("_", [])]; inQuote := false; currentCol := "_"; currentTerm := "" |}.

(** [terms[col].push(term)]; reading a missing property gives [undefined],
    and the call on it throws. *)
Definition push_term (o : JSObject (list string)) (col term : string)
  : Error + JSObject (list string) :=
  match obj_get o col with
  | Some l => inr (obj_set o col (l ++ [term]))
  | None => inl (TypeError "Cannot read property 'push' of undefined")
  end.

(** One turn of the scanning loop, on character [c]. *)
Definition scan_step (st : Scan) (c : ascii) : Error + Scan :=
  if Ascii.eqb c quote_char then
    if inQuote st then
      match push_term (scan_terms st) (currentCol st) (currentTerm st) with
      | inl err => inl err
      | inr o =>
          inr {| scan_terms := o; inQuote := false;
                 currentCol := currentCol st; currentTerm := "" |}
      end
    else
      inr {| scan_terms := scan_terms st; inQuote := true;
             currentCol := currentCol st; currentTerm := currentTerm st |}
  else if Ascii.eqb c " "%char && negb (inQuote st) then
    if (currentTerm st =? "")%string then inr st
    else
      match push_term (scan_terms st) (currentCol st) (currentTerm st) with
      | inl err => inl err
      | inr o =>
          inr {| scan_terms := o; inQuote := inQuote st;
                 currentCol := "_"; currentTerm := "" |}
      end
  else if Ascii.eqb c ":"%char && negb (inQuote st) then
    inr {| scan_terms := obj_set (scan_terms st) (currentTerm st) [];
           inQuote := inQuote st;
           currentCol := currentTerm st; currentTerm := "" |}
  else
    inr {| scan_terms := scan_terms st; inQuote := inQuote st;
           currentCol := currentCol st;
           currentTerm := (currentTerm st ++ String c EmptyString)%string |}.

Fixpoint scan (query : string) (st : Scan) : Error + Scan :=
  match query with
  | EmptyString => inr st
  | String c rest =>
      match scan_step st c with
      | inl err => inl err
      | inr st' => scan rest st'
      end
  end.

(** The scanning loop and the flush of the last term. *)
Definition scan_query (query : string) : Error + JSObject (list string) :=
  match scan query scan_start with
  | inl err => inl err
  | inr st =>
      if (currentTerm st =? "")%string then inr (scan_terms st)
      else push_term (scan_terms st) (currentCol st) (currentTerm st)
  end.

Section Parser.
Context `{Collaborators}.

Fixpoint strip_leading_stars (term : string) : string :=
  match term with
  | String c rest => if Ascii.eqb c "*"%char then strip_leading_stars rest else term
  | EmptyString => EmptyString
  end.

(** The characters a wildcard stops at, as written in [queryTermToRegex]. *)
Definition wildcard_stops : string :=
  String " " (String "009" (String "010" (String "013"
    (",.,+-*?!={}<>|:" ++ String quote_char "'()[]")))).

Definition queryTermToRegex (term : string) : string :=
  let term := strip_leading_stars term in
  let regexString := pregQuote term in
  match last_char regexString with
  | Some "*"%char =>
      (substring 0 (String.length regexString - 2) regexString
       ++ "[^" ++ pregQuote wildcard_stops ++ "]" ++ "*?")%string
  | _ => regexString
  end.

(** The inner loop of the filter: [*] alone is dropped, a term with a
    wildcard becomes a regex term, any other a text term. *)
Fixpoint filter_terms (col_terms : list string) : list Term :=
  match col_terms with
  | [] => []
  | term :: rest =>
      if (term =? star)%string then filter_terms rest
      else if contains_char "*" term then
        {| term_type := regex; term_value := queryTermToRegex term;
           term_scriptType := scriptType term; originalValue := term |}
        :: filter_terms rest
      else
        {| term_type := text; term_value := term;
           term_scriptType := scriptType term; originalValue := term |}
        :: filter_terms rest
  end.

(** The [for (col in terms)] loop over the own properties. *)
Fixpoint filter_columns (cols : list (string * list string)) (termCount : Z)
  (keys : list string) (out : JSObject (list Term)) : ParsedQuery :=
  match cols with
  | [] => {| termCount := termCount; keys := keys; terms := out |}
  | (col, col_terms) :: rest =>
      match col_terms with
      | [] => filter_columns rest termCount keys out
      | _ :: _ =>
          let filtered := filter_terms col_terms in
          filter_columns rest (termCount + Z.of_nat (List.length filtered))
            (keys ++ [col]) (out ++ [(col, filtered)])
      end
  end.

Definition parseQuery (query : string) : Error + ParsedQuery :=
  match scan_query query with
  | inl err => inl err
  | inr o =>
      match obj_get o "hasOwnProperty" with
      | Some _ => inl (TypeError "terms.hasOwnProperty is not a function")
      | None => inr (filter_columns (own_properties o) 0 [] [])
      end
  end.

End Parser.

(** ** Relevance ranker *)

(** A row of the [MATCH] query, and [weight] once [orderResults_] has set it. *)
Record Row := {
  row_id : string;
  row_title : string;
  row_offsets : string;
  row_weight : option float
}.

Definition set_weight (w : float) (r : Row) : Row :=
  {| row_id := row_id r; row_title := row_title r;
     row_offsets := row_offsets r; row_weight := Some w |}.

(** A whole number as a JavaScript number; exact below 2^53. *)
Definition number_of_Z (z : Z) : float := PrimFloat.of_uint63 (Uint63.of_Z z).

(** [Math.floor(offsets.length / 4)]; an array length is below 2^32, where
    the quotient of the numbers and the quotient of the integers agree. *)
Definition occurenceCount (offsets : list float) : Z :=
  Z.of_nat (List.length offsets) / 4.

(** The [for] loop of [calculateWeight_], from turn [i] on, for [n] turns.
    An index outside the array reads [undefined], a NaN in arithmetic. *)
Fixpoint spread_loop (n : nat) (i : nat) (offsets : list float)
  (spread : float) (previousDist : option float) : float :=
  match n with
  | O => spread
  | S n' =>
      let dist := nth (i * 4 + 2) offsets nan in
      let spread :=
        match previousDist with
        | Some p => (spread + (dist - p))%float
        | None => spread
        end in
      spread_loop n' (S i) offsets spread (Some dist)
  end.

Definition calculateWeight_ (offsets : list float) (termCount : Z) : float :=
  let occurenceCount := occurenceCount offsets in
  if termCount =? 1 then number_of_Z occurenceCount
  else
    let spread := spread_loop (Z.to_nat occurenceCount) 0 offsets 0%float None in
    (number_of_Z occurenceCount / spread)%float.

(** The comparator handed to [sort]. *)
Definition compare_weight (a b : float) : Z :=
  if (a <? b)%float then 1
  else if (b <? a)%float then -1
  else 0.

(** [Array.prototype.sort], as a stable insertion sort: [x] moves behind
    every [y] the comparator puts before it. *)
Fixpoint sort_insert {A} (cmp : A -> A -> Z) (x : A) (l : list A) : list A :=
  match l with
  | [] => [x]
  | y :: l' => if 0 <? cmp x y then y :: sort_insert cmp x l' else x :: l
  end.

Definition Array_sort {A} (cmp : A -> A -> Z) (l : list A) : list A :=
  fold_right (sort_insert cmp) [] l.

(** A row that was never given a weight compares as [undefined], a NaN. *)
Definition weight_of (r : Row) : float :=
  match row_weight r with
  | Some w => w
  | None => nan
  end.

(** The function [(a, b) => ...] that [orderResults_] sorts with. *)
Definition by_weight (a b : Row) : Z := compare_weight (weight_of a) (weight_of b).

Section Ranker.
Context `{Collaborators}.

Definition row_numbers (r : Row) : list float :=
  map Number (split_on " " (row_offsets r)).

Definition orderResults_ (rows : list Row) (parsedQuery : ParsedQuery) : list Row :=
  let rows :=
    map (fun row => set_weight (calculateWeight_ (row_numbers row) (termCount parsedQuery)) row)
      rows in
  Array_sort by_weight rows.

End Ranker.

(** ** Search *)

(** What a search reaches outside the engine: the setting [db.ftsEnabled],
    the outcome of the [MATCH] query on a given text (the rows, or the message
    of the error it fails with) and [Note.previews] on a pattern. *)
Record SearchEnv := {
  ftsEnabled : bool;
  selectAll_match : string -> string + list Row;
  Note_previews : string -> list Note
}.

Inductive SearchEvent :=
| CallPreviews (anywherePattern : string)
| CallSelectAll (sql : string) (param : string)
| LogWarn (message : string).

Inductive SearchResult :=
| Previews (found : list Note)
| Rows (rows : list Row).

Definition match_sql : string :=
  "SELECT id, title, offsets(notes_fts) AS offsets FROM notes_fts WHERE notes_fts MATCH ?".

(** The argument [anywherePattern] that [basicSearch] builds. *)
Definition anywherePattern (query : string) : string :=
  let p := split_on " " query in
  let temp := filter (fun t => negb (t =? "")%string) (map trim p) in
  ("*" ++ join "*" temp ++ "*")%string.

Definition basicSearch (env : SearchEnv) (query : string)
  : list SearchEvent * (Error + SearchResult) :=
  let pattern := anywherePattern query in
  ([CallPreviews pattern], inr (Previews (Note_previews env pattern))).

Section Search.
Context `{Collaborators}.

Definition uses_basicSearch (env : SearchEnv) (query : string) : bool :=
  negb (ftsEnabled env)
  || existsb (String.eqb (scriptType (normalizeText_ query))) ["ja"; "zh"; "ko"].

Definition search (env : SearchEnv) (query : string)
  : list SearchEvent * (Error + SearchResult) :=
  let query := normalizeText_ query in
  let st := scriptType query in
  if negb (ftsEnabled env) || existsb (String.eqb st) ["ja"; "zh"; "ko"] then
    basicSearch env query
  else
    match parseQuery query with
    | inl err => ([], inl err)
    | inr parsedQuery =>
        match selectAll_match env query with
        | inr rows =>
            ([CallSelectAll match_sql query], inr (Rows (orderResults_ rows parsedQuery)))
        | inl message =>
            ([CallSelectAll match_sql query;
              LogWarn ("Cannot execute MATCH query: " ++ query ++ ": " ++ message)%string],
             inr (Rows []))
        end
    end.

End Search.

(** ** The spec's wording, for comparison with the code *)

(** The occurrences a row's offsets report: groups of four numbers. *)
Fixpoint occurrences (offsets : list float) : list (float * float * float * float) :=
  match offsets with
  | a :: b :: c :: d :: rest => (a, b, c, d) :: occurrences rest
  | _ => []
  end.

(** The position field of an occurrence, the third of its four numbers. *)
Definition position (o : float * float * float * float) : float :=
  match o with (_, _, p, _) => p end.

Fixpoint successive_differences (ps : list float) : list float :=
  match ps with
  | [] => []
  | p :: rest =>
      match rest with
      | [] => []
      | q :: _ => (q - p)%float :: successive_differences rest
      end
  end.

(** The sum, in reported order, of the successive differences. *)
Definition spec_spread (ps : list float) : float :=
  fold_left PrimFloat.add (successive_differences ps) 0%float.

Definition is_number (x : float) : bool := negb (PrimFloat.is_nan x).

(** Descending order of weights, as [<] on numbers tells it. *)
Definition weight_ge (a b : Row) : Prop := (weight_of a <? weight_of b)%float = false.

(** The run of bytes up to the first white-space character of [s], and the
    tokens after it; [skip] bytes of [s] are the rest of a white-space
    character already met. *)
Fixpoint spec_split_from (skip : nat) (s : string) : string * list string :=
  match s with
  | EmptyString => (EmptyString, [])
  | String c s' =>
      match skip with
      | S k => spec_split_from k s'
      | O =>
          match white_space_width s with
          | O => let (t, ts) := spec_split_from 0 s' in (String c t, ts)
          | S k =>
              let (t, ts) := spec_split_from k s' in
              (EmptyString, if (t =? "")%string then ts else t :: ts)
          end
      end
  end.

Definition spec_split (s : string) : string * list string := spec_split_from 0 s.

(** The non-empty tokens of [s] split on white space. *)
Definition spec_tokens (s : string) : list string :=
  let (t, ts) := spec_split s in
  if (t =? "")%string then ts else t :: ts.

(** The tokens joined with a wildcard between and around them. *)
Definition spec_anywherePattern (query : string) : string :=
  ("*" ++ join "*" (spec_tokens query) ++ "*")%string.

(** No white-space character begins anywhere in [s]. *)
Fixpoint no_white_space (s : string) : bool :=
  match s with
  | EmptyString => true
  | String _ s' => Nat.eqb (white_space_width s) 0 && no_white_space s'
  end.

(** A previous distance, when there is one, ahead of the positions left. *)
Definition with_previous (previousDist : option float) (ps : list float) : list float :=
  match previousDist with
  | Some p => p :: ps
  | None => ps
  end.

(** The rows as [orderResults_] weighs them, before it sorts them. *)
Definition weighed `{Collaborators} (rows : list Row) (parsedQuery : ParsedQuery) : list Row :=
  map (fun row => set_weight (calculateWeight_ (row_numbers row) (termCount parsedQuery)) row)
    rows.

(** Space is the only white space of [s]. *)
Fixpoint only_spaces (s : string) : bool :=
  match s with
  | EmptyString => true
  | String c s' => (Nat.eqb (white_space_width s) 0 || Ascii.eqb c " ") && only_spaces s'
  end.

(** Ascending order of change ids. *)
Definition id_le (a b : ItemChange) : Prop := change_id a <= change_id b.

(** The records of the change log above a watermark: what bounds the number
    of turns of the loop of [syncTables]. *)
Definition pending (w : World) (id : Z) : nat :=
  List.length (filter (fun c => id <? change_id c) (item_changes w)).

(** The properties the scanning loop reads are there: the default column
    and the current one. *)
Definition columns_defined (st : Scan) : Prop :=
  obj_get (scan_terms st) "_" <> None
  /\ obj_get (scan_terms st) (currentCol st) <> None.

(** Two states of the scanning loop that differ at most in columns other
    than [col]. *)
Definition agree_on (col : string) (st1 st2 : Scan) : Prop :=
  inQuote st1 = inQuote st2
  /\ currentCol st1 = currentCol st2
  /\ currentTerm st1 = currentTerm st2
  /\ obj_get (scan_terms st1) col = obj_get (scan_terms st2) col.

(** The columns the filter of [parseQuery] keeps, with their terms. *)
Definition kept_column (p : string * list string) : bool :=
  match snd p with
  | [] => false
  | _ :: _ => true
  end.

(** What [parseQuery] makes of a column of the scanned object. *)
Definition filtered_column `{Collaborators} (o : JSObject (list string)) (col : string)
  : option (list Term) :=
  if is_own_key col then
    match obj_get o col with
    | Some (t :: ts) => Some (filter_terms (t :: ts))
    | _ => None
    end
  else None.

(** A column of the object the scan of a query ends with. *)
Definition scanned_column (query col : string) : option (list string) :=
  match scan_query query with
  | inl _ => None
  | inr o => obj_get o col
  end.

(** An engine as its constructor leaves it, over settings never written
    and an empty index table. *)
Definition new_engine : Engine :=
  {| isIndexing_ := false;
     initialIndexingDone := false;
     lastProcessedChangeId := 0;
     notes_normalized := [];
     events := [] |}.

(** The settings of an engine that has indexed, or of one that never ran. *)
Definition settings_consistent (e : Engine) : Prop :=
  initialIndexingDone e = false -> lastProcessedChangeId e <= 0.

(** ** Stand-ins for evaluation *)

Fixpoint escape_chars (special : string) (s : string) : string :=
  match s with
  | EmptyString => EmptyString
  | String c s' =>
      if contains_char c special
      then String "\" (String c (escape_chars special s'))
      else String c (escape_chars special s')
  end.

Definition decimal_number (s : string) : float :=
  let t := trim s in
  if (t =? "")%string then 0%float
  else
    match decimal_value t 0%N with
    | Some n => number_of_Z (Z.of_N n)
    | None => nan
    end.

(** Modelled from the spec: the collaborators are not part of the source
    file.  This instance stands in for them where the engine is evaluated on
    a concrete input: three distinct change-type codes, the note type, the
    string built-ins as they act on ASCII text (where normalization and the
    removal of diacritics change nothing and every text is of script [en]),
    [Number] as it reads a run of decimal digits, and a [pregQuote] that
    escapes the special characters of a regular expression. *)
Definition sample_host : Collaborators :=
  {| TYPE_CREATE := 1;
     TYPE_UPDATE := 2;
     TYPE_DELETE := 3;
     TYPE_NOTE := 1;
     String_normalize := fun s => s;
     String_toLowerCase := string_map ascii_toLowerCase;
     removeDiacritics := fun s => s;
     Number := decimal_number;
     pregQuote := escape_chars ".\+*?[^]$(){}=!<>|:-";
     scriptType := fun _ => "en" |}.

(** Modelled from the spec: the same stand-in for the collaborators, with a
    [scriptType] that answers [ja] for a text holding a byte of the encodings
    of U+3000 and above, where the Japanese scripts are. *)
Definition sample_host_ja : Collaborators :=
  {| TYPE_CREATE := 1;
     TYPE_UPDATE := 2;
     TYPE_DELETE := 3;
     TYPE_NOTE := 1;
     String_normalize := fun s => s;
     String_toLowerCase := string_map ascii_toLowerCase;
     removeDiacritics := fun s => s;
     Number := decimal_number;
     pregQuote := escape_chars ".\+*?[^]$(){}=!<>|:-";
     scriptType := fun s =>
       if existsb (fun c => (227 <=? nat_of_ascii c)%nat) (list_ascii_of_string s)
       then "ja" else "en" |}.

Definition sample_note (id title body : string) (conflict encrypted : Z) : Note :=
  {| note_id := id; note_title := title; note_body := body;
     is_conflict := conflict; encryption_applied := encrypted |}.

Definition sample_change (id : Z) (item : string) (type : Z) : ItemChange :=
  {| change_id := id; item_type := 1; item_id := item; change_type := type |}.

Definition sample_row (id offsets : string) : Row :=
  {| row_id := id; row_title := id; row_offsets := offsets; row_weight := None |}.

(** Some other names of table [notes]. *)
Definition sample_names : list string :=
  ["parent_id"; "created_time"; "updated_time"; "rowid"].

(** An engine whose first indexing is done, at watermark 0. *)
Definition indexed_engine : Engine :=
  {| isIndexing_ := false;
     initialIndexingDone := true;
     lastProcessedChangeId := 0;
     notes_normalized := [];
     events := [] |}.

(** A change log whose only record has a type that is none of the three. *)
Definition world_invalid_change : World :=
  {| notes := [sample_note "n1" "Title" "Body" 0 0];
     item_changes := [sample_change 1 "n1" 4];
     ItemChange_lastChangeId := 1;
     other_names := sample_names;
     unread_select := fun _ => [] |}.

Definition world_three_notes : World :=
  {| notes := [sample_note "n1" "One" "Aa" 0 0;
               sample_note "n2" "Two" "Bb" 1 0;
               sample_note "n3" "Three" "Cc" 0 0];
     item_changes := [sample_change 1 "n1" 1; sample_change 2 "n3" 2];
     ItemChange_lastChangeId := 2;
     other_names := sample_names;
     unread_select := fun _ => [] |}.

Definition rows_sample : list Row :=
  [sample_row "a" "0 0 5 3 0 1 9 3";
   sample_row "b" "0 0 5 3 0 1 6 3 1 0 8 3";
   sample_row "c" "1 0 7 2"].

Definition two_terms : ParsedQuery :=
  {| termCount := 2; keys := ["_"]; terms := [("_", [])] |}.

(** U+3000, the ideographic space. *)
Definition ideographic_space : string := utf8 [227; 128; 128]%nat.

(** The three characters U+30B2, U+30FC, U+30E0; the last byte of the last
    is 160. *)
Definition katakana_word : string :=
  utf8 [227; 130; 178; 227; 131; 188; 227; 131; 160]%nat.

(** [Hello], a space, a TAB, [World], two spaces, and the katakana word
    between two ideographic spaces. *)
Definition query_to_trim : string :=
  ("Hello " ++ String "009" "World  "
   ++ ideographic_space ++ katakana_word ++ ideographic_space)%string.

(** The text [a], a TAB, [b]. *)
Definition query_with_tab : string := String "a" (String "009" (String "b" EmptyString)).

Definition env_fts_off : SearchEnv :=
  {| ftsEnabled := false;
     selectAll_match := fun _ => inr [];
     Note_previews := fun _ => [] |}.

Definition env_match_fails : SearchEnv :=
  {| ftsEnabled := true;
     selectAll_match := fun _ => inl "malformed MATCH expression";
     Note_previews := fun _ => [sample_note "n1" "Title" "Body" 0 0] |}.

(** ** Vocabulary of the further properties *)

(** The rows of the index table under one id. *)
Definition rows_with_id (k : string) (t : list NormalizedRow) : list NormalizedRow :=
  filter (fun r => (n_id r =? k)%string) t.

(** The test of the first branch of the [for] loop of [syncTables]. *)
Definition is_upsert `{Collaborators} (c : ItemChange) : bool :=
  (change_type c =? TYPE_CREATE) || (change_type c =? TYPE_UPDATE).

(** The row that both loops insert for a note. *)
Definition normalized_row `{Collaborators} (n : Note) : NormalizedRow :=
  {| n_id := note_id n;
     n_title := normalizeText_ (note_title n);
     n_body := normalizeText_ (note_body n) |}.

(** The statements the [for] loop of [syncTables] gathers for one change of
    a valid type. *)
Definition change_statements `{Collaborators} (notes : list Note) (change : ItemChange)
  : list Query :=
  DeleteNormalized (item_id change)
  :: (if is_upsert change then
        match noteById_ notes (item_id change) with
        | Some note =>
            [InsertNormalized (item_id change)
               (normalizeText_ (note_title note)) (normalizeText_ (note_body note))]
        | None => []
        end
      else []).

(** The last change of a batch that names item [k]. *)
Definition last_change_for (k : string) (changes : list ItemChange) : option ItemChange :=
  find (fun c => (item_id c =? k)%string) (rev changes).

(** The first note of table [notes] with id [k] that is neither a conflict
    nor encrypted. *)
Definition eligible_note (w : World) (k : string) : option Note :=
  noteById_ (filter eligible (notes w)) k.

(** The number of batches of at most 100 that [n] changes make. *)
Definition batches (n : nat) : nat := Nat.div (n + 99) 100.

(** The note changes of the log above a watermark. *)
Definition pending_changes `{Collaborators} (w : World) (id : Z) : list ItemChange :=
  filter (fun c => (item_type c =? TYPE_NOTE) && (id <? change_id c)) (item_changes w).

(** A table with a note whose id is the name of a column. *)
Definition world_named_id : World :=
  {| notes := [sample_note "k" "Groceries" "Eggs" 0 0;
               sample_note "title" "Shopping" "Milk" 0 0];
     item_changes := [];
     ItemChange_lastChangeId := 0;
     other_names := sample_names;
     unread_select := fun _ => [] |}.

(** A change log with a creation, an update, a deletion of the note created
    and a creation of a note that is gone. *)
Definition world_batch : World :=
  {| notes := [sample_note "n1" "One" "Aa" 0 0;
               sample_note "n3" "Three" "Cc" 0 0];
     item_changes := [sample_change 1 "n1" 1; sample_change 2 "n3" 2;
                      sample_change 3 "n1" 3; sample_change 4 "n9" 1];
     ItemChange_lastChangeId := 4;
     other_names := sample_names;
     unread_select := fun _ => [] |}.

(** ** Scheduling

    The timeouts [setTimeout] has registered and that are not yet due, the
    handle [scheduleSyncTablesIID_] of the instance and the flag
    [isRunningInBackground_] of the class.  A run of [syncTables] is taken
    as a whole. *)

(** The two functions the file hands to [setTimeout]. *)
Inductive Callback :=
| ScheduledSync
| BackgroundSync.

Record Timeout := {
  timeout_id : positive;
  timeout_delay : Z;
  timeout_callback : Callback
}.

Record Scheduler := {
  instance_ : Engine;
  scheduleSyncTablesIID_ : option positive;
  isRunningInBackground_ : bool;
  timeouts : list Timeout;
  next_timeout_id : positive
}.

Definition set_instance (e : Engine) (s : Scheduler) : Scheduler :=
  {| instance_ := e;
     scheduleSyncTablesIID_ := scheduleSyncTablesIID_ s;
     isRunningInBackground_ := isRunningInBackground_ s;
     timeouts := timeouts s;
     next_timeout_id := next_timeout_id s |}.

Definition set_IID (iid : option positive) (s : Scheduler) : Scheduler :=
  {| instance_ := instance_ s;
     scheduleSyncTablesIID_ := iid;
     isRunningInBackground_ := isRunningInBackground_ s;
     timeouts := timeouts s;
     next_timeout_id := next_timeout_id s |}.

Definition set_isRunningInBackground (b : bool) (s : Scheduler) : Scheduler :=
  {| instance_ := instance_ s;
     scheduleSyncTablesIID_ := scheduleSyncTablesIID_ s;
     isRunningInBackground_ := b;
     timeouts := timeouts s;
     next_timeout_id := next_timeout_id s |}.

(** [setTimeout(callback, delay)]: a new timeout, and its handle. *)
Definition setTimeout (callback : Callback) (delay : Z) (s : Scheduler)
  : positive * Scheduler :=
  let id := next_timeout_id s in
  (id,
   {| instance_ := instance_ s;
      scheduleSyncTablesIID_ := scheduleSyncTablesIID_ s;
      isRunningInBackground_ := isRunningInBackground_ s;
      timeouts := timeouts s
                  ++ [{| timeout_id := id; timeout_delay := delay;
                         timeout_callback := callback |}];
      next_timeout_id := Pos.succ id |}).

Definition scheduleSyncTables (s : Scheduler) : Scheduler :=
  match scheduleSyncTablesIID_ s with
  | Some _ => s
  | None =>
      let (id, s') := setTimeout ScheduledSync 10000 s in
      set_IID (Some id) s'
  end.

(** A timeout that came due is no longer pending. *)
Definition clear_due (id : positive) (s : Scheduler) : Scheduler :=
  {| instance_ := instance_ s;
     scheduleSyncTablesIID_ := scheduleSyncTablesIID_ s;
     isRunningInBackground_ := isRunningInBackground_ s;
     timeouts := filter (fun t => negb (timeout_id t =? id)%positive) (timeouts s);
     next_timeout_id := next_timeout_id s |}.

(** The body of a callback: both run [syncTables]; the one of
    [scheduleSyncTables] clears the handle once the run has returned. *)
Definition run_callback `{Collaborators} (callback : Callback) (w : World) (s : Scheduler)
  : Outcome * Scheduler :=
  let (out, e') := syncTables w (instance_ s) in
  let s := set_instance e' s in
  match callback with
  | ScheduledSync =>
      match out with
      | Returned => (Returned, set_IID None s)
      | other => (other, s)
      end
  | BackgroundSync => (out, s)
  end.

(** The timeout with handle [id] comes due. *)
Definition timeout_due `{Collaborators} (id : positive) (w : World) (s : Scheduler)
  : Outcome * Scheduler :=
  match find (fun t => (timeout_id t =? id)%positive) (timeouts s) with
  | None => (Returned, s)
  | Some t => run_callback (timeout_callback t) w (clear_due id s)
  end.

(** [SearchEngine.runInBackground()]; the outcome of the run it starts is
    not awaited. *)
Definition runInBackground `{Collaborators} (w : World) (s : Scheduler) : Scheduler :=
  if isRunningInBackground_ s then s
  else
    let s := set_isRunningInBackground true s in
    let s := set_instance (snd (syncTables w (instance_ s))) s in
    snd (setTimeout BackgroundSync (1000 * 60 * 5) s).

(** What can happen to the scheduler, in any order. *)
Inductive Op :=
| CallScheduleSyncTables
| CallRunInBackground (w : World)
| TimeoutDue (id : positive) (w : World).

Definition step_op `{Collaborators} (s : Scheduler) (op : Op) : Scheduler :=
  match op with
  | CallScheduleSyncTables => scheduleSyncTables s
  | CallRunInBackground w => runInBackground w s
  | TimeoutDue id w => snd (timeout_due id w s)
  end.

Definition run_ops `{Collaborators} (ops : list Op) (s : Scheduler) : Scheduler :=
  fold_left step_op ops s.

(** The scheduler around an engine, before anything was scheduled. *)
Definition scheduler_of (e : Engine) : Scheduler :=
  {| instance_ := e;
     scheduleSyncTablesIID_ := None;
     isRunningInBackground_ := false;
     timeouts := [];
     next_timeout_id := 1%positive |}.

Definition is_callback (c : Callback) (t : Timeout) : bool :=
  match c, timeout_callback t with
  | ScheduledSync, ScheduledSync => true
  | BackgroundSync, BackgroundSync => true
  | _, _ => false
  end.

(** The number of pending timeouts of one callback. *)
Definition pending_timeouts (c : Callback) (s : Scheduler) : nat :=
  List.length (filter (is_callback c) (timeouts s)).

(** At most one timeout of [scheduleSyncTables] is pending, and none when
    the handle is clear. *)
Definition debounced (s : Scheduler) : Prop :=
  (pending_timeouts ScheduledSync s <= 1)%nat
  /\ (scheduleSyncTablesIID_ s = None -> pending_timeouts ScheduledSync s = 0%nat).

(** The handle is set and no timeout of [scheduleSyncTables] is pending:
    nothing is left that would clear the handle. *)
Definition scheduling_stuck (s : Scheduler) : Prop :=
  scheduleSyncTablesIID_ s <> None /\ pending_timeouts ScheduledSync s = 0%nat.



(** ** Vocabulary of the parser's properties *)

(** No quote, space or colon: none of the characters the scanning loop
    acts on. *)
Fixpoint plain (s : string) : bool :=
  match s with
  | EmptyString => true
  | String c s' =>
      negb (Ascii.eqb c quote_char) && negb (Ascii.eqb c " ") && negb (Ascii.eqb c ":")
      && plain s'
  end.

Fixpoint spaces (n : nat) : string :=
  match n with
  | O => EmptyString
  | S n' => String " " (spaces n')
  end.

Fixpoint stars (n : nat) : string :=
  match n with
  | O => EmptyString
  | S n' => String "*" (stars n')
  end.

(** The end of [parseQuery]'s scanning: the flush of the last term. *)
Definition flush (st : Scan) : Error + JSObject (list string) :=
  if (currentTerm st =? "")%string then inr (scan_terms st)
  else push_term (scan_terms st) (currentCol st) (currentTerm st).

(** The state of the scanning loop between two terms of the default
    column, [l] being the terms so far. *)
Definition between_terms (l : list string) : Scan :=
  {| scan_terms := [("_", l)]; inQuote := false; currentCol := "_"; currentTerm := "" |}.

(** The error of a call of [terms.hasOwnProperty] that finds an array. *)
Definition hasOwnProperty_error : Error :=
  TypeError "terms.hasOwnProperty is not a function".

(** [allParsedQueryTerms]: the terms of every column, in the order of the
    columns; nothing for [null] and for a query without terms. *)
Definition allParsedQueryTerms (parsedQuery : option ParsedQuery) : Error + list Term :=
  match parsedQuery with
  | None => inr []
  | Some parsedQuery =>
      if termCount parsedQuery =? 0 then inr []
      else
        match obj_get (terms parsedQuery) "hasOwnProperty" with
        | Some _ => inl (TypeError "parsedQuery.terms.hasOwnProperty is not a function")
        | None => inr (List.concat (map snd (own_properties (terms parsedQuery))))
        end
  end.


(** ** Column indexes of a row's offsets *)

(** The body of the loop of [columnIndexesFromOffsets_]: [indexOf] compares
    with [===]. *)
Definition push_if_new (indexes : list float) (colIndex : float) : list float :=
  if existsb (fun x => (x =? colIndex)%float) indexes
  then indexes
  else indexes ++ [colIndex].

Fixpoint columnIndexes_loop (n : nat) (i : nat) (offsets : list float)
  (indexes : list float) : list float :=
  match n with
  | O => indexes
  | S n' =>
      let colIndex := (nth (i * 4) offsets nan - 1)%float in
      columnIndexes_loop n' (S i) offsets (push_if_new indexes colIndex)
  end.

Definition columnIndexesFromOffsets_ (offsets : list float) : list float :=
  columnIndexes_loop (Z.to_nat (occurenceCount offsets)) 0 offsets [].

(** The column field of an occurrence, the first of its four numbers. *)
Definition column (o : float * float * float * float) : float :=
  match o with (c, _, _, _) => c end.

Definition env_match_succeeds : SearchEnv :=
  {| ftsEnabled := true;
     selectAll_match := fun _ => inr rows_sample;
     Note_previews := fun _ => [] |}.

(** The state of the scanning loop after [a hasOwnProperty]. *)
Definition scan_before_colon : Scan :=
  {| scan_terms := [("_", ["a"])]; inQuote := false;
     currentCol := "_"; currentTerm := "hasOwnProperty" |}.

(** A scheduler with the timeout of one call of [scheduleSyncTables]
    pending, around an engine that has indexed. *)
Definition scheduled_once : Scheduler :=
  {| instance_ := indexed_engine;
     scheduleSyncTablesIID_ := Some 1%positive;
     isRunningInBackground_ := false;
     timeouts := [{| timeout_id := 1; timeout_delay := 10000;
                     timeout_callback := ScheduledSync |}];
     next_timeout_id := 2%positive |}.

(** * Properties *)

(** ** The change-log query *)

Lemma firstn_incl {A} (n : nat) (l : list A) (x : A) : In x (firstn n l) -> In x l.
Proof.
  intros Hx. rewrite <- (firstn_skipn n l). apply in_or_app. left; exact Hx.
Qed.

Lemma skipn_incl {A} (n : nat) (l : list A) (x : A) : In x (skipn n l) -> In x l.
Proof.
  intros Hx. rewrite <- (firstn_skipn n l). apply in_or_app. right; exact Hx.
Qed.

Lemma insert_by_id_In (c x : ItemChange) (l : list ItemChange) :
  In x (insert_by_id c l) <-> x = c \/ In x l.
Proof.
  induction l as [|d l IH]; simpl.
  - intuition congruence.
  - destruct (change_id c <=? change_id d); simpl; rewrite ?IH; intuition congruence.
Qed.

Lemma order_by_id_In (x : ItemChange) (l : list ItemChange) :
  In x (order_by_id l) <-> In x l.
Proof.
  induction l as [|c l IH]; simpl; [reflexivity|].
  rewrite insert_by_id_In, IH. intuition congruence.
Qed.

Lemma insert_by_id_sorted (c : ItemChange) (l : list ItemChange) :
  StronglySorted id_le l -> StronglySorted id_le (insert_by_id c l).
Proof.
  induction 1 as [|d l Hs IH Hd]; simpl.
  - constructor; constructor.
  - destruct (Z.leb_spec (change_id c) (change_id d)) as [Hle|Hgt].
    + constructor; [constructor; assumption|].
      constructor; [exact Hle|].
      eapply Forall_impl; [|exact Hd]. unfold id_le. intros; lia.
    + constructor; [exact IH|].
      apply Forall_forall. intros x Hx. apply insert_by_id_In in Hx.
      destruct Hx as [->|Hx]; [unfold id_le; lia|].
      rewrite Forall_forall in Hd. auto.
Qed.

Lemma order_by_id_sorted (l : list ItemChange) : StronglySorted id_le (order_by_id l).
Proof.
  induction l; simpl; [constructor | apply insert_by_id_sorted; assumption].
Qed.

Lemma firstn_sorted {A} (R : A -> A -> Prop) (n : nat) (l : list A) :
  StronglySorted R l -> StronglySorted R (firstn n l).
Proof.
  intros Hs. revert n. induction Hs as [|x l Hs IH Hx]; intros [|n]; simpl; try constructor.
  - apply IH.
  - rewrite Forall_forall in *. intros y Hy. apply Hx. eapply firstn_incl; eauto.
Qed.

Lemma last_cons {A} (l : list A) (a d : A) : last (a :: l) d = last l a.
Proof.
  revert a d. induction l as [|b l IH]; intros a d; [reflexivity|].
  change (last (a :: b :: l) d) with (last (b :: l) d).
  rewrite (IH b d). symmetry. apply IH.
Qed.

Section SynchronizerFacts.
Context `{Collaborators}.

Lemma select_changes_In (w : World) (id : Z) (c : ItemChange) :
  In c (select_changes w id) ->
  In c (item_changes w) /\ item_type c = TYPE_NOTE /\ id < change_id c.
Proof.
  unfold select_changes. intros Hc. apply firstn_incl in Hc.
  apply (proj1 (order_by_id_In _ _)) in Hc. apply filter_In in Hc.
  destruct Hc as [Hin Hc]. apply andb_true_iff in Hc. destruct Hc as [Ht Hid].
  apply Z.eqb_eq in Ht. apply Z.ltb_lt in Hid. auto.
Qed.

Lemma select_changes_sorted (w : World) (id : Z) :
  StronglySorted id_le (select_changes w id).
Proof.
  unfold select_changes. apply firstn_sorted, order_by_id_sorted.
Qed.

(** The [for] loop leaves [lastChangeId] at the id of the last change. *)
Lemma changes_queries_last (notes : list Note) (changes : list ItemChange) :
  forall queries id queries' id',
    changes_queries notes changes queries id = inr (queries', id') ->
    id' = last (map change_id changes) id.
Proof.
  induction changes as [|c rest IH]; intros queries id queries' id' Hq; simpl in Hq.
  - inversion Hq; reflexivity.
  - assert (Hlast : last (map change_id (c :: rest)) id
                    = last (map change_id rest) (change_id c)).
    { apply last_cons. }
    rewrite Hlast.
    destruct ((change_type c =? TYPE_CREATE) || (change_type c =? TYPE_UPDATE)).
    + eapply IH; eauto.
    + destruct (change_type c =? TYPE_DELETE); [eapply IH; eauto | discriminate].
Qed.

(** A change whose type is none of the three makes the [for] loop throw. *)
Lemma changes_queries_invalid (notes : list Note) (changes : list ItemChange) :
  forall queries id err,
    changes_queries notes changes queries id = inl err ->
    exists c, In c changes /\ err = InvalidChangeType (change_type c)
              /\ change_type c <> TYPE_CREATE /\ change_type c <> TYPE_UPDATE
              /\ change_type c <> TYPE_DELETE.
Proof.
  induction changes as [|c rest IH]; intros queries id err Hq; simpl in Hq; [discriminate|].
  destruct (Z.eqb_spec (change_type c) TYPE_CREATE) as [Hc|Hc]; simpl in Hq.
  { apply IH in Hq. destruct Hq as (d & Hd & Hrest). exists d. simpl; auto. }
  destruct (Z.eqb_spec (change_type c) TYPE_UPDATE) as [Hu|Hu]; simpl in Hq.
  { apply IH in Hq. destruct Hq as (d & Hd & Hrest). exists d. simpl; auto. }
  destruct (Z.eqb_spec (change_type c) TYPE_DELETE) as [Hd|Hd].
  { apply IH in Hq. destruct Hq as (d & Hd' & Hrest). exists d. simpl; auto. }
  inversion Hq; subst. exists c. simpl; auto.
Qed.

Lemma last_In {A} (l : list A) (d : A) : l <> [] -> In (last l d) l.
Proof.
  induction l as [|a l IH]; [congruence|]. intros _.
  destruct l as [|b l]; [left; reflexivity|].
  right. apply IH. discriminate.
Qed.

(** What a turn that applies a batch does to the engine. *)
Lemma sync_turn_applied (w : World) (id id' : Z) (e e' : Engine) :
  sync_turn w id e = Applied id' e' ->
  select_changes w id <> []
  /\ id' = last (map change_id (select_changes w id)) id
  /\ lastProcessedChangeId e' = id'
  /\ isIndexing_ e' = isIndexing_ e
  /\ initialIndexingDone e' = initialIndexingDone e
  /\ (exists c, In c (item_changes w) /\ change_id c = id' /\ id < id').
Proof.
  unfold sync_turn. intros Ht.
  destruct (select_changes w id) as [|c cs] eqn:Hsel; [discriminate|].
  destruct (changes_queries _ _ _ _) as [err|[queries last']] eqn:Hq; [discriminate|].
  inversion Ht; subst; clear Ht.
  apply changes_queries_last in Hq.
  split; [discriminate|]. split; [exact Hq|]. repeat (split; [reflexivity|]).
  assert (Hin : In id' (map change_id (c :: cs))).
  { rewrite Hq. apply last_In. discriminate. }
  apply in_map_iff in Hin. destruct Hin as (d & Hd & Hin).
  rewrite <- Hsel in Hin. apply select_changes_In in Hin.
  exists d. intuition lia.
Qed.

End SynchronizerFacts.

(** ** Termination of the two loops *)

Lemma filter_length_mono {A} (p q : A -> bool) (l : list A) :
  (forall x, p x = true -> q x = true) ->
  (List.length (filter p l) <= List.length (filter q l))%nat.
Proof.
  intros Hpq. induction l as [|a l IH]; simpl; [lia|].
  destruct (p a) eqn:Hp.
  - rewrite (Hpq _ Hp). simpl. lia.
  - destruct (q a); simpl; lia.
Qed.

Lemma filter_length_strict {A} (p q : A -> bool) (l : list A) (c : A) :
  (forall x, p x = true -> q x = true) ->
  In c l -> q c = true -> p c = false ->
  (List.length (filter p l) < List.length (filter q l))%nat.
Proof.
  intros Hpq. induction l as [|a l IH]; simpl; [tauto|].
  intros [->|Hin] Hq Hp.
  - rewrite Hq, Hp. simpl.
    pose proof (filter_length_mono p q l Hpq). lia.
  - specialize (IH Hin Hq Hp).
    destruct (p a) eqn:Hpa.
    + rewrite (Hpq _ Hpa). simpl. lia.
    + destruct (q a); simpl; lia.
Qed.

Lemma filter_length_bound {A} (p : A -> bool) (l : list A) :
  (List.length (filter p l) <= List.length l)%nat.
Proof.
  induction l as [|a l IH]; simpl; [lia|]. destruct (p a); simpl; lia.
Qed.

Section Termination.
Context `{Collaborators}.

Lemma sync_turn_pending (w : World) (id id' : Z) (e e' : Engine) :
  sync_turn w id e = Applied id' e' -> (pending w id' < pending w id)%nat.
Proof.
  intros Ht. apply sync_turn_applied in Ht.
  destruct Ht as (_ & _ & _ & _ & _ & c & Hin & Hc & Hlt).
  unfold pending. apply filter_length_strict with (c := c); auto.
  - intros x Hx. apply Z.ltb_lt in Hx. apply Z.ltb_lt. lia.
  - apply Z.ltb_lt. lia.
  - apply Z.ltb_ge. lia.
Qed.

Lemma sync_loop_returns (fuel : nat) (w : World) :
  forall id e, (pending w id < fuel)%nat -> fst (sync_loop fuel w id e) <> OutOfFuel.
Proof.
  induction fuel as [|fuel IH]; intros id e Hfuel; [lia|]. simpl.
  destruct (sync_turn w id e) as [| err | id' e'] eqn:Ht; simpl; try discriminate.
  apply IH. apply sync_turn_pending in Ht. lia.
Qed.

Lemma rebuild_loop_returns (fuel : nat) (w : World) :
  forall noteIds e, (List.length noteIds <= fuel)%nat ->
    exists e', rebuild_loop fuel w noteIds e = Some e'.
Proof.
  induction fuel as [|fuel IH]; intros noteIds e Hfuel.
  - destruct noteIds; [exists e; reflexivity | simpl in Hfuel; lia].
  - destruct noteIds as [|i noteIds]; [exists e; reflexivity|].
    cbn [rebuild_loop]. apply IH.
    rewrite length_skipn. simpl in *. lia.
Qed.

Lemma rebuildIndex_returns (w : World) (e : Engine) :
  exists e', rebuildIndex_ w e = Some e'.
Proof.
  unfold rebuildIndex_, rebuildIndex_fuel.
  destruct (rebuild_loop_returns (List.length (notes w)) w (select_eligible_ids w)
              (db_exec DeleteAllNormalized e)) as [e' He'].
  - unfold select_eligible_ids. rewrite length_map. apply filter_length_bound.
  - rewrite He'. eauto.
Qed.

(** Every call of [syncTables] ends: it returns or it throws. *)
Lemma syncTables_ends (w : World) (e : Engine) : fst (syncTables w e) <> OutOfFuel.
Proof.
  unfold syncTables, syncTables_fuel.
  destruct (isIndexing_ e); [discriminate|].
  cbn [initialIndexingDone emit set_isIndexing].
  destruct (initialIndexingDone e); cbn [negb].
  - match goal with |- context [sync_loop ?f ?w ?i ?x] =>
      pose proof (sync_loop_returns f w i x) as Hl;
      destruct (sync_loop f w i x) as [[| err |] e'] end; simpl in *; try discriminate.
    apply Hl. unfold pending.
    pose proof (filter_length_bound (fun c => lastProcessedChangeId e <? change_id c)
                  (item_changes w)). simpl. lia.
  - match goal with |- context [rebuildIndex_ ?w ?x] =>
      destruct (rebuildIndex_returns w x) as [e' He']; rewrite He' end.
    discriminate.
Qed.

End Termination.

(** ** The run guard and the watermark *)

Section Watermark.
Context `{Collaborators}.

Lemma rebuild_loop_fields (fuel : nat) (w : World) :
  forall noteIds e e', rebuild_loop fuel w noteIds e = Some e' ->
    isIndexing_ e' = isIndexing_ e
    /\ initialIndexingDone e' = initialIndexingDone e
    /\ lastProcessedChangeId e' = lastProcessedChangeId e
    /\ events e' = events e.
Proof.
  induction fuel as [|fuel IH]; intros noteIds e e' Hl.
  - destruct noteIds; [|discriminate]. inversion Hl; auto.
  - destruct noteIds as [|i noteIds]; [inversion Hl; auto|].
    cbn [rebuild_loop] in Hl. apply IH in Hl. exact Hl.
Qed.

Lemma rebuildIndex_fields (w : World) (e e' : Engine) :
  rebuildIndex_ w e = Some e' ->
  isIndexing_ e' = isIndexing_ e
  /\ initialIndexingDone e' = initialIndexingDone e
  /\ lastProcessedChangeId e' = ItemChange_lastChangeId w
  /\ events e' = events e.
Proof.
  unfold rebuildIndex_, rebuildIndex_fuel. intros Hr.
  destruct (rebuild_loop _ _ _ _) as [e1|] eqn:Hl; [|discriminate].
  inversion Hr; subst; clear Hr. apply rebuild_loop_fields in Hl.
  simpl in *. intuition.
Qed.

Lemma sync_loop_fields (fuel : nat) (w : World) :
  forall id e, lastProcessedChangeId e <= id ->
    let e' := snd (sync_loop fuel w id e) in
    lastProcessedChangeId e <= lastProcessedChangeId e'
    /\ isIndexing_ e' = isIndexing_ e
    /\ initialIndexingDone e' = initialIndexingDone e.
Proof.
  induction fuel as [|fuel IH]; intros id e Hid; simpl; [intuition lia|].
  destruct (sync_turn w id e) as [| err | id' e1] eqn:Ht; simpl; try (intuition lia).
  apply sync_turn_applied in Ht.
  destruct Ht as (_ & _ & Hw & Hg & Hd & _ & _ & _ & Hlt).
  destruct (IH id' e1) as (Hw' & Hg' & Hd'); [lia|].
  rewrite Hg', Hd', Hg, Hd. intuition lia.
Qed.

(** A run that throws leaves the run guard set. *)
Lemma thrown_keeps_guard (w : World) (e e' : Engine) (err : Error) :
  syncTables w e = (Thrown err, e') -> isIndexing_ e' = true.
Proof.
  unfold syncTables, syncTables_fuel.
  destruct (isIndexing_ e); [discriminate|].
  cbn [initialIndexingDone emit set_isIndexing].
  destruct (initialIndexingDone e); cbn [negb].
  - match goal with |- context [sync_loop ?f ?w ?i ?x] =>
      pose proof (sync_loop_fields f w i x (Z.le_refl _)) as Hl;
      destruct (sync_loop f w i x) as [[| err1 |] e1] end;
      intros Hs; inversion Hs; subst.
    simpl in Hl. intuition.
  - destruct (rebuildIndex_ _ _); discriminate.
Qed.

Lemma syncTables_step (w : World) (e : Engine) :
  settings_consistent e -> 0 <= ItemChange_lastChangeId w ->
  lastProcessedChangeId e <= lastProcessedChangeId (snd (syncTables w e))
  /\ settings_consistent (snd (syncTables w e)).
Proof.
  unfold settings_consistent, syncTables, syncTables_fuel. intros Hc Hmark.
  destruct (isIndexing_ e); [simpl; split; [lia | exact Hc]|].
  cbn [initialIndexingDone emit set_isIndexing].
  destruct (initialIndexingDone e) eqn:Hdone; cbn [negb].
  - match goal with |- context [sync_loop ?f ?w ?i ?x] =>
      pose proof (sync_loop_fields f w i x (Z.le_refl _)) as Hl;
      destruct (sync_loop f w i x) as [[| err1 |] e1] end;
      simpl in *; destruct Hl as (Hw & _ & Hd); rewrite ?Hd, ?Hdone;
      (split; [exact Hw | discriminate]).
  - match goal with |- context [rebuildIndex_ ?w ?x] =>
      destruct (rebuildIndex_returns w x) as [e1 He1]; rewrite He1;
      apply rebuildIndex_fields in He1 end.
    destruct He1 as (_ & _ & Hw & _). simpl.
    specialize (Hc eq_refl).
    split; [lia | discriminate].
Qed.

Lemma run_all_watermarks (ws : list World) :
  Forall (fun w => 0 <= ItemChange_lastChangeId w) ws ->
  forall e, settings_consistent e ->
    Sorted Z.le (map lastProcessedChangeId (e :: run_all ws e)).
Proof.
  induction 1 as [|w ws Hw Hws IH]; intros e Hc; simpl.
  - repeat constructor.
  - destruct (syncTables_step w e Hc Hw) as [Hle Hc'].
    constructor; [exact (IH _ Hc')|]. constructor. exact Hle.
Qed.

(** C8: a call of [syncTables] made while the run guard is set returns at
    once and changes nothing: the watermark, the index table, the
    initial-indexing flag and the rest of the engine are as before. *)
Theorem syncTables_while_running (w : World) (e : Engine) :
  isIndexing_ e = true ->
  syncTables w e = (Returned, e)
  /\ lastProcessedChangeId (snd (syncTables w e)) = lastProcessedChangeId e
  /\ notes_normalized (snd (syncTables w e)) = notes_normalized e
  /\ initialIndexingDone (snd (syncTables w e)) = initialIndexingDone e
  /\ events (snd (syncTables w e)) = events e.
Proof.
  intros Hguard. unfold syncTables, syncTables_fuel. rewrite Hguard.
  repeat split; reflexivity.
Qed.

(** C5: over every sequence of runs of an engine whose settings are those
    of a new or of an indexed engine, whatever the tables are at each run
    and whatever high-water mark, none negative, the change log reports,
    the watermark never decreases; a turn of the incremental loop that
    applies a batch leaves the watermark at the id of the last record
    fetched; and the records fetched have ids above the watermark and come
    in ascending order of id. *)
Theorem watermark_never_decreases (ws : list World) (e : Engine) :
  (settings_consistent e ->
   Forall (fun w => 0 <= ItemChange_lastChangeId w) ws ->
   StronglySorted Z.le (map lastProcessedChangeId (e :: run_all ws e)))
  /\ (forall w id e0 id' e',
        sync_turn w id e0 = Applied id' e' ->
        lastProcessedChangeId e' = last (map change_id (select_changes w id)) id
        /\ id < lastProcessedChangeId e')
  /\ (forall w id,
        Forall (fun c => id < change_id c) (select_changes w id)
        /\ StronglySorted id_le (select_changes w id)).
Proof.
  split; [|split].
  - intros Hc Hmarks. apply Sorted_StronglySorted.
    + intros x y z; lia.
    + apply run_all_watermarks; assumption.
  - intros w id e0 id' e' Ht. apply sync_turn_applied in Ht.
    destruct Ht as (_ & Hlast & Hw & _ & _ & _ & _ & _ & Hlt).
    rewrite Hw. split; [exact Hlast | exact Hlt].
  - intros w id. split; [|apply select_changes_sorted].
    apply Forall_forall. intros c Hin. apply select_changes_In in Hin. tauto.
Qed.

End Watermark.

(** The watermark over three runs of a new engine: a rebuild, an
    incremental run on the same tables, and one after the log was pruned. *)
Lemma watermark_never_decreases_witness :
  settings_consistent new_engine
  /\ Forall (fun w => 0 <= ItemChange_lastChangeId w)
       [world_three_notes; world_three_notes; world_invalid_change]
  /\ StronglySorted Z.le
       (map lastProcessedChangeId
          (new_engine
           :: run_all (H := sample_host)
                [world_three_notes; world_three_notes; world_invalid_change] new_engine)).
Proof.
  assert (Hmarks : Forall (fun w => 0 <= ItemChange_lastChangeId w)
                     [world_three_notes; world_three_notes; world_invalid_change]).
  { repeat constructor; simpl; lia. }
  split; [unfold settings_consistent; simpl; lia|].
  split; [exact Hmarks|].
  apply (proj1 (watermark_never_decreases (H := sample_host)
                  [world_three_notes; world_three_notes; world_invalid_change] new_engine)).
  - unfold settings_consistent; simpl; lia.
  - exact Hmarks.
Defined.

Lemma syncTables_while_running_witness :
  isIndexing_ (set_isIndexing true indexed_engine) = true
  /\ syncTables (H := sample_host) world_three_notes (set_isIndexing true indexed_engine)
     = (Returned, set_isIndexing true indexed_engine).
Proof.
  split; [reflexivity|].
  apply (syncTables_while_running (H := sample_host) world_three_notes
           (set_isIndexing true indexed_engine)).
  reflexivity.
Defined.

(** C1: on a change log whose record has a type that is none of Create,
    Update and Delete, [syncTables] throws the error for that type and the
    run guard stays set, so that the next call returns at once, having done
    nothing. *)
Theorem invalid_change_type_keeps_guard :
  let run1 := syncTables (H := sample_host) world_invalid_change indexed_engine in
  fst run1 = Thrown (InvalidChangeType 4)
  /\ isIndexing_ (snd run1) = true
  /\ syncTables (H := sample_host) world_invalid_change (snd run1) = (Returned, snd run1).
Proof.
  vm_compute. repeat split; reflexivity.
Qed.

(** ** Rebuilding the index *)

Lemma NoDup_app_disjoint {A} (a b : list A) (x : A) :
  NoDup (a ++ b) -> In x a -> ~ In x b.
Proof.
  induction a as [|y a IH]; simpl; [tauto|].
  intros Hnd [->|Hin] Hb.
  - inversion Hnd; subst. apply H1. apply in_or_app. right; exact Hb.
  - inversion Hnd; subst. exact (IH H2 Hin Hb).
Qed.

(** In a list without duplicates, a slice may be traded for any list
    without duplicates drawn from it. *)
Lemma NoDup_replace_middle {A} (a b b' c : list A) :
  NoDup (a ++ b ++ c) -> NoDup b' -> (forall x, In x b' -> In x b) ->
  NoDup ((a ++ b') ++ c).
Proof.
  intros Hnd Hb' Hincl.
  pose proof (NoDup_app_remove_r _ _ Hnd) as Ha.
  pose proof (NoDup_app_remove_l _ _ Hnd) as Hbc.
  pose proof (NoDup_app_remove_l _ _ Hbc) as Hc.
  apply NoDup_app; [apply NoDup_app; auto| exact Hc |].
  - intros x Hxa Hxb. apply (NoDup_app_disjoint _ _ x Hnd Hxa).
    apply in_or_app. left. auto.
  - intros x Hx Hxc. apply in_app_or in Hx. destruct Hx as [Hxa|Hxb].
    + apply (NoDup_app_disjoint _ _ x Hnd Hxa). apply in_or_app. right; exact Hxc.
    + apply (NoDup_app_disjoint _ _ x Hbc (Hincl _ Hxb) Hxc).
Qed.

Lemma NoDup_map_filter {K V} (keep : V -> bool) (key : V -> K) (rows : list V) :
  NoDup (map key rows) -> NoDup (map key (filter keep rows)).
Proof.
  intros Hnd. induction rows as [|r rows IH]; simpl in *; [exact Hnd|].
  inversion Hnd as [|? ? Hfresh Hrest]; subst.
  destruct (keep r); simpl; [|exact (IH Hrest)].
  constructor; [|exact (IH Hrest)].
  intros Hin. apply Hfresh. apply in_map_iff in Hin. destruct Hin as (x & Hx & Hin).
  apply filter_In in Hin. apply in_map_iff. exists x. tauto.
Qed.

Lemma engine_eq (e1 e2 : Engine) :
  isIndexing_ e1 = isIndexing_ e2 ->
  initialIndexingDone e1 = initialIndexingDone e2 ->
  lastProcessedChangeId e1 = lastProcessedChangeId e2 ->
  notes_normalized e1 = notes_normalized e2 ->
  events e1 = events e2 ->
  e1 = e2.
Proof.
  destruct e1, e2; simpl; intros; subst; reflexivity.
Qed.

Section Rebuild.
Context `{Collaborators}.

Lemma eligible_spec (n : Note) :
  eligible n = true <-> is_conflict n = 0 /\ encryption_applied n = 0.
Proof.
  unfold eligible. rewrite andb_true_iff, !Z.eqb_eq. reflexivity.
Qed.

Lemma read_id_literal (w : World) (id : string) :
  is_literal w id = true -> read_id w id = Literal id.
Proof.
  unfold is_literal, read_id.
  destruct (contains_char quote_char id || contains_char NUL id); [discriminate|].
  cbv zeta.
  destruct (string_map ascii_toLowerCase id =? "id")%string; [discriminate|].
  destruct (string_map ascii_toLowerCase id =? "title")%string; [discriminate|].
  destruct (string_map ascii_toLowerCase id =? "body")%string; [discriminate|].
  destruct (existsb _ _); [discriminate | reflexivity].
Qed.

Lemma operands_literal (w : World) (n : Note) (ids : list string) :
  forallb (is_literal w) ids = true ->
  existsb is_unread (map (read_id w) ids) = false
  /\ existsb (id_equals n) (map (read_id w) ids) = existsb (String.eqb (note_id n)) ids.
Proof.
  induction ids as [|i ids IH]; simpl; [auto|].
  intros Hl. apply andb_true_iff in Hl. destruct Hl as [Hi Hl].
  destruct (IH Hl) as [Hu He]. rewrite (read_id_literal w i Hi), Hu, He. auto.
Qed.

(** Where every id of the list is read as the string it is, the rows are
    those of the notes that have one of the ids and are neither conflicts
    nor encrypted. *)
Lemma select_notes_in_literal (w : World) (ids : list string) :
  ids <> [] ->
  forallb (is_literal w) ids = true ->
  select_notes_in w ids
  = filter (fun n => existsb (String.eqb (note_id n)) ids && eligible n) (notes w).
Proof.
  intros Hne Hl. unfold select_notes_in.
  assert (Hin : in_list ids = ids) by (destruct ids; [congruence | reflexivity]).
  rewrite Hin.
  destruct (notes w) as [|n0 ns] eqn:Hn.
  - destruct (existsb is_unread _) eqn:Hu; [|reflexivity].
    destruct (operands_literal w {| note_id := ""; note_title := ""; note_body := "";
                                    is_conflict := 0; encryption_applied := 0 |} ids Hl)
      as [Hu' _]. congruence.
  - destruct (operands_literal w n0 ids Hl) as [Hu _]. rewrite Hu.
    apply filter_ext. intros n.
    destruct (operands_literal w n ids Hl) as [_ He]. rewrite He. reflexivity.
Qed.

Lemma forallb_firstn {A} (p : A -> bool) (k : nat) (l : list A) :
  forallb p l = true -> forallb p (firstn k l) = true /\ forallb p (skipn k l) = true.
Proof.
  intros Hl. rewrite <- (firstn_skipn k l), forallb_app in Hl.
  apply andb_true_iff in Hl. exact Hl.
Qed.

Lemma select_notes_in_ids (w : World) (ids : list string) (id : string) :
  ids <> [] ->
  forallb (is_literal w) ids = true ->
  In id (map note_id (select_notes_in w ids)) <->
  In id ids /\ In id (select_eligible_ids w).
Proof.
  intros Hne Hl. rewrite (select_notes_in_literal w ids Hne Hl).
  unfold select_eligible_ids. rewrite !in_map_iff. split.
  - intros (n & Hid & Hn). apply filter_In in Hn. destruct Hn as [Hin Hp].
    apply andb_true_iff in Hp. destruct Hp as [Hex He].
    apply existsb_exists in Hex. destruct Hex as (i & Hi & Heq).
    apply String.eqb_eq in Heq. split.
    + congruence.
    + exists n. split; [exact Hid|]. apply filter_In. tauto.
  - intros (Hids & n & Hid & Hn). apply filter_In in Hn. destruct Hn as [Hin He].
    exists n. split; [exact Hid|]. apply filter_In. split; [exact Hin|].
    apply andb_true_iff. split; [|exact He].
    apply existsb_exists. exists id. split; [exact Hids|].
    apply String.eqb_eq. exact Hid.
Qed.

(** A batch of insertions appends one row per note, under the note's id. *)
Lemma rebuild_batch_ids (ns : list Note) (e : Engine) :
  map n_id (notes_normalized (transactionExecBatch (rebuild_queries ns) e))
  = map n_id (notes_normalized e) ++ map note_id ns.
Proof.
  unfold transactionExecBatch. cbn [notes_normalized set_notes_normalized].
  generalize (notes_normalized e) as t.
  induction ns as [|n ns IH]; intros t; simpl.
  - rewrite app_nil_r. reflexivity.
  - rewrite IH, map_app, <- app_assoc. reflexivity.
Qed.

Lemma first_slice {A} (i : A) (l : list A) : firstn 100 (i :: l) <> [].
Proof. discriminate. Qed.

Lemma rebuild_loop_NoDup (fuel : nat) (w : World) :
  NoDup (map note_id (notes w)) ->
  forall noteIds e e',
    forallb (is_literal w) noteIds = true ->
    NoDup (map n_id (notes_normalized e) ++ noteIds) ->
    rebuild_loop fuel w noteIds e = Some e' ->
    NoDup (map n_id (notes_normalized e')).
Proof.
  intros Hw. induction fuel as [|fuel IH]; intros noteIds e e' Hlit Hnd Hl.
  - destruct noteIds; [|discriminate]. inversion Hl; subst.
    rewrite app_nil_r in Hnd. exact Hnd.
  - destruct noteIds as [|i noteIds].
    { inversion Hl; subst. rewrite app_nil_r in Hnd. exact Hnd. }
    cbn [rebuild_loop] in Hl. set (ids := i :: noteIds) in *.
    destruct (forallb_firstn _ 100 ids Hlit) as [Hfirst Hrest].
    apply IH in Hl; [exact Hl | exact Hrest |].
    rewrite rebuild_batch_ids.
    apply NoDup_replace_middle with (b := firstn 100 ids).
    + rewrite firstn_skipn. exact Hnd.
    + rewrite (select_notes_in_literal w (firstn 100 ids) (first_slice i noteIds) Hfirst).
      apply NoDup_map_filter. exact Hw.
    + intros x Hx.
      apply (select_notes_in_ids w (firstn 100 ids) x (first_slice i noteIds) Hfirst) in Hx.
      tauto.
Qed.

(** The table the loop leaves depends on the engine it starts from through
    the table alone. *)
Lemma rebuild_loop_table (fuel : nat) (w : World) :
  forall noteIds e1 e1' e2,
    rebuild_loop fuel w noteIds e1 = Some e1' ->
    notes_normalized e2 = notes_normalized e1 ->
    exists e2', rebuild_loop fuel w noteIds e2 = Some e2'
                /\ notes_normalized e2' = notes_normalized e1'.
Proof.
  induction fuel as [|fuel IH]; intros noteIds e1 e1' e2 Hl Ht.
  - destruct noteIds; [|discriminate]. inversion Hl; subst. exists e2. auto.
  - destruct noteIds as [|i noteIds]; [inversion Hl; subst; exists e2; auto|].
    cbn [rebuild_loop] in *. eapply IH; [exact Hl|].
    unfold transactionExecBatch. simpl. rewrite Ht. reflexivity.
Qed.

Lemma rebuildIndex_table (w : World) (e1 e1' e2 : Engine) :
  rebuildIndex_ w e1 = Some e1' ->
  exists e2', rebuildIndex_ w e2 = Some e2'
              /\ notes_normalized e2' = notes_normalized e1'.
Proof.
  unfold rebuildIndex_, rebuildIndex_fuel. intros Hr.
  destruct (rebuild_loop _ _ _ (db_exec _ e1)) as [e1l|] eqn:Hl; [|discriminate].
  inversion Hr; subst; clear Hr.
  destruct (rebuild_loop_table _ _ _ _ _ (db_exec DeleteAllNormalized e2) Hl)
    as (e2l & Hl2 & Ht); [reflexivity|].
  rewrite Hl2. eexists; split; [reflexivity | exact Ht].
Qed.

(** C7: [rebuildIndex_] run a second time on unchanged tables leaves the
    engine, with its index table, exactly as the first run left it; and the
    table a run leaves is the same from whatever engine, with whatever rows
    in its table, the run starts. *)
Theorem rebuildIndex_idempotent (w : World) (e : Engine) :
  exists e1,
    rebuildIndex_ w e = Some e1
    /\ rebuildIndex_ w e1 = Some e1
    /\ (forall e2, exists e2',
          rebuildIndex_ w e2 = Some e2'
          /\ notes_normalized e2' = notes_normalized e1).
Proof.
  destruct (rebuildIndex_returns w e) as [e1 He1]. exists e1.
  split; [exact He1|]. split.
  - destruct (rebuildIndex_table w e e1 e1 He1) as (e2 & He2 & Ht).
    rewrite He2. f_equal.
    apply rebuildIndex_fields in He1. apply rebuildIndex_fields in He2.
    apply engine_eq; intuition congruence.
  - intros e2. exact (rebuildIndex_table w e e1 e2 He1).
Qed.

End Rebuild.

(** C6: on a table of two notes, neither a conflict nor encrypted, one of
    which has for id the name of the column [title], [rebuildIndex_]
    completes and indexes the other note alone: between double quotes the
    store reads that id as the column, and the row whose id it is has
    another title.  The ids indexed are not the ids of the notes whose two
    flags are 0. *)
Theorem rebuildIndex_misses_named_id :
  exists e',
    rebuildIndex_ (H := sample_host) world_named_id new_engine = Some e'
    /\ select_eligible_ids world_named_id = ["k"; "title"]
    /\ map n_id (notes_normalized e') = ["k"]
    /\ ~ (forall id,
            In id (map n_id (notes_normalized e')) <->
            exists n, In n (notes world_named_id) /\ note_id n = id
                      /\ is_conflict n = 0 /\ encryption_applied n = 0).
Proof.
  eexists. split; [vm_compute; reflexivity|]. split; [reflexivity|].
  split; [reflexivity|].
  intros Hcov.
  assert (Hin : In "title" ["k"]).
  { apply (Hcov "title").
    exists (sample_note "title" "Shopping" "Milk" 0 0). simpl. auto. }
  destruct Hin as [Hk|[]]. discriminate Hk.
Qed.

(** ** The scanning loop of the parser *)

Lemma obj_get_set_same {V} (o : JSObject V) (k : string) (v : V) :
  obj_get (obj_set o k v) k = Some v.
Proof.
  induction o as [|[k' v'] o IH]; simpl.
  - rewrite String.eqb_refl. reflexivity.
  - destruct (String.eqb_spec k' k) as [->|Hne]; simpl.
    + rewrite String.eqb_refl. reflexivity.
    + destruct (String.eqb_spec k' k); [contradiction | exact IH].
Qed.

Lemma obj_get_set_other {V} (o : JSObject V) (k k' : string) (v : V) :
  k' <> k -> obj_get (obj_set o k v) k' = obj_get o k'.
Proof.
  intros Hne. induction o as [|[k0 v0] o IH]; simpl.
  - destruct (String.eqb_spec k k'); [congruence | reflexivity].
  - destruct (String.eqb_spec k0 k) as [->|Hk]; simpl.
    + destruct (String.eqb_spec k k'); [congruence | reflexivity].
    + destruct (String.eqb_spec k0 k'); [reflexivity | exact IH].
Qed.

Lemma obj_get_set_defined {V} (o : JSObject V) (k k' : string) (v : V) :
  obj_get o k' <> None -> obj_get (obj_set o k v) k' <> None.
Proof.
  intros Hd. destruct (string_dec k' k) as [->|Hne].
  - rewrite obj_get_set_same. discriminate.
  - rewrite obj_get_set_other; assumption.
Qed.

Lemma push_term_defined (o : JSObject (list string)) (col term : string) :
  obj_get o col <> None ->
  exists l, obj_get o col = Some l /\ push_term o col term = inr (obj_set o col (l ++ [term])).
Proof.
  unfold push_term. destruct (obj_get o col) as [l|]; [|congruence].
  intros _. exists l. auto.
Qed.

Ltac push_defined st :=
  let l := fresh "l" in
  let Hl := fresh "Hl" in
  let Hp := fresh "Hp" in
  match goal with
  | Hc : obj_get (scan_terms st) (currentCol st) <> None |- _ =>
      destruct (push_term_defined (scan_terms st) (currentCol st) (currentTerm st) Hc)
        as (l & Hl & Hp); rewrite Hp
  end.

(** The scanning loop never reads a missing property. *)
Lemma scan_step_defined (st : Scan) (c : ascii) :
  columns_defined st ->
  exists st', scan_step st c = inr st' /\ columns_defined st'.
Proof.
  unfold columns_defined, scan_step. intros [Hd Hc].
  destruct (Ascii.eqb c quote_char).
  { destruct (inQuote st).
    - push_defined st. eexists; split; [reflexivity|]. simpl.
      split; apply obj_get_set_defined; assumption.
    - eexists; split; [reflexivity|]. simpl. auto. }
  destruct (Ascii.eqb c " " && negb (inQuote st)).
  { destruct (currentTerm st =? "")%string.
    - eexists; split; [reflexivity|]. auto.
    - push_defined st. eexists; split; [reflexivity|]. simpl.
      split; apply obj_get_set_defined; assumption. }
  destruct (Ascii.eqb c ":" && negb (inQuote st)).
  { eexists; split; [reflexivity|]. simpl. split.
    - apply obj_get_set_defined; assumption.
    - rewrite obj_get_set_same. discriminate. }
  eexists; split; [reflexivity|]. simpl. auto.
Qed.

Lemma scan_defined (query : string) :
  forall st, columns_defined st ->
    exists st', scan query st = inr st' /\ columns_defined st'.
Proof.
  induction query as [|c query IH]; intros st Hd; simpl.
  - exists st. auto.
  - destruct (scan_step_defined st c Hd) as (st1 & Hs & Hd1). rewrite Hs.
    apply IH. exact Hd1.
Qed.

Lemma scan_start_defined : columns_defined scan_start.
Proof. split; simpl; discriminate. Qed.

Lemma scan_reaches_defined (query : string) (st : Scan) :
  scan query scan_start = inr st -> columns_defined st.
Proof.
  intros Hs. destruct (scan_defined query scan_start scan_start_defined) as (st' & Hs' & Hd).
  congruence.
Qed.

Lemma scan_app (q1 q2 : string) :
  forall st, scan (q1 ++ q2)%string st
             = match scan q1 st with
               | inl err => inl err
               | inr st' => scan q2 st'
               end.
Proof.
  induction q1 as [|c q1 IH]; intros st; simpl; [reflexivity|].
  destruct (scan_step st c); [reflexivity | apply IH].
Qed.

Lemma obj_set_agree {V} (o1 o2 : JSObject V) (k col : string) (v : V) :
  obj_get o1 col = obj_get o2 col ->
  obj_get (obj_set o1 k v) col = obj_get (obj_set o2 k v) col.
Proof.
  intros Ha. destruct (string_dec col k) as [->|Hne].
  - rewrite !obj_get_set_same. reflexivity.
  - rewrite !obj_get_set_other; assumption.
Qed.

(** Pushing a term onto the same column of two objects that agree on [col]
    leaves them agreeing on [col]. *)
Lemma push_term_agree (o1 o2 o1' o2' : JSObject (list string)) (k col term : string) :
  obj_get o1 col = obj_get o2 col ->
  push_term o1 k term = inr o1' -> push_term o2 k term = inr o2' ->
  obj_get o1' col = obj_get o2' col.
Proof.
  unfold push_term. intros Ha H1 H2.
  destruct (obj_get o1 k) as [l1|] eqn:E1; [|discriminate].
  destruct (obj_get o2 k) as [l2|] eqn:E2; [|discriminate].
  inversion H1; inversion H2; subst.
  destruct (string_dec col k) as [->|Hne].
  - rewrite !obj_get_set_same. congruence.
  - rewrite !obj_get_set_other; assumption.
Qed.

Lemma scan_step_agree (col : string) (st1 st2 st1' st2' : Scan) (c : ascii) :
  agree_on col st1 st2 ->
  scan_step st1 c = inr st1' -> scan_step st2 c = inr st2' ->
  agree_on col st1' st2'.
Proof.
  unfold agree_on, scan_step. intros (Hq & Hc & Ht & Ha). rewrite <- Hq, <- Hc, <- Ht.
  destruct (Ascii.eqb c quote_char).
  { destruct (inQuote st1).
    - destruct (push_term (scan_terms st1) _ _) as [|o1] eqn:E1; [discriminate|].
      destruct (push_term (scan_terms st2) _ _) as [|o2] eqn:E2; [discriminate|].
      intros H1 H2; inversion H1; inversion H2; subst; simpl.
      repeat split; auto. eapply push_term_agree; eauto.
    - intros H1 H2; inversion H1; inversion H2; subst; simpl. auto. }
  destruct (Ascii.eqb c " " && negb (inQuote st1)).
  { destruct (currentTerm st1 =? "")%string.
    - intros H1 H2; inversion H1; inversion H2; subst. auto.
    - destruct (push_term (scan_terms st1) _ _) as [|o1] eqn:E1; [discriminate|].
      destruct (push_term (scan_terms st2) _ _) as [|o2] eqn:E2; [discriminate|].
      intros H1 H2; inversion H1; inversion H2; subst; simpl.
      repeat split; auto. eapply push_term_agree; eauto. }
  destruct (Ascii.eqb c ":" && negb (inQuote st1)).
  { intros H1 H2; inversion H1; inversion H2; subst; simpl.
    repeat split; auto. apply obj_set_agree. exact Ha. }
  intros H1 H2; inversion H1; inversion H2; subst; simpl. auto.
Qed.

Lemma scan_agree (col query : string) :
  forall st1 st2 st1' st2',
    agree_on col st1 st2 ->
    scan query st1 = inr st1' -> scan query st2 = inr st2' ->
    agree_on col st1' st2'.
Proof.
  induction query as [|c query IH]; intros st1 st2 st1' st2' Ha H1 H2; simpl in *.
  - inversion H1; inversion H2; subst. exact Ha.
  - destruct (scan_step st1 c) as [|s1] eqn:E1; [discriminate|].
    destruct (scan_step st2 c) as [|s2] eqn:E2; [discriminate|].
    eapply IH; [|exact H1|exact H2]. eapply scan_step_agree; eauto.
Qed.

(** An unquoted [:] makes the buffer the current column and empties the
    column of that name. *)
Lemma scan_colon (st : Scan) :
  inQuote st = false ->
  scan_step st ":" =
    inr {| scan_terms := obj_set (scan_terms st) (currentTerm st) [];
           inQuote := false; currentCol := currentTerm st; currentTerm := "" |}.
Proof.
  intros Hq. unfold scan_step. rewrite Hq. reflexivity.
Qed.

(** The flush of the last term keeps two scans in agreement on [col]. *)
Lemma flush_agree (col : string) (st1 st2 : Scan) :
  agree_on col st1 st2 -> columns_defined st1 -> columns_defined st2 ->
  exists o1 o2,
    (if (currentTerm st1 =? "")%string then inr (scan_terms st1)
     else push_term (scan_terms st1) (currentCol st1) (currentTerm st1)) = inr o1
    /\ (if (currentTerm st2 =? "")%string then inr (scan_terms st2)
        else push_term (scan_terms st2) (currentCol st2) (currentTerm st2)) = inr o2
    /\ obj_get o1 col = obj_get o2 col.
Proof.
  intros (Hq & Hc & Ht & Ha) [_ Hd1] [_ Hd2]. rewrite <- Ht, <- Hc in *.
  destruct (currentTerm st1 =? "")%string.
  - exists (scan_terms st1), (scan_terms st2). auto.
  - destruct (push_term_defined _ _ (currentTerm st1) Hd1) as (l1 & _ & Hp1).
    destruct (push_term_defined _ _ (currentTerm st1) Hd2) as (l2 & _ & Hp2).
    do 2 eexists. split; [exact Hp1|]. split; [exact Hp2|].
    eapply push_term_agree; eauto.
Qed.

(** ** Objects with distinct keys *)

Lemma obj_set_keys {V} (o : JSObject V) (k k' : string) (v : V) :
  In k' (map fst (obj_set o k v)) <-> k' = k \/ In k' (map fst o).
Proof.
  induction o as [|[k0 v0] o IH]; simpl.
  - intuition congruence.
  - destruct (String.eqb_spec k0 k) as [->|Hne]; simpl.
    + intuition congruence.
    + rewrite IH. intuition congruence.
Qed.

Lemma obj_set_NoDup {V} (o : JSObject V) (k : string) (v : V) :
  NoDup (map fst o) -> NoDup (map fst (obj_set o k v)).
Proof.
  induction o as [|[k0 v0] o IH]; simpl; intros Hnd.
  - repeat constructor. simpl; tauto.
  - inversion Hnd; subst.
    destruct (String.eqb_spec k0 k) as [->|Hne]; simpl.
    + constructor; assumption.
    + constructor; [|auto]. rewrite obj_set_keys. intuition congruence.
Qed.

Lemma obj_get_In {V} (o : JSObject V) (k : string) (v : V) :
  NoDup (map fst o) -> (obj_get o k = Some v <-> In (k, v) o).
Proof.
  induction o as [|[k0 v0] o IH]; simpl; intros Hnd.
  - split; [discriminate | tauto].
  - inversion Hnd; subst.
    destruct (String.eqb_spec k0 k) as [->|Hne].
    + split; [intros Hs; inversion Hs; auto|].
      intros [Heq|Hin]; [congruence|].
      exfalso. apply H1. apply in_map_iff. exists (k, v). auto.
    + rewrite (IH H2). intuition congruence.
Qed.

(** Two objects with distinct keys and the same properties answer every
    lookup alike. *)
Lemma obj_get_determined {V} (o : JSObject V) (k : string) (r : option V) :
  NoDup (map fst o) ->
  (forall v, In (k, v) o <-> r = Some v) -> obj_get o k = r.
Proof.
  intros Hnd Hr. destruct (obj_get o k) as [v|] eqn:Hg.
  - apply (obj_get_In o k v Hnd) in Hg. apply Hr in Hg. congruence.
  - destruct r as [v|]; [|reflexivity].
    assert (Hin : In (k, v) o) by (apply Hr; reflexivity).
    apply (obj_get_In o k v Hnd) in Hin. congruence.
Qed.

Lemma push_term_NoDup (o o' : JSObject (list string)) (col term : string) :
  NoDup (map fst o) -> push_term o col term = inr o' -> NoDup (map fst o').
Proof.
  unfold push_term. destruct (obj_get o col); [|discriminate].
  intros Hnd Hp. inversion Hp; subst. apply obj_set_NoDup. exact Hnd.
Qed.

Lemma scan_step_NoDup (st st' : Scan) (c : ascii) :
  NoDup (map fst (scan_terms st)) -> scan_step st c = inr st' ->
  NoDup (map fst (scan_terms st')).
Proof.
  unfold scan_step. intros Hnd.
  repeat match goal with
         | |- context [if ?b then _ else _] => destruct b
         | |- context [push_term ?o ?k ?t] =>
             let E := fresh "E" in
             destruct (push_term o k t) eqn:E; [discriminate|];
             apply push_term_NoDup in E; [|exact Hnd]
         end;
    intros Hs; inversion Hs; subst; simpl; auto using obj_set_NoDup.
Qed.

Lemma scan_NoDup (query : string) :
  forall st st', NoDup (map fst (scan_terms st)) -> scan query st = inr st' ->
                 NoDup (map fst (scan_terms st')).
Proof.
  induction query as [|c query IH]; intros st st' Hnd Hs; simpl in Hs.
  - inversion Hs; subst; exact Hnd.
  - destruct (scan_step st c) as [|s1] eqn:E; [discriminate|].
    eapply IH; [|exact Hs]. eapply scan_step_NoDup; eauto.
Qed.

Lemma scan_query_NoDup (query : string) (o : JSObject (list string)) :
  scan_query query = inr o -> NoDup (map fst o).
Proof.
  unfold scan_query. destruct (scan query scan_start) as [|st] eqn:Hs; [discriminate|].
  assert (Hnd : NoDup (map fst (scan_terms st))).
  { eapply scan_NoDup; [|exact Hs]. simpl. repeat constructor. simpl; tauto. }
  destruct (currentTerm st =? "")%string.
  - intros Ho; inversion Ho; subst; exact Hnd.
  - intros Ho. eapply push_term_NoDup; eauto.
Qed.

(** [for ... in] visits every own property once. *)
Lemma insert_index_perm {V} (n : N) (p : string * V) (l : list (N * (string * V))) :
  Permutation (map snd (insert_index n p l)) (p :: map snd l).
Proof.
  induction l as [|[m q] l IH]; simpl; [reflexivity|].
  destruct (n <=? m)%N; simpl; [reflexivity|].
  rewrite IH. apply perm_swap.
Qed.

Lemma enumeration_perm {V} (o : JSObject V) :
  Permutation (index_properties o ++ named_properties o) o.
Proof.
  unfold index_properties, named_properties.
  induction o as [|p o IH]; simpl; [reflexivity|].
  destruct (array_index (fst p)); simpl.
  - rewrite insert_index_perm. simpl. constructor. exact IH.
  - rewrite <- Permutation_middle. constructor. exact IH.
Qed.

Lemma own_properties_In {V} (o : JSObject V) (k : string) (v : V) :
  In (k, v) (own_properties o) <-> In (k, v) o /\ is_own_key k = true.
Proof.
  unfold own_properties. rewrite filter_In. simpl.
  split; intros [Hin Hk]; (split; [|exact Hk]).
  - eapply Permutation_in; [apply enumeration_perm | exact Hin].
  - eapply Permutation_in; [symmetry; apply enumeration_perm | exact Hin].
Qed.

Lemma own_properties_NoDup {V} (o : JSObject V) :
  NoDup (map fst o) -> NoDup (map fst (own_properties o)).
Proof.
  intros Hnd. unfold own_properties. apply NoDup_map_filter.
  eapply Permutation_NoDup; [|exact Hnd].
  apply Permutation_map. symmetry. apply enumeration_perm.
Qed.

Section ParserFacts.
Context `{Collaborators}.

(** The filter keeps the columns with at least one scanned term, in the
    order visited. *)
Lemma filter_columns_terms (cols : list (string * list string)) :
  forall termCount keys out,
    terms (filter_columns cols termCount keys out)
    = out ++ map (fun p => (fst p, filter_terms (snd p))) (filter kept_column cols).
Proof.
  induction cols as [|[col ts] cols IH]; intros termCount keys out; simpl.
  - rewrite app_nil_r. reflexivity.
  - destruct ts as [|t ts]; unfold kept_column at 1; simpl.
    + apply IH.
    + rewrite IH, <- app_assoc. reflexivity.
Qed.

(** A column of the parsed query is a function of the same column of the
    scanned object. *)
Lemma parsed_terms_column (o : JSObject (list string)) (col : string) :
  NoDup (map fst o) ->
  obj_get (terms (filter_columns (own_properties o) 0 [] [])) col = filtered_column o col.
Proof.
  intros Hnd. rewrite filter_columns_terms. simpl.
  pose proof (own_properties_NoDup o Hnd) as Hown.
  apply obj_get_determined.
  - rewrite map_map. simpl. apply NoDup_map_filter. exact Hown.
  - intros v. rewrite in_map_iff. unfold filtered_column. split.
    + intros ([k ts] & Heq & Hin). simpl in Heq. inversion Heq; subst; clear Heq.
      apply filter_In in Hin. destruct Hin as [Hin Hkept].
      apply own_properties_In in Hin. destruct Hin as [Hin Hk].
      rewrite Hk. apply (obj_get_In o col ts Hnd) in Hin. rewrite Hin.
      destruct ts; [discriminate | reflexivity].
    + destruct (is_own_key col) eqn:Hk; [|discriminate].
      destruct (obj_get o col) as [[|t ts]|] eqn:Hg; try discriminate.
      intros Hv; inversion Hv; subst; clear Hv.
      exists (col, t :: ts). split; [reflexivity|].
      apply filter_In. split; [|reflexivity].
      apply own_properties_In. split; [|exact Hk].
      apply (obj_get_In o col (t :: ts) Hnd). exact Hg.
Qed.

Lemma parseQuery_column (query : string) (p : ParsedQuery) (col : string) :
  parseQuery query = inr p ->
  exists o, scan_query query = inr o /\ obj_get (terms p) col = filtered_column o col.
Proof.
  unfold parseQuery. destruct (scan_query query) as [|o] eqn:Hs; [discriminate|].
  destruct (obj_get o "hasOwnProperty"); [discriminate|].
  intros Hp; inversion Hp; subst; clear Hp. exists o. split; [reflexivity|].
  apply parsed_terms_column. eapply scan_query_NoDup; eauto.
Qed.

(** C10: let two queries be cut at an unquoted [:] that follows the same
    buffered column name, and continue alike after it.  Scanning the [:]
    makes that name the current column and leaves its term list empty; the
    terms the scan ends with in that column are the same for both queries,
    whatever either had put there before; so are the terms [parseQuery]
    returns for the column; and on [title:foo title:bar] the result has one
    term, [bar], in column [title]. *)
Theorem colon_resets_column (q1 q2 rest : string) (st1 st2 : Scan) :
  scan q1 scan_start = inr st1 -> inQuote st1 = false ->
  scan q2 scan_start = inr st2 -> inQuote st2 = false ->
  currentTerm st2 = currentTerm st1 ->
  let col := currentTerm st1 in
  (exists st', scan (q1 ++ ":") scan_start = inr st'
               /\ currentCol st' = col
               /\ obj_get (scan_terms st') col = Some [])
  /\ scanned_column (q1 ++ ":" ++ rest) col = scanned_column (q2 ++ ":" ++ rest) col
  /\ (forall p1 p2,
        parseQuery (q1 ++ ":" ++ rest) = inr p1 ->
        parseQuery (q2 ++ ":" ++ rest) = inr p2 ->
        obj_get (terms p1) col = obj_get (terms p2) col)
  /\ parseQuery "title:foo title:bar"
     = inr {| termCount := 1;
              keys := ["title"];
              terms := [("title",
                         [{| term_type := text; term_value := "bar";
                             term_scriptType := scriptType "bar";
                             originalValue := "bar" |}])] |}.
Proof.
  intros Hs1 Hq1 Hs2 Hq2 Hbuf col.
  pose proof (scan_reaches_defined _ _ Hs1) as Hd1.
  pose proof (scan_reaches_defined _ _ Hs2) as Hd2.
  assert (Hscanned :
            scanned_column (q1 ++ ":" ++ rest) col = scanned_column (q2 ++ ":" ++ rest) col).
  { unfold scanned_column, scan_query.
    rewrite !scan_app, Hs1, Hs2. cbn [scan append].
    rewrite (scan_colon st1 Hq1), (scan_colon st2 Hq2), Hbuf.
    set (a1 := {| scan_terms := obj_set (scan_terms st1) _ _ |}).
    set (a2 := {| scan_terms := obj_set (scan_terms st2) _ _ |}).
    assert (Ha : agree_on col a1 a2).
    { unfold agree_on, a1, a2; simpl. repeat split; auto.
      unfold col. rewrite !obj_get_set_same. reflexivity. }
    assert (Hda1 : columns_defined a1).
    { split; simpl; [apply obj_get_set_defined; apply Hd1|].
      rewrite obj_get_set_same; discriminate. }
    assert (Hda2 : columns_defined a2).
    { split; simpl; [apply obj_get_set_defined; apply Hd2|].
      rewrite obj_get_set_same; discriminate. }
    destruct (scan_defined rest a1 Hda1) as (b1 & Hb1 & Hdb1).
    destruct (scan_defined rest a2 Hda2) as (b2 & Hb2 & Hdb2).
    rewrite Hb1, Hb2.
    pose proof (scan_agree col rest _ _ _ _ Ha Hb1 Hb2) as Hb.
    destruct (flush_agree col b1 b2 Hb Hdb1 Hdb2) as (o1 & o2 & Ho1 & Ho2 & Ho).
    rewrite Ho1, Ho2. exact Ho. }
  split; [|split; [exact Hscanned|split]].
  - rewrite scan_app, Hs1. cbn [scan]. rewrite (scan_colon st1 Hq1).
    eexists; split; [reflexivity|]. simpl. split; [reflexivity|].
    apply obj_get_set_same.
  - intros p1 p2 Hp1 Hp2.
    destruct (parseQuery_column _ _ col Hp1) as (o1 & Ho1 & ->).
    destruct (parseQuery_column _ _ col Hp2) as (o2 & Ho2 & ->).
    unfold scanned_column in Hscanned. rewrite Ho1, Ho2 in Hscanned.
    unfold filtered_column. rewrite Hscanned. reflexivity.
  - reflexivity.
Qed.

(** C4: [parseQuery] on [title:foo bar] returns a query of two terms:
    the text term [foo], alone in column [title], and the text term [bar],
    alone in the default column [_]. *)
Theorem parseQuery_title_foo_bar :
  parseQuery "title:foo bar"
  = inr {| termCount := 2;
           keys := ["_"; "title"];
           terms := [("_",
                      [{| term_type := text; term_value := "bar";
                          term_scriptType := scriptType "bar";
                          originalValue := "bar" |}]);
                     ("title",
                      [{| term_type := text; term_value := "foo";
                          term_scriptType := scriptType "foo";
                          originalValue := "foo" |}])] |}.
Proof. reflexivity. Qed.

End ParserFacts.

Lemma colon_resets_column_witness :
  scan "title:foo title" scan_start
  = inr {| scan_terms := [("_", []); ("title", ["foo"])];
           inQuote := false; currentCol := "_"; currentTerm := "title" |}
  /\ scan "title" scan_start
     = inr {| scan_terms := [("_", [])];
              inQuote := false; currentCol := "_"; currentTerm := "title" |}
  /\ scanned_column "title:foo title:bar" "title" = scanned_column "title:bar" "title".
Proof.
  split; [reflexivity|]. split; [reflexivity|].
  apply (colon_resets_column (H := sample_host) "title:foo title" "title" "bar"
           {| scan_terms := [("_", []); ("title", ["foo"])];
              inQuote := false; currentCol := "_"; currentTerm := "title" |}
           {| scan_terms := [("_", [])];
              inQuote := false; currentCol := "_"; currentTerm := "title" |});
    reflexivity.
Defined.

(** ** The order of binary64 numbers *)

Ltac sf_cases :=
  intros;
  repeat match goal with
         | b : bool |- _ => destruct b
         end;
  simpl in *; try congruence;
  repeat match goal with
         | H : context [Pos.compare_cont Eq ?a ?b] |- _ =>
             change (Pos.compare_cont Eq a b) with (Pos.compare a b) in H
         | |- context [Pos.compare_cont Eq ?a ?b] =>
             change (Pos.compare_cont Eq a b) with (Pos.compare a b)
         end;
  repeat match goal with
         | H : context [Z.compare ?a ?b] |- _ =>
             destruct (Z.compare_spec a b); simpl in H; try congruence
         | |- context [Z.compare ?a ?b] =>
             destruct (Z.compare_spec a b); simpl; try congruence
         | H : context [Pos.compare ?a ?b] |- _ =>
             destruct (Pos.compare_spec a b); simpl in H; try congruence
         | |- context [Pos.compare ?a ?b] =>
             destruct (Pos.compare_spec a b); simpl; try congruence
         end;
  try lia.

Lemma SFltb_asym (a b : spec_float) : SFltb a b = true -> SFltb b a = false.
Proof.
  unfold SFltb. destruct a, b; simpl; try congruence; sf_cases.
Qed.

Lemma SFltb_false_trans (a b c : spec_float) :
  a <> S754_nan -> b <> S754_nan -> c <> S754_nan ->
  SFltb a b = false -> SFltb b c = false -> SFltb a c = false.
Proof.
  unfold SFltb. destruct a, b, c; simpl; try congruence; intros _ _ _; sf_cases.
Qed.

Lemma is_number_spec (x : float) : is_number x = true -> Prim2SF x <> S754_nan.
Proof.
  unfold is_number, PrimFloat.is_nan. rewrite negb_involutive, FloatAxioms.eqb_spec.
  intros Hn Hx. rewrite Hx in Hn. discriminate.
Qed.

Lemma ltb_asym (x y : float) : (x <? y)%float = true -> (y <? x)%float = false.
Proof. rewrite !FloatAxioms.ltb_spec. apply SFltb_asym. Qed.

Lemma ltb_false_trans (x y z : float) :
  is_number x = true -> is_number y = true -> is_number z = true ->
  (x <? y)%float = false -> (y <? z)%float = false -> (x <? z)%float = false.
Proof.
  rewrite !FloatAxioms.ltb_spec. intros Hx Hy Hz.
  apply SFltb_false_trans; apply is_number_spec; assumption.
Qed.

(** ** The weight of a row *)

Lemma occurrences_length_lt (n : nat) :
  forall offsets, (List.length offsets < n)%nat ->
    List.length (occurrences offsets) = (List.length offsets / 4)%nat.
Proof.
  induction n as [|n IH]; intros offsets Hn; [lia|].
  destruct offsets as [|a [|b [|c [|d rest]]]]; try reflexivity.
  cbn [occurrences List.length] in *. rewrite IH by lia.
  replace (S (S (S (S (List.length rest))))) with (List.length rest + 1 * 4)%nat by lia.
  rewrite Nat.div_add by lia. lia.
Qed.

Lemma occurrences_count (offsets : list float) :
  occurenceCount offsets = Z.of_nat (List.length (occurrences offsets)).
Proof.
  unfold occurenceCount.
  rewrite (occurrences_length_lt (S (List.length offsets))) by lia.
  rewrite Nat2Z.inj_div. reflexivity.
Qed.

(** The loop of [calculateWeight_] adds up the successive differences of
    the positions, in the order of the offsets. *)
Lemma spread_loop_spec (n : nat) :
  forall rest pre i spread previousDist,
    (List.length rest < n)%nat ->
    List.length pre = (i * 4)%nat ->
    spread_loop (List.length (occurrences rest)) i (pre ++ rest) spread previousDist
    = fold_left PrimFloat.add
        (successive_differences
           (with_previous previousDist (map position (occurrences rest))))
        spread.
Proof.
  induction n as [|n IH]; intros rest pre i spread previousDist Hn Hpre; [lia|].
  destruct rest as [|a [|b [|c [|d rest]]]];
    try (destruct previousDist; reflexivity).
  cbn [occurrences List.length map position spread_loop].
  assert (Hnth : nth (i * 4 + 2) (pre ++ a :: b :: c :: d :: rest) nan = c).
  { rewrite app_nth2 by lia.
    replace (i * 4 + 2 - List.length pre)%nat with 2%nat by lia. reflexivity. }
  rewrite Hnth.
  replace (pre ++ a :: b :: c :: d :: rest) with ((pre ++ [a; b; c; d]) ++ rest)
    by (rewrite <- app_assoc; reflexivity).
  rewrite IH.
  - destruct previousDist; reflexivity.
  - simpl in Hn. lia.
  - rewrite length_app. simpl. lia.
Qed.

Lemma calculateWeight_spec (offsets : list float) (termCount : Z) :
  let count := Z.of_nat (List.length (occurrences offsets)) in
  occurenceCount offsets = count
  /\ (termCount = 1 -> calculateWeight_ offsets termCount = number_of_Z count)
  /\ (termCount <> 1 ->
      calculateWeight_ offsets termCount
      = (number_of_Z count / spec_spread (map position (occurrences offsets)))%float).
Proof.
  intros count. pose proof (occurrences_count offsets) as Hcount. fold count in Hcount.
  split; [exact Hcount|]. unfold calculateWeight_. rewrite Hcount. split.
  - intros ->. reflexivity.
  - intros Hne. destruct (Z.eqb_spec termCount 1) as [|_]; [contradiction|].
    unfold count. rewrite Nat2Z.id.
    pose proof (spread_loop_spec (S (List.length offsets)) offsets [] 0 0%float None) as Hs.
    cbn [app] in Hs. rewrite Hs by (simpl; lia).
    reflexivity.
Qed.

(** ** Sorting by weight *)

Lemma sort_insert_perm {A} (cmp : A -> A -> Z) (x : A) (l : list A) :
  Permutation (sort_insert cmp x l) (x :: l).
Proof.
  induction l as [|y l IH]; simpl; [reflexivity|].
  destruct (0 <? cmp x y); [|reflexivity].
  rewrite IH. apply perm_swap.
Qed.

Lemma Array_sort_perm {A} (cmp : A -> A -> Z) (l : list A) :
  Permutation (Array_sort cmp l) l.
Proof.
  induction l as [|x l IH]; simpl; [reflexivity|].
  rewrite sort_insert_perm. constructor. exact IH.
Qed.

Lemma compare_weight_after (a b : float) :
  (0 <? compare_weight a b) = (a <? b)%float.
Proof.
  unfold compare_weight. destruct (a <? b)%float; [reflexivity|].
  destruct (b <? a)%float; reflexivity.
Qed.

Lemma sort_insert_sorted (x : Row) (l : list Row) :
  is_number (weight_of x) = true ->
  Forall (fun r => is_number (weight_of r) = true) l ->
  StronglySorted weight_ge l ->
  StronglySorted weight_ge (sort_insert by_weight x l).
Proof.
  intros Hx Hl Hs. induction Hs as [|y l Hs IH Hy]; simpl.
  - repeat constructor.
  - inversion Hl as [|? ? Hny Hnl]; subst.
    unfold by_weight at 1. rewrite compare_weight_after.
    destruct (weight_of x <? weight_of y)%float eqn:Hlt.
    + constructor; [exact (IH Hnl)|].
      apply Forall_forall. intros z Hz.
      apply (Permutation_in _ (sort_insert_perm by_weight x l)) in Hz.
      destruct Hz as [<-|Hz].
      * apply ltb_asym. exact Hlt.
      * rewrite Forall_forall in Hy. auto.
    + constructor; [constructor; assumption|].
      constructor; [exact Hlt|].
      rewrite Forall_forall in *. intros z Hz.
      apply (ltb_false_trans _ (weight_of y)); auto.
      apply Hy. exact Hz.
Qed.

Lemma Array_sort_sorted (l : list Row) :
  Forall (fun r => is_number (weight_of r) = true) l ->
  StronglySorted weight_ge (Array_sort by_weight l).
Proof.
  induction 1 as [|x l Hx Hl IH]; simpl; [constructor|].
  apply sort_insert_sorted; auto.
  apply Forall_forall. intros z Hz.
  apply (Permutation_in _ (Array_sort_perm by_weight l)) in Hz.
  rewrite Forall_forall in Hl. auto.
Qed.

Section RankerFacts.
Context `{Collaborators}.

Lemma weighed_weights (rows : list Row) (parsedQuery : ParsedQuery) :
  map weight_of (weighed rows parsedQuery)
  = map (fun row => calculateWeight_ (row_numbers row) (termCount parsedQuery)) rows.
Proof.
  unfold weighed. rewrite map_map. reflexivity.
Qed.

(** C3: the weight of a row is its number of occurrences, the groups of
    four of its offsets, when the query has one term; otherwise it is that
    number divided by the spread, the sum in reported order of the
    differences between the positions (third of the four) of successive
    occurrences.  [orderResults_] gives every row this weight and returns
    the same rows, in descending order of weight when every weight is a
    number. *)
Theorem weight_and_order (rows : list Row) (parsedQuery : ParsedQuery) :
  (forall offsets termCount,
      let count := Z.of_nat (List.length (occurrences offsets)) in
      occurenceCount offsets = count
      /\ (termCount = 1 -> calculateWeight_ offsets termCount = number_of_Z count)
      /\ (termCount <> 1 ->
          calculateWeight_ offsets termCount
          = (number_of_Z count / spec_spread (map position (occurrences offsets)))%float))
  /\ map weight_of (weighed rows parsedQuery)
     = map (fun row => calculateWeight_ (row_numbers row) (termCount parsedQuery)) rows
  /\ Permutation (orderResults_ rows parsedQuery) (weighed rows parsedQuery)
  /\ (Forall (fun r => is_number (weight_of r) = true) (weighed rows parsedQuery) ->
      StronglySorted weight_ge (orderResults_ rows parsedQuery)).
Proof.
  split; [exact calculateWeight_spec|].
  split; [apply weighed_weights|].
  unfold orderResults_. fold (weighed rows parsedQuery). split.
  - apply Array_sort_perm.
  - apply Array_sort_sorted.
Qed.

End RankerFacts.

Lemma weight_and_order_witness :
  Forall (fun r => is_number (weight_of r) = true)
    (weighed (H := sample_host) rows_sample two_terms)
  /\ map row_id (orderResults_ (H := sample_host) rows_sample two_terms) = ["c"; "b"; "a"]
  /\ StronglySorted weight_ge (orderResults_ (H := sample_host) rows_sample two_terms).
Proof.
  assert (Hnum : Forall (fun r => is_number (weight_of r) = true)
                   (weighed (H := sample_host) rows_sample two_terms)).
  { repeat (constructor; [vm_compute; reflexivity|]). constructor. }
  split; [exact Hnum|]. split; [vm_compute; reflexivity|].
  apply (weight_and_order (H := sample_host) rows_sample two_terms). exact Hnum.
Defined.

(** ** Search *)

Lemma white_space_cases (ws : string) :
  In ws white_space ->
  ws <> EmptyString
  /\ (forall rest, trim_start (ws ++ rest) = trim_start rest)
  /\ (ws = " "
      \/ forall rest,
           split_on " " (ws ++ rest)
           = match split_on " " rest with
             | [] => [ws]
             | p :: ps => (ws ++ p)%string :: ps
             end).
Proof.
  intros Hin. cbv in Hin.
  repeat (destruct Hin as [<-|Hin];
          [split; [discriminate|];
           split; [intros rest; reflexivity|];
           first [left; reflexivity
                 | right; intros rest; cbn; destruct (split_on " " rest); reflexivity]|]).
  contradiction.
Qed.

Lemma white_space_width_zero (s : string) :
  white_space_width s = 0%nat <->
  forall ws, In ws white_space -> starts_with ws s = false.
Proof.
  unfold white_space_width.
  destruct (find (fun p => starts_with p s) white_space) as [p|] eqn:Hf.
  - apply find_some in Hf. destruct Hf as [Hin Hp]. split.
    + intros Hlen. destruct (white_space_cases p Hin) as [Hne _].
      destruct p; [congruence | discriminate].
    + intros Hnone. rewrite (Hnone p Hin) in Hp. discriminate.
  - split; [|reflexivity]. intros _ ws Hin. exact (find_none _ _ Hf ws Hin).
Qed.

Lemma starts_with_trans (p q s : string) :
  starts_with p q = true -> starts_with q s = true -> starts_with p s = true.
Proof.
  revert q s. induction p as [|a p IH]; intros q s; [reflexivity|].
  destruct q as [|b q]; [discriminate|]. destruct s as [|c s]; [discriminate|].
  simpl. rewrite !andb_true_iff. intros [Hab Hp] [Hbc Hq].
  apply Ascii.eqb_eq in Hab, Hbc. subst. rewrite Ascii.eqb_refl. eauto.
Qed.

Lemma starts_with_app (p s : string) :
  starts_with p s = true -> exists rest, s = (p ++ rest)%string.
Proof.
  revert s. induction p as [|a p IH]; intros s; [exists s; reflexivity|].
  destruct s as [|c s]; [discriminate|]. simpl. rewrite andb_true_iff.
  intros [Hac Hp]. apply Ascii.eqb_eq in Hac. subst.
  destruct (IH s Hp) as [rest ->]. exists rest. reflexivity.
Qed.

Lemma split_on_head (sep : ascii) (s p : string) (ps : list string) :
  split_on sep s = p :: ps -> starts_with p s = true.
Proof.
  revert p ps. induction s as [|c s IH]; intros p ps; simpl.
  - intros Hs; inversion Hs; reflexivity.
  - destruct (Ascii.eqb c sep); [intros Hs; inversion Hs; reflexivity|].
    destruct (split_on sep s) as [|q qs]; intros Hs; inversion Hs; subst; simpl;
      rewrite Ascii.eqb_refl; [reflexivity|]. eapply IH; reflexivity.
Qed.

(** A text that begins with no white space keeps that when it is cut
    short. *)
Lemma white_space_width_prefix (q s : string) :
  starts_with q s = true -> white_space_width s = 0%nat -> white_space_width q = 0%nat.
Proof.
  rewrite !white_space_width_zero. intros Hq Hs ws Hin.
  destruct (starts_with ws q) eqn:Hws; [|reflexivity].
  rewrite <- (Hs ws Hin). symmetry. eapply starts_with_trans; eauto.
Qed.

Lemma trim_start_clean (c : ascii) (s : string) :
  white_space_width (String c s) = 0%nat -> trim_start (String c s) = String c s.
Proof.
  intros Hw. unfold trim_start. cbn [trim_start_from]. rewrite Hw. reflexivity.
Qed.

Lemma trim_end_clean (s : string) : no_white_space s = true -> trim_end s = s.
Proof.
  induction s as [|c s IH]; [reflexivity|]. cbn [no_white_space trim_end].
  intros Hc. apply andb_true_iff in Hc. destruct Hc as [Hc Hs].
  apply Nat.eqb_eq in Hc. unfold all_white_space.
  rewrite (trim_start_clean c s Hc), (IH Hs). reflexivity.
Qed.

Lemma trim_clean (s : string) : no_white_space s = true -> trim s = s.
Proof.
  intros Hs. unfold trim.
  assert (Hstart : trim_start s = s).
  { destruct s as [|c s]; [reflexivity|]. cbn [no_white_space] in Hs.
    apply andb_true_iff in Hs. destruct Hs as [Hc _].
    apply Nat.eqb_eq in Hc. exact (trim_start_clean c s Hc). }
  rewrite Hstart. apply trim_end_clean. exact Hs.
Qed.

(** Where space is the only white space, the pieces between spaces are the
    runs between white space. *)
Lemma split_on_space_spec (s : string) :
  only_spaces s = true ->
  exists p ps,
    split_on " " s = p :: ps
    /\ no_white_space p = true
    /\ spec_split s = (p, filter (fun t => negb (t =? "")%string) (map trim ps)).
Proof.
  unfold spec_split. induction s as [|c s IH].
  - intros _. exists EmptyString, []. auto.
  - cbn [only_spaces]. intros Hs. apply andb_true_iff in Hs. destruct Hs as [Hc Hs].
    destruct (IH Hs) as (p & ps & Hsplit & Hp & Hspec).
    cbn [split_on spec_split_from]. rewrite Hsplit.
    destruct (Ascii.eqb_spec c " ") as [->|Hne].
    + change (white_space_width (String " " s)) with 1%nat. cbv iota. rewrite Hspec.
      exists EmptyString, (p :: ps). split; [reflexivity|]. split; [reflexivity|].
      simpl. rewrite (trim_clean p Hp). destruct (p =? "")%string; reflexivity.
    + rewrite orb_false_r in Hc. apply Nat.eqb_eq in Hc. rewrite Hc, Hspec.
      exists (String c p), ps. split; [reflexivity|]. split; [|reflexivity].
      cbn [no_white_space]. rewrite Hp, andb_true_r. apply Nat.eqb_eq.
      apply (white_space_width_prefix (String c p) (String c s)); [|exact Hc].
      simpl. rewrite Ascii.eqb_refl. exact (split_on_head _ _ _ _ Hsplit).
Qed.

Lemma anywherePattern_spec (s : string) :
  only_spaces s = true -> anywherePattern s = spec_anywherePattern s.
Proof.
  intros Hs. unfold anywherePattern, spec_anywherePattern, spec_tokens.
  destruct (split_on_space_spec s Hs) as (p & ps & Hsplit & Hp & Hspec).
  rewrite Hsplit, Hspec. simpl. rewrite (trim_clean p Hp).
  destruct (p =? "")%string; reflexivity.
Qed.

Section SearchFacts.
Context `{Collaborators}.

(** C2, as the code has it: a query routed to the fallback search is
    normalized first; the normalized text is split on spaces, each piece is
    trimmed, and the pieces left non-empty are joined with a wildcard
    between and around them; [Note.previews] is called on that pattern,
    nothing else is called, and its result is returned.  Where space is the
    only white space of the normalized text, the pieces are its tokens
    between white space. *)
Theorem fallback_search_pattern (env : SearchEnv) (query : string) :
  uses_basicSearch env query = true ->
  let normalized := normalizeText_ query in
  let pattern :=
    ("*" ++ join "*"
              (filter (fun t => negb (t =? "")%string)
                 (map trim (split_on " " normalized))) ++ "*")%string in
  search env query = ([CallPreviews pattern], inr (Previews (Note_previews env pattern)))
  /\ (only_spaces normalized = true -> pattern = spec_anywherePattern normalized).
Proof.
  intros Hroute normalized pattern. split.
  - unfold uses_basicSearch in Hroute. unfold search. rewrite Hroute. reflexivity.
  - exact (anywherePattern_spec normalized).
Qed.

(** C9: on the indexed path, once the query is parsed, a [MATCH] query
    that fails makes [search] log one warning, naming the query and the
    error, and return no rows: nothing is thrown and [Note.previews] is not
    called. *)
Theorem match_failure_gives_no_rows
  (env : SearchEnv) (query message : string) (parsedQuery : ParsedQuery) :
  uses_basicSearch env query = false ->
  parseQuery (normalizeText_ query) = inr parsedQuery ->
  selectAll_match env (normalizeText_ query) = inl message ->
  search env query
  = ([CallSelectAll match_sql (normalizeText_ query);
      LogWarn ("Cannot execute MATCH query: " ++ normalizeText_ query ++ ": " ++ message)%string],
     inr (Rows [])).
Proof.
  unfold uses_basicSearch, search. intros Hroute Hparse Hmatch.
  rewrite Hroute, Hparse, Hmatch. reflexivity.
Qed.

End SearchFacts.

(** C2, as the spec words it, fails: with indexed search disabled, the
    query [A] is routed to the fallback search, which asks for the previews
    of the pattern made from the normalized text [a], not from the text as
    given; and a query with a TAB between two letters is not split there. *)
Lemma fallback_pattern_from_raw_query_fails :
  uses_basicSearch (H := sample_host) env_fts_off "A" = true
  /\ search (H := sample_host) env_fts_off "A"
     = ([CallPreviews "*a*"], inr (Previews []))
  /\ search (H := sample_host) env_fts_off "A"
     <> ([CallPreviews (spec_anywherePattern "A")],
         inr (Previews (Note_previews env_fts_off (spec_anywherePattern "A"))))
  /\ search (H := sample_host) env_fts_off query_with_tab
     = ([CallPreviews ("*" ++ query_with_tab ++ "*")%string], inr (Previews []))
  /\ spec_anywherePattern query_with_tab = "*a*b*".
Proof.
  split; [reflexivity|]. split; [reflexivity|].
  split; [|split; reflexivity].
  vm_compute. intros Heq. discriminate Heq.
Qed.

Lemma fallback_search_pattern_witness :
  uses_basicSearch (H := sample_host) env_fts_off query_to_trim = true
  /\ search (H := sample_host) env_fts_off query_to_trim
     = ([CallPreviews ("*hello*world*" ++ katakana_word ++ "*")%string], inr (Previews []))
  /\ ftsEnabled env_match_fails = true
  /\ uses_basicSearch (H := sample_host_ja) env_match_fails query_to_trim = true
  /\ fst (search (H := sample_host_ja) env_match_fails query_to_trim)
     = [CallPreviews ("*hello*world*" ++ katakana_word ++ "*")%string].
Proof.
  split; [reflexivity|].
  split.
  { apply (fallback_search_pattern (H := sample_host) env_fts_off query_to_trim).
    reflexivity. }
  split; [reflexivity|]. split; [reflexivity|].
  rewrite (proj1 (fallback_search_pattern (H := sample_host_ja) env_match_fails
                    query_to_trim eq_refl)).
  reflexivity.
Defined.

Lemma match_failure_gives_no_rows_witness :
  uses_basicSearch (H := sample_host) env_match_fails "Foo bar" = false
  /\ search (H := sample_host) env_match_fails "Foo bar"
     = ([CallSelectAll match_sql "foo bar";
         LogWarn "Cannot execute MATCH query: foo bar: malformed MATCH expression"],
        inr (Rows [])).
Proof.
  split; [reflexivity|].
  destruct (parseQuery (H := sample_host) "foo bar") as [err|parsed] eqn:Hparse;
    [vm_compute in Hparse; discriminate Hparse|].
  apply (match_failure_gives_no_rows (H := sample_host) env_match_fails "Foo bar"
           "malformed MATCH expression" parsed); [reflexivity | exact Hparse | reflexivity].
Defined.

(** * Further properties of the synchronizer *)

(** X1: [noteById_] answers with the first note of the array that has the
    id, and with [null] exactly when no note has it. *)
Theorem noteById_lookup (notes : list Note) (noteId : string) :
  (forall n, noteById_ notes noteId = Some n ->
     exists before after,
       notes = before ++ n :: after
       /\ note_id n = noteId
       /\ ~ In noteId (map note_id before))
  /\ (noteById_ notes noteId = None <-> ~ In noteId (map note_id notes)).
Proof.
  induction notes as [|m notes [IHsome IHnone]]; simpl.
  - split; [discriminate|]. tauto.
  - destruct (String.eqb_spec (note_id m) noteId) as [Heq|Hne]; split.
    + intros n Hn. inversion Hn; subst. exists [], notes. simpl. tauto.
    + split; [discriminate|]. intros Hn. exfalso. apply Hn. left; exact Heq.
    + intros n Hn. destruct (IHsome n Hn) as (before & after & -> & Hid & Hfresh).
      exists (m :: before), after. simpl. intuition.
    + rewrite IHnone. tauto.
Qed.

Lemma noteById_found (notes : list Note) (noteId : string) (n : Note) :
  noteById_ notes noteId = Some n -> In n notes /\ note_id n = noteId.
Proof.
  induction notes as [|m notes IH]; simpl; [discriminate|].
  destruct (String.eqb_spec (note_id m) noteId) as [Heq|Hne].
  - intros Hn; inversion Hn; subst. auto.
  - intros Hn. apply IH in Hn. tauto.
Qed.

Lemma insert_by_id_perm (c : ItemChange) (l : list ItemChange) :
  Permutation (insert_by_id c l) (c :: l).
Proof.
  induction l as [|d l IH]; simpl; [reflexivity|].
  destruct (change_id c <=? change_id d); [reflexivity|].
  rewrite IH. apply perm_swap.
Qed.

Lemma order_by_id_perm (l : list ItemChange) : Permutation (order_by_id l) l.
Proof.
  induction l as [|c l IH]; simpl; [reflexivity|].
  rewrite insert_by_id_perm. constructor. exact IH.
Qed.

Lemma sorted_app_ordered {A} (R : A -> A -> Prop) (a b : list A) :
  StronglySorted R (a ++ b) -> forall x y, In x a -> In y b -> R x y.
Proof.
  induction a as [|h a IH]; simpl; intros Hs x y Hx Hy; [tauto|].
  inversion Hs as [|? ? Hrest Hall]; subst.
  destruct Hx as [<-|Hx].
  - rewrite Forall_forall in Hall. apply Hall. apply in_or_app. right; exact Hy.
  - exact (IH Hrest x y Hx Hy).
Qed.

Section SynchronizerMore.
Context `{Collaborators}.

(** X2: the changes one turn of the loop fetches are at most 100, and are
    the note changes above the watermark with the smallest ids: what is left
    of those changes has ids no smaller, and nothing is left when they are
    100 or fewer. *)
Theorem select_changes_batch (w : World) (id : Z) :
  (List.length (select_changes w id) <= 100)%nat
  /\ exists rest,
       Permutation (select_changes w id ++ rest) (pending_changes w id)
       /\ (forall c d, In c (select_changes w id) -> In d rest ->
                       change_id c <= change_id d)
       /\ ((List.length (pending_changes w id) <= 100)%nat -> rest = []).
Proof.
  unfold select_changes. fold (pending_changes w id).
  set (sorted := order_by_id (pending_changes w id)).
  split; [apply firstn_le_length|].
  exists (skipn 100 sorted). split; [|split].
  - rewrite firstn_skipn. apply order_by_id_perm.
  - apply (sorted_app_ordered id_le). rewrite firstn_skipn. apply order_by_id_sorted.
  - intros Hlen. apply skipn_all2.
    unfold sorted. rewrite (Permutation_length (order_by_id_perm _)). exact Hlen.
Qed.

Lemma rows_after_delete (k j : string) (t : list NormalizedRow) :
  rows_with_id k (exec (DeleteNormalized j) t)
  = if (j =? k)%string then [] else rows_with_id k t.
Proof.
  unfold rows_with_id. simpl. induction t as [|r t IH]; simpl.
  - destruct (j =? k)%string; reflexivity.
  - destruct (String.eqb_spec (n_id r) j) as [Hj|Hj]; simpl.
    + rewrite IH. destruct (String.eqb_spec j k) as [Hk|Hk]; [reflexivity|].
      destruct (String.eqb_spec (n_id r) k); [congruence | reflexivity].
    + destruct (String.eqb_spec (n_id r) k) as [Hk|Hk]; simpl; rewrite IH.
      * destruct (String.eqb_spec j k); [congruence | reflexivity].
      * reflexivity.
Qed.

Lemma rows_after_insert (k j title body : string) (t : list NormalizedRow) :
  rows_with_id k (exec (InsertNormalized j title body) t)
  = rows_with_id k t
    ++ (if (j =? k)%string
        then [{| n_id := j; n_title := title; n_body := body |}] else []).
Proof.
  unfold rows_with_id. simpl. rewrite filter_app. simpl. reflexivity.
Qed.

(** The [for] loop gathers, change after change, the statements of each. *)
Lemma changes_queries_statements (notes : list Note) (changes : list ItemChange) :
  forall queries id queries' id',
    changes_queries notes changes queries id = inr (queries', id') ->
    queries' = queries ++ flat_map (change_statements notes) changes.
Proof.
  induction changes as [|c rest IH]; intros queries id queries' id' Hq; simpl in Hq.
  - inversion Hq; subst. simpl. rewrite app_nil_r. reflexivity.
  - simpl. unfold change_statements at 1. unfold is_upsert.
    destruct ((change_type c =? TYPE_CREATE) || (change_type c =? TYPE_UPDATE)).
    + apply IH in Hq. rewrite Hq.
      destruct (noteById_ notes (item_id c)); simpl; rewrite <- ?app_assoc; reflexivity.
    + destruct (change_type c =? TYPE_DELETE); [|discriminate].
      apply IH in Hq. rewrite Hq. simpl. rewrite <- app_assoc. reflexivity.
Qed.

Lemma change_statements_rows (notes : list Note) (c : ItemChange) (k : string)
  (t : list NormalizedRow) :
  rows_with_id k (fold_left (fun t q => exec q t) (change_statements notes c) t)
  = if (item_id c =? k)%string then
      if is_upsert c then
        match noteById_ notes k with
        | Some n => [normalized_row n]
        | None => []
        end
      else []
    else rows_with_id k t.
Proof.
  unfold change_statements.
  destruct (String.eqb_spec (item_id c) k) as [Hk|Hk].
  - subst k. destruct (is_upsert c).
    + destruct (noteById_ notes (item_id c)) as [n|] eqn:Hn; cbn [fold_left].
      * rewrite rows_after_insert, rows_after_delete, !String.eqb_refl. simpl.
        apply noteById_found in Hn. destruct Hn as [_ Hid].
        unfold normalized_row. rewrite Hid. reflexivity.
      * rewrite rows_after_delete, String.eqb_refl. reflexivity.
    + cbn [fold_left]. rewrite rows_after_delete, String.eqb_refl. reflexivity.
  - assert (Hdel : forall t', rows_with_id k (exec (DeleteNormalized (item_id c)) t')
                            = rows_with_id k t').
    { intros t'. rewrite rows_after_delete.
      destruct (String.eqb_spec (item_id c) k); [contradiction | reflexivity]. }
    destruct (is_upsert c); [destruct (noteById_ notes (item_id c))|]; cbn [fold_left];
      rewrite ?rows_after_insert, Hdel;
      try (destruct (String.eqb_spec (item_id c) k); [contradiction|]);
      rewrite ?app_nil_r; reflexivity.
Qed.

Lemma batch_rows (notes : list Note) (changes : list ItemChange) (k : string) :
  forall t,
    rows_with_id k (fold_left (fun t q => exec q t)
                      (flat_map (change_statements notes) changes) t)
    = match last_change_for k changes with
      | None => rows_with_id k t
      | Some c =>
          if is_upsert c then
            match noteById_ notes k with
            | Some n => [normalized_row n]
            | None => []
            end
          else []
      end.
Proof.
  induction changes as [|c changes IH] using rev_ind; intros t; [reflexivity|].
  rewrite flat_map_app, fold_left_app. cbn [flat_map]. rewrite app_nil_r.
  rewrite change_statements_rows. unfold last_change_for.
  rewrite rev_app_distr. cbn [rev app find].
  destruct (item_id c =? k)%string; [reflexivity|].
  apply IH.
Qed.

Lemma existsb_eqb_In (k : string) (ids : list string) :
  existsb (String.eqb k) ids = true <-> In k ids.
Proof.
  rewrite existsb_exists. split.
  - intros (i & Hi & Heq). apply String.eqb_eq in Heq. congruence.
  - intros Hin. exists k. split; [exact Hin | apply String.eqb_refl].
Qed.

(** Among the notes read for a batch, the note of an id of the batch is the
    eligible note of that id. *)
Lemma noteById_select_notes_in (w : World) (ids : list string) (k : string) :
  forallb (is_literal w) ids = true ->
  In k ids -> noteById_ (select_notes_in w ids) k = eligible_note w k.
Proof.
  intros Hl Hk.
  rewrite (select_notes_in_literal w ids); [|intros ->; contradiction | exact Hl].
  unfold eligible_note.
  induction (notes w) as [|n ns IH]; simpl; [reflexivity|].
  destruct (eligible n); rewrite ?andb_true_r, ?andb_false_r; simpl.
  - destruct (existsb (String.eqb (note_id n)) ids) eqn:Hex; simpl.
    + rewrite IH. reflexivity.
    + destruct (String.eqb_spec (note_id n) k) as [Heq|Hne]; [|exact IH].
      exfalso. subst k. apply existsb_eqb_In in Hk. congruence.
  - exact IH.
Qed.

Lemma last_change_for_In (k : string) (changes : list ItemChange) (c : ItemChange) :
  last_change_for k changes = Some c -> In c changes /\ item_id c = k.
Proof.
  unfold last_change_for. intros Hf. apply find_some in Hf.
  destruct Hf as [Hin Hk]. apply in_rev in Hin. apply String.eqb_eq in Hk. auto.
Qed.

(** X3: when the store reads every id of a batch as the string it is, the
    batch, once applied, leaves under every id what the last change of the
    batch for that id asks: nothing when that change is a deletion or when
    no eligible note has the id any more, the one normalized row of the note
    when it is a creation or an update; the rows of an id no change names
    stay as they were. *)
Theorem applied_batch_rows (w : World) (id id' : Z) (e e' : Engine) (k : string) :
  forallb (is_literal w) (map item_id (select_changes w id)) = true ->
  sync_turn w id e = Applied id' e' ->
  rows_with_id k (notes_normalized e')
  = match last_change_for k (select_changes w id) with
    | None => rows_with_id k (notes_normalized e)
    | Some c =>
        if is_upsert c then
          match eligible_note w k with
          | Some n => [normalized_row n]
          | None => []
          end
        else []
    end.
Proof.
  unfold sync_turn. intros Hlit Ht.
  destruct (select_changes w id) as [|c0 cs] eqn:Hsel; [discriminate|].
  destruct (changes_queries _ _ _ _) as [err|[queries last']] eqn:Hq; [discriminate|].
  inversion Ht; subst; clear Ht.
  apply changes_queries_statements in Hq. subst queries.
  cbn [notes_normalized emit set_lastProcessedChangeId transactionExecBatch
         set_notes_normalized app].
  rewrite batch_rows.
  destruct (last_change_for k (c0 :: cs)) as [c|] eqn:Hlast; [|reflexivity].
  apply last_change_for_In in Hlast. destruct Hlast as [Hin Hk].
  rewrite (noteById_select_notes_in w _ k Hlit); [reflexivity|].
  rewrite <- Hk. apply in_map. exact Hin.
Qed.

Lemma sync_turn_done (w : World) (id : Z) (e : Engine) :
  sync_turn w id e = Done -> select_changes w id = [].
Proof.
  unfold sync_turn. destruct (select_changes w id); [reflexivity|].
  destruct (changes_queries _ _ _ _) as [|[? ?]]; discriminate.
Qed.

Lemma sync_turn_events (w : World) (id id' : Z) (e e' : Engine) :
  sync_turn w id e = Applied id' e' -> events e' = events e ++ [SaveAll].
Proof.
  unfold sync_turn. destruct (select_changes w id); [discriminate|].
  destruct (changes_queries _ _ _ _) as [|[? ?]]; [discriminate|].
  intros Ht; inversion Ht; subst. reflexivity.
Qed.

(** The loop, from the watermark: what it has done when it stops. *)
Lemma sync_loop_stops (fuel : nat) (w : World) :
  forall id e out e',
    lastProcessedChangeId e = id ->
    sync_loop fuel w id e = (out, e') ->
    (exists n, events e' = events e ++ repeat SaveAll n)
    /\ (out = Returned -> select_changes w (lastProcessedChangeId e') = [])
    /\ (forall err, out = Thrown err ->
          exists c, In c (select_changes w (lastProcessedChangeId e'))
                    /\ err = InvalidChangeType (change_type c)
                    /\ change_type c <> TYPE_CREATE
                    /\ change_type c <> TYPE_UPDATE
                    /\ change_type c <> TYPE_DELETE).
Proof.
  induction fuel as [|fuel IH]; intros id e out e' Hid Hl; simpl in Hl.
  - inversion Hl; subst. split; [exists 0%nat; simpl; rewrite app_nil_r; reflexivity|].
    split; [discriminate|]. intros err Herr; discriminate.
  - destruct (sync_turn w id e) as [| err | id1 e1] eqn:Ht.
    + inversion Hl; subst. apply sync_turn_done in Ht.
      split; [exists 0%nat; simpl; rewrite app_nil_r; reflexivity|].
      split; [intros _; exact Ht|]. intros err Herr; discriminate.
    + inversion Hl; subst.
      split; [exists 0%nat; simpl; rewrite app_nil_r; reflexivity|].
      split; [discriminate|]. intros err' Herr. inversion Herr; subst.
      unfold sync_turn in Ht.
      destruct (select_changes w (lastProcessedChangeId e')) as [|c0 cs] eqn:Hsel;
        [discriminate|].
      destruct (changes_queries _ _ _ _) as [err|[? ?]] eqn:Hq; [|discriminate].
      inversion Ht; subst. apply changes_queries_invalid in Hq.
      destruct Hq as (c & Hin & Herr' & Hc & Hu & Hd).
      exists c. tauto.
    + pose proof (sync_turn_events _ _ _ _ _ Ht) as Hev.
      apply sync_turn_applied in Ht. destruct Ht as (_ & _ & Hw & _).
      destruct (IH id1 e1 out e' Hw Hl) as ((n & Hn) & Hret & Hthrow).
      split; [|split; assumption].
      exists (S n). rewrite Hn, Hev, <- app_assoc. reflexivity.
Qed.

Lemma NoDup_map_injective {A B} (f : A -> B) (l : list A) (x y : A) :
  NoDup (map f l) -> In x l -> In y l -> f x = f y -> x = y.
Proof.
  induction l as [|a l IH]; simpl; [tauto|].
  intros Hnd. inversion Hnd as [|? ? Hfresh Hrest]; subst.
  intros [->|Hx] [->|Hy] Hf; auto.
  - exfalso. apply Hfresh. rewrite Hf. apply in_map. exact Hy.
  - exfalso. apply Hfresh. rewrite <- Hf. apply in_map. exact Hx.
Qed.

Lemma NoDup_of_map {A B} (f : A -> B) (l : list A) : NoDup (map f l) -> NoDup l.
Proof.
  induction l as [|a l IH]; simpl; intros Hnd; [constructor|].
  inversion Hnd as [|? ? Hfresh Hrest]; subst.
  constructor; [|exact (IH Hrest)]. intros Hin. apply Hfresh. apply in_map. exact Hin.
Qed.

(** In a sorted batch no id is above the id of the last change. *)
Lemma sorted_below_last (l : list ItemChange) :
  StronglySorted id_le l ->
  forall c d, In c l -> change_id c <= last (map change_id l) d.
Proof.
  induction 1 as [|a l Hs IH Ha]; intros c d; simpl; [tauto|].
  intros [->|Hc].
  - destruct l as [|b l]; [simpl; lia|].
    change (last (change_id c :: map change_id (b :: l)) d)
      with (last (map change_id (b :: l)) d).
    rewrite Forall_forall in Ha.
    assert (Hlast : In (last (map change_id (b :: l)) d) (map change_id (b :: l))).
    { apply last_In. discriminate. }
    apply in_map_iff in Hlast. destruct Hlast as (x & Hx & Hin).
    rewrite <- Hx. apply Ha. exact Hin.
  - destruct l as [|b l]; [contradiction|].
    change (last (change_id a :: map change_id (b :: l)) d)
      with (last (map change_id (b :: l)) d).
    apply IH. exact Hc.
Qed.

(** Where the ids of the change log are distinct, a batch that is applied
    takes its changes, and no other, off the changes left to process. *)
Lemma sync_turn_takes (w : World) (id id' : Z) (e e' : Engine) :
  NoDup (map change_id (item_changes w)) ->
  sync_turn w id e = Applied id' e' ->
  (List.length (pending_changes w id') + List.length (select_changes w id)
   = List.length (pending_changes w id))%nat.
Proof.
  intros Hnd Ht. apply sync_turn_applied in Ht.
  destruct Ht as (Hne & Hlast & _ & _ & _ & _ & _ & _ & Hlt).
  pose proof (NoDup_of_map _ _ Hnd) as Hitems.
  set (P := pending_changes w id) in *.
  set (S := order_by_id P).
  assert (HB : select_changes w id = firstn 100 S) by reflexivity.
  set (B := firstn 100 S) in *. set (R := skipn 100 S).
  assert (HS : B ++ R = S) by apply firstn_skipn.
  assert (Hperm : Permutation S P) by apply order_by_id_perm.
  assert (HP : NoDup P) by (apply NoDup_filter; exact Hitems).
  assert (HndS : NoDup (B ++ R)).
  { rewrite HS. eapply Permutation_NoDup; [symmetry; exact Hperm | exact HP]. }
  assert (Hsorted : StronglySorted id_le (B ++ R)).
  { rewrite HS. apply order_by_id_sorted. }
  assert (HinP : forall c, In c (B ++ R) <->
                           In c (item_changes w) /\ item_type c = TYPE_NOTE /\ id < change_id c).
  { intros c. rewrite HS. split.
    - intros Hc. apply (Permutation_in _ Hperm) in Hc. unfold P, pending_changes in Hc.
      apply filter_In in Hc. rewrite andb_true_iff, Z.eqb_eq, Z.ltb_lt in Hc. tauto.
    - intros Hc. apply (Permutation_in _ (Permutation_sym Hperm)).
      unfold P, pending_changes. apply filter_In.
      rewrite andb_true_iff, Z.eqb_eq, Z.ltb_lt. tauto. }
  assert (Hd : exists d, In d B /\ change_id d = id').
  { rewrite HB in Hne, Hlast.
    assert (Hl : In id' (map change_id B)) by (rewrite Hlast; apply last_In;
      destruct B; [congruence | discriminate]).
    apply in_map_iff in Hl. destruct Hl as (d & Hd & Hin). eauto. }
  destruct Hd as (d & HdB & Hdid).
  assert (Hrest : Permutation (pending_changes w id') R).
  { apply NoDup_Permutation.
    - apply NoDup_filter. exact Hitems.
    - exact (NoDup_app_remove_l _ _ HndS).
    - intros c. unfold pending_changes. rewrite filter_In, andb_true_iff, Z.eqb_eq, Z.ltb_lt.
      split.
      + intros (Hin & Htype & Hid).
        assert (Hc : In c (B ++ R)) by (apply HinP; repeat split; auto; lia).
        apply in_app_or in Hc. destruct Hc as [Hc|Hc]; [|exact Hc]. exfalso.
        assert (Hle : change_id c <= id').
        { rewrite Hlast, HB. apply sorted_below_last; [|exact Hc].
          unfold B. apply firstn_sorted, order_by_id_sorted. }
        lia.
      + intros Hc.
        assert (Hc' : In c (B ++ R)) by (apply in_or_app; right; exact Hc).
        apply HinP in Hc'. destruct Hc' as (Hin & Htype & Hid).
        split; [exact Hin|]. split; [exact Htype|].
        pose proof (sorted_app_ordered id_le B R Hsorted d c HdB Hc) as Hle.
        unfold id_le in Hle.
        assert (Hneq : change_id c <> change_id d).
        { intros Heq.
          assert (HdP : In d (B ++ R)) by (apply in_or_app; left; exact HdB).
          apply HinP in HdP. destruct HdP as (Hdin & _).
          assert (c = d) by (eapply NoDup_map_injective; eauto).
          subst c. exact (NoDup_app_disjoint _ _ d HndS HdB Hc). }
        lia. }
  rewrite (Permutation_length Hrest), HB.
  rewrite <- (Permutation_length Hperm), <- HS, length_app. lia.
Qed.

Lemma batches_next (n b : nat) :
  (0 < b)%nat -> b = Nat.min 100 n -> batches n = S (batches (n - b)).
Proof.
  unfold batches. intros Hpos ->.
  destruct (Nat.le_gt_cases n 100) as [Hle|Hgt].
  - rewrite Nat.min_r in * by exact Hle. rewrite Nat.sub_diag. simpl.
    assert (Hq : ((n + 99) / 100 = 1)%nat).
    { symmetry. apply (Nat.div_unique (n + 99) 100 1 (n - 1)); lia. }
    exact Hq.
  - rewrite Nat.min_l by lia.
    replace (n + 99)%nat with ((n - 100 + 99) + 1 * 100)%nat by lia.
    rewrite Nat.div_add by discriminate. lia.
Qed.

(** Where the ids of the change log are distinct, the loop applies one
    batch for every 100 changes left, and one for what remains. *)
Lemma sync_loop_batches (fuel : nat) (w : World) :
  NoDup (map change_id (item_changes w)) ->
  forall id e e',
    sync_loop fuel w id e = (Returned, e') ->
    events e' = events e ++ repeat SaveAll (batches (List.length (pending_changes w id))).
Proof.
  intros Hnd. induction fuel as [|fuel IH]; intros id e e' Hl; simpl in Hl; [discriminate|].
  destruct (sync_turn w id e) as [| err | id1 e1] eqn:Ht; [| discriminate |].
  - inversion Hl; subst. apply sync_turn_done in Ht.
    assert (Hnone : pending_changes w id = []).
    { unfold select_changes in Ht. fold (pending_changes w id) in Ht.
      pose proof (order_by_id_perm (pending_changes w id)) as Hperm.
      destruct (order_by_id (pending_changes w id)) as [|c l]; [|discriminate].
      apply Permutation_nil. exact Hperm. }
    rewrite Hnone. simpl. rewrite app_nil_r. reflexivity.
  - pose proof (sync_turn_events _ _ _ _ _ Ht) as Hev.
    pose proof (sync_turn_takes _ _ _ _ _ Hnd Ht) as Htakes.
    assert (Hlen : List.length (select_changes w id)
                   = Nat.min 100 (List.length (pending_changes w id))).
    { unfold select_changes. fold (pending_changes w id).
      rewrite length_firstn, (Permutation_length (order_by_id_perm _)). reflexivity. }
    assert (Hpos : (0 < List.length (select_changes w id))%nat).
    { apply sync_turn_applied in Ht. destruct Ht as (Hne & _).
      destruct (select_changes w id); [congruence | simpl; lia]. }
    rewrite (IH _ _ _ Hl), Hev, <- app_assoc.
    rewrite (batches_next _ _ Hpos Hlen).
    replace (List.length (pending_changes w id) - List.length (select_changes w id))%nat
      with (List.length (pending_changes w id1)) by lia.
    reflexivity.
Qed.

(** X4: a call of [syncTables] that finds the run guard clear and returns
    leaves the guard clear and the initial indexing done.  If the indexing
    was done before, no note change is left above the watermark, and the
    calls made are the wait for the change log, then a number of savings of
    the settings and then, once, the request to prune the change log; when
    the ids of the change log are distinct, the settings were saved once for
    every 100 note changes that were above the watermark and once for the
    remainder, that is, once a batch.  If not, the index table is the one
    [rebuildIndex_] makes of the tables, the watermark is the high-water
    mark of the change log, and nothing was saved and nothing pruned. *)
Theorem returning_run (w : World) (e e' : Engine) :
  isIndexing_ e = false ->
  syncTables w e = (Returned, e') ->
  isIndexing_ e' = false
  /\ initialIndexingDone e' = true
  /\ (initialIndexingDone e = true ->
      select_changes w (lastProcessedChangeId e') = []
      /\ exists n,
           events e'
           = events e ++ [InfoUpdating; WaitForAllSaved] ++ repeat SaveAll n
             ++ [DeleteProcessedChanges; InfoUpdated]
           /\ (NoDup (map change_id (item_changes w)) ->
               n = batches (List.length (pending_changes w (lastProcessedChangeId e)))))
  /\ (initialIndexingDone e = false ->
      (forall e0 e1, rebuildIndex_ w e0 = Some e1 ->
                     notes_normalized e' = notes_normalized e1)
      /\ lastProcessedChangeId e' = ItemChange_lastChangeId w
      /\ events e' = events e ++ [InfoUpdating; WaitForAllSaved]).
Proof.
  unfold syncTables, syncTables_fuel. intros Hguard. rewrite Hguard.
  cbn [initialIndexingDone emit set_isIndexing].
  destruct (initialIndexingDone e) eqn:Hdone; cbn [negb].
  - match goal with |- context [sync_loop ?f ?w ?i ?x] =>
      pose proof (sync_loop_fields f w i x (Z.le_refl _)) as Hf;
      pose proof (sync_loop_stops f w i x) as Hl;
      pose proof (fun Hnd => sync_loop_batches f w Hnd i x) as Hb;
      destruct (sync_loop f w i x) as [[| err |] e1] end;
      intros Hs; inversion Hs; subst; clear Hs.
    specialize (Hl Returned e1 eq_refl eq_refl).
    destruct Hl as ((n & Hn) & Hret & _). simpl in Hf. destruct Hf as (_ & _ & Hd).
    cbn. split; [reflexivity|]. split; [congruence|].
    split; [|discriminate]. intros _. split; [exact (Hret eq_refl)|].
    exists n. split.
    + rewrite Hn. cbn. rewrite <- !app_assoc. reflexivity.
    + intros Hnd. specialize (Hb Hnd e1 eq_refl). rewrite Hn in Hb.
      apply app_inv_head in Hb.
      apply (f_equal (@List.length Event)) in Hb. rewrite !repeat_length in Hb.
      exact Hb.
  - destruct (rebuildIndex_ w _) as [e1|] eqn:Hr; [|discriminate].
    intros Hs; inversion Hs; subst; clear Hs.
    pose proof (fun e2 => rebuildIndex_table w _ _ e2 Hr) as Htable.
    apply rebuildIndex_fields in Hr. destruct Hr as (_ & _ & Hw & Hev).
    cbn in *. split; [reflexivity|]. split; [reflexivity|].
    split; [discriminate|]. intros _. split; [|split; [exact Hw|]].
    + intros e0 e2 Hr0. destruct (Htable e0) as (e2' & Hr2 & Ht).
      rewrite Hr0 in Hr2. inversion Hr2; subst. symmetry. exact Ht.
    + rewrite Hev, <- app_assoc. reflexivity.
Qed.


Lemma rebuild_batch_rows (ns : list Note) (e : Engine) :
  notes_normalized (transactionExecBatch (rebuild_queries ns) e)
  = notes_normalized e ++ map normalized_row ns.
Proof.
  unfold transactionExecBatch. cbn [notes_normalized set_notes_normalized].
  generalize (notes_normalized e) as t.
  induction ns as [|n ns IH]; intros t; simpl.
  - rewrite app_nil_r. reflexivity.
  - rewrite IH, <- app_assoc. reflexivity.
Qed.

Lemma rebuild_loop_rows (fuel : nat) (w : World) :
  forall noteIds e e',
    forallb (is_literal w) noteIds = true ->
    rebuild_loop fuel w noteIds e = Some e' ->
    forall r,
      In r (notes_normalized e') <->
      In r (notes_normalized e)
      \/ exists n, In n (notes w) /\ eligible n = true
                   /\ In (note_id n) noteIds /\ r = normalized_row n.
Proof.
  induction fuel as [|fuel IH]; intros noteIds e e' Hlit Hl r.
  - destruct noteIds; [|discriminate]. inversion Hl; subst.
    split; [tauto|]. intros [Hin|(n & _ & _ & [] & _)]. exact Hin.
  - destruct noteIds as [|i noteIds].
    { inversion Hl; subst. split; [tauto|]. intros [Hin|(n & _ & _ & [] & _)]. exact Hin. }
    cbn [rebuild_loop] in Hl. set (ids := i :: noteIds) in *.
    destruct (forallb_firstn _ 100 ids Hlit) as [Hfirst Hrest].
    rewrite (IH _ _ _ Hrest Hl r), rebuild_batch_rows, in_app_iff, in_map_iff.
    rewrite (select_notes_in_literal w (firstn 100 ids) (first_slice i noteIds) Hfirst).
    assert (Hs : forall k, In k ids <-> In k (firstn 100 ids) \/ In k (skipn 100 ids)).
    { intros k. rewrite <- in_app_iff, firstn_skipn. reflexivity. }
    split.
    + intros [[Hin|(n & Hr & Hn)]|(n & Hn & He & Hk & Hr)].
      * left; exact Hin.
      * right. apply filter_In in Hn.
        destruct Hn as [Hn Hp]. apply andb_true_iff in Hp. destruct Hp as [Hex He].
        apply existsb_eqb_In in Hex. exists n. rewrite Hs. auto.
      * right. exists n. rewrite Hs. auto.
    + intros [Hin|(n & Hn & He & Hk & Hr)]; [auto|].
      apply Hs in Hk. destruct Hk as [Hk|Hk].
      * left; right. exists n. split; [auto|].
        apply filter_In. split; [exact Hn|]. apply andb_true_iff. split; [|exact He].
        apply existsb_eqb_In. exact Hk.
      * right. exists n. auto.
Qed.

(** X6: when the store reads the id of every note that is neither a
    conflict nor encrypted as the string it is, [rebuildIndex_] leaves in the
    index table the normalized rows of those notes, and no other row: the id
    as it is, the title and the body through [normalizeText_]; where the ids
    of table [notes] are distinct, no two rows have the same id.  It sets the
    watermark to the high-water mark of the change log and touches neither
    the run guard nor the initial-indexing flag. *)
Theorem rebuildIndex_rows (w : World) (e : Engine) :
  forallb (is_literal w) (select_eligible_ids w) = true ->
  exists e',
    rebuildIndex_ w e = Some e'
    /\ (forall r,
          In r (notes_normalized e') <->
          exists n, In n (notes w)
                    /\ is_conflict n = 0 /\ encryption_applied n = 0
                    /\ r = normalized_row n)
    /\ (NoDup (map note_id (notes w)) -> NoDup (map n_id (notes_normalized e')))
    /\ lastProcessedChangeId e' = ItemChange_lastChangeId w
    /\ isIndexing_ e' = isIndexing_ e
    /\ initialIndexingDone e' = initialIndexingDone e.
Proof.
  intros Hlit.
  destruct (rebuildIndex_returns w e) as [e' He']. exists e'.
  split; [exact He'|].
  pose proof (rebuildIndex_fields w e e' He') as (Hg & Hd & Hw & _).
  split; [|split; [|auto]];
    unfold rebuildIndex_, rebuildIndex_fuel in He';
    destruct (rebuild_loop _ _ _ _) as [e1|] eqn:Hl; try discriminate;
    inversion He'; subst; clear He'; cbn [notes_normalized set_lastProcessedChangeId].
  - intros r. rewrite (rebuild_loop_rows _ _ _ _ _ Hlit Hl r). cbn. split.
    + intros [[]|(n & Hn & He & _ & Hr)]. exists n. apply eligible_spec in He. tauto.
    + intros (n & Hn & Hc & Hx & Hr). right. exists n.
      assert (He : eligible n = true) by (apply eligible_spec; auto).
      split; [exact Hn|]. split; [exact He|]. split; [|exact Hr].
      unfold select_eligible_ids. apply in_map. apply filter_In. auto.
  - intros Hnd. eapply rebuild_loop_NoDup; [exact Hnd | exact Hlit | | exact Hl].
    simpl. unfold select_eligible_ids. apply NoDup_map_filter. exact Hnd.
Qed.

End SynchronizerMore.

(** * Properties of the scheduling *)

Lemma filter_filter_length {A} (p q : A -> bool) (l : list A) :
  (List.length (filter p (filter q l)) <= List.length (filter p l))%nat.
Proof.
  induction l as [|a l IH]; simpl; [lia|].
  destruct (q a); simpl; destruct (p a); simpl; lia.
Qed.

Lemma filter_filter_length_lt {A} (p q : A -> bool) (l : list A) (a : A) :
  In a l -> p a = true -> q a = false ->
  (List.length (filter p (filter q l)) < List.length (filter p l))%nat.
Proof.
  induction l as [|b l IH]; simpl; [tauto|].
  intros [->|Hin] Hp Hq.
  - rewrite Hq, Hp. simpl. pose proof (filter_filter_length p q l). lia.
  - specialize (IH Hin Hp Hq). destruct (q b); simpl; destruct (p b); simpl; lia.
Qed.

Lemma pending_setTimeout (c c' : Callback) (delay : Z) (s : Scheduler) :
  pending_timeouts c (snd (setTimeout c' delay s))
  = (pending_timeouts c s
     + match c, c' with
       | ScheduledSync, ScheduledSync | BackgroundSync, BackgroundSync => 1
       | _, _ => 0
       end)%nat.
Proof.
  unfold pending_timeouts, setTimeout. simpl. rewrite filter_app, length_app.
  destruct c, c'; reflexivity.
Qed.

Lemma pending_clear_due (c : Callback) (id : positive) (s : Scheduler) :
  (pending_timeouts c (clear_due id s) <= pending_timeouts c s)%nat.
Proof. apply filter_filter_length. Qed.

Lemma pending_clear_due_lt (c : Callback) (id : positive) (s : Scheduler) (t : Timeout) :
  find (fun t => (timeout_id t =? id)%positive) (timeouts s) = Some t ->
  is_callback c t = true ->
  (pending_timeouts c (clear_due id s) < pending_timeouts c s)%nat.
Proof.
  intros Hf Hc. apply find_some in Hf. destruct Hf as [Hin Hid].
  apply filter_filter_length_lt with (a := t); auto.
  rewrite Hid. reflexivity.
Qed.

Section Scheduling.
Context `{Collaborators}.

(** What a callback leaves of the scheduler, but for the engine. *)
Lemma run_callback_frame (c : Callback) (w : World) (s : Scheduler) :
  let r := run_callback c w s in
  timeouts (snd r) = timeouts s
  /\ isRunningInBackground_ (snd r) = isRunningInBackground_ s
  /\ (scheduleSyncTablesIID_ (snd r) = scheduleSyncTablesIID_ s
      \/ (c = ScheduledSync /\ fst r = Returned /\ scheduleSyncTablesIID_ (snd r) = None)).
Proof.
  unfold run_callback. destruct (syncTables w (instance_ s)) as [out e'].
  destruct c; [destruct out|]; cbn; intuition.
Qed.

Lemma pending_run_callback (c c' : Callback) (w : World) (s : Scheduler) :
  pending_timeouts c (snd (run_callback c' w s)) = pending_timeouts c s.
Proof.
  unfold pending_timeouts.
  destruct (run_callback_frame c' w s) as (Ht & _). rewrite Ht. reflexivity.
Qed.

Lemma pending_runInBackground (w : World) (s : Scheduler) :
  pending_timeouts ScheduledSync (runInBackground w s) = pending_timeouts ScheduledSync s
  /\ scheduleSyncTablesIID_ (runInBackground w s) = scheduleSyncTablesIID_ s.
Proof.
  unfold runInBackground. destruct (isRunningInBackground_ s); [auto|].
  rewrite pending_setTimeout. simpl. unfold pending_timeouts. simpl. split; [lia | reflexivity].
Qed.

Lemma scheduleSyncTables_registers (c : Callback) (s : Scheduler) :
  scheduleSyncTablesIID_ s = None ->
  pending_timeouts c (scheduleSyncTables s)
  = (pending_timeouts c s + match c with ScheduledSync => 1 | BackgroundSync => 0 end)%nat
  /\ scheduleSyncTablesIID_ (scheduleSyncTables s) = Some (next_timeout_id s)
  /\ isRunningInBackground_ (scheduleSyncTables s) = isRunningInBackground_ s.
Proof.
  intros Hiid. unfold scheduleSyncTables, setTimeout, pending_timeouts. rewrite Hiid.
  simpl. rewrite filter_app, length_app. destruct c; simpl; auto.
Qed.

Lemma debounced_step (s : Scheduler) (op : Op) : debounced s -> debounced (step_op s op).
Proof.
  unfold debounced. intros [Hle Hnone]. destruct op as [|w|id w]; simpl.
  - destruct (scheduleSyncTablesIID_ s) eqn:Hiid.
    + unfold scheduleSyncTables. rewrite Hiid. split; [exact Hle | intros; congruence].
    + destruct (scheduleSyncTables_registers ScheduledSync s Hiid) as (Hp & Hi & _).
      rewrite Hp, Hi, (Hnone eq_refl). simpl. split; [lia | discriminate].
  - destruct (pending_runInBackground w s) as [Hp Hi]. rewrite Hp, Hi. intuition auto.
  - unfold timeout_due.
    destruct (find _ (timeouts s)) as [t|] eqn:Hf; [|intuition auto]. simpl.
    rewrite pending_run_callback.
    pose proof (pending_clear_due ScheduledSync id s) as Hc.
    destruct (run_callback_frame (timeout_callback t) w (clear_due id s))
      as (_ & _ & [Hi|(Hk & _ & Hi)]).
    + rewrite Hi. simpl. split; [lia|]. intros Hn. specialize (Hnone Hn). lia.
    + split; [lia|]. intros _.
      assert (Hlt := pending_clear_due_lt ScheduledSync id s t Hf).
      unfold is_callback in Hlt. rewrite Hk in Hlt. specialize (Hlt eq_refl). lia.
Qed.

Lemma debounced_run (ops : list Op) :
  forall s, debounced s -> debounced (run_ops ops s).
Proof.
  unfold run_ops. induction ops as [|op ops IH]; intros s Hs; simpl; [exact Hs|].
  apply IH. apply debounced_step. exact Hs.
Qed.

Lemma scheduleSyncTables_again (s : Scheduler) :
  scheduleSyncTables (scheduleSyncTables s) = scheduleSyncTables s.
Proof.
  assert (Hset : scheduleSyncTablesIID_ (scheduleSyncTables s) <> None).
  { destruct (scheduleSyncTablesIID_ s) eqn:Hiid.
    - unfold scheduleSyncTables. rewrite Hiid, Hiid. discriminate.
    - destruct (scheduleSyncTables_registers ScheduledSync s Hiid) as (_ & Hi & _).
      rewrite Hi. discriminate. }
  unfold scheduleSyncTables at 1.
  destruct (scheduleSyncTablesIID_ (scheduleSyncTables s)); [reflexivity | congruence].
Qed.

(** X7: whatever is called and whatever comes due, in any order, at most
    one timeout of [scheduleSyncTables] is pending, and none while the
    handle is clear; calling [scheduleSyncTables] again right after a call
    changes nothing. *)
Theorem schedule_debounced (e : Engine) (ops : list Op) :
  let s := run_ops ops (scheduler_of e) in
  (pending_timeouts ScheduledSync s <= 1)%nat
  /\ (scheduleSyncTablesIID_ s = None -> pending_timeouts ScheduledSync s = 0%nat)
  /\ scheduleSyncTables (scheduleSyncTables s) = scheduleSyncTables s.
Proof.
  intros s.
  assert (Hd : debounced s).
  { apply debounced_run. split; [unfold pending_timeouts; simpl; lia | reflexivity]. }
  destruct Hd as [Hle Hnone]. split; [exact Hle|]. split; [exact Hnone|].
  apply scheduleSyncTables_again.
Qed.

Lemma stuck_step (s : Scheduler) (op : Op) :
  scheduling_stuck s -> scheduling_stuck (step_op s op).
Proof.
  unfold scheduling_stuck. intros [Hiid Hp]. destruct op as [|w|id w]; simpl.
  - unfold scheduleSyncTables. destruct (scheduleSyncTablesIID_ s) eqn:Hs; [|congruence].
    rewrite Hs. split; [discriminate | exact Hp].
  - destruct (pending_runInBackground w s) as [Hp' Hi]. rewrite Hp', Hi. split; assumption.
  - unfold timeout_due.
    destruct (find _ (timeouts s)) as [t|] eqn:Hf; [|intuition auto]. simpl.
    rewrite pending_run_callback.
    pose proof (pending_clear_due ScheduledSync id s) as Hc.
    split; [|lia].
    destruct (run_callback_frame (timeout_callback t) w (clear_due id s))
      as (_ & _ & [Hi|(Hk & _ & _)]).
    + rewrite Hi. exact Hiid.
    + exfalso. apply find_some in Hf. destruct Hf as [Hin _].
      unfold pending_timeouts in Hp.
      assert (Hin' : In t (filter (is_callback ScheduledSync) (timeouts s))).
      { apply filter_In. split; [exact Hin|]. unfold is_callback. rewrite Hk. reflexivity. }
      destruct (filter (is_callback ScheduledSync) (timeouts s)); [destruct Hin' | discriminate].
Qed.

Lemma stuck_run (ops : list Op) :
  forall s, scheduling_stuck s -> scheduling_stuck (run_ops ops s).
Proof.
  unfold run_ops. induction ops as [|op ops IH]; intros s Hs; simpl; [exact Hs|].
  apply IH. apply stuck_step. exact Hs.
Qed.

(** X8: when the timeout of [scheduleSyncTables] comes due and its run of
    [syncTables] throws, the handle is never cleared: whatever is called
    and whatever comes due afterwards, the handle stays set, no timeout of
    [scheduleSyncTables] is pending, and [scheduleSyncTables] does
    nothing. *)
Theorem scheduling_stuck_after_throw
  (e : Engine) (ops ops' : list Op) (id : positive) (w : World) (t : Timeout) (err : Error) :
  let s := run_ops ops (scheduler_of e) in
  find (fun t => (timeout_id t =? id)%positive) (timeouts s) = Some t ->
  timeout_callback t = ScheduledSync ->
  fst (timeout_due id w s) = Thrown err ->
  let s' := run_ops ops' (snd (timeout_due id w s)) in
  scheduleSyncTablesIID_ s' <> None
  /\ pending_timeouts ScheduledSync s' = 0%nat
  /\ scheduleSyncTables s' = s'.
Proof.
  intros s Hf Hk Hthrow s'.
  assert (Hd : debounced s).
  { apply debounced_run. split; [unfold pending_timeouts; simpl; lia | reflexivity]. }
  assert (Hstuck : scheduling_stuck (snd (timeout_due id w s))).
  { destruct Hd as [Hle Hnone]. unfold timeout_due in *. rewrite Hf in *.
    assert (Hlt := pending_clear_due_lt ScheduledSync id s t Hf).
    unfold is_callback in Hlt. rewrite Hk in Hlt. specialize (Hlt eq_refl).
    split; [|rewrite pending_run_callback; lia].
    destruct (run_callback_frame (timeout_callback t) w (clear_due id s))
      as (_ & _ & [Hi|(_ & Hret & _)]).
    - rewrite Hi. simpl. intros Hn. specialize (Hnone Hn). lia.
    - rewrite Hret in Hthrow. discriminate. }
  destruct (stuck_run ops' _ Hstuck) as [Hiid Hp]. fold s' in Hiid, Hp.
  split; [exact Hiid|]. split; [exact Hp|].
  unfold scheduleSyncTables. destruct (scheduleSyncTablesIID_ s'); [reflexivity | congruence].
Qed.








End Scheduling.

(** * Further properties of the parser *)

Lemma scan_query_flush (query : string) :
  scan_query query
  = match scan query scan_start with
    | inl err => inl err
    | inr st => flush st
    end.
Proof. reflexivity. Qed.

Lemma push_term_keeps (o o' : JSObject (list string)) (col term k : string) :
  push_term o col term = inr o' -> obj_get o k <> None -> obj_get o' k <> None.
Proof.
  unfold push_term. destruct (obj_get o col); [|discriminate].
  intros Hp; inversion Hp; subst. apply obj_get_set_defined.
Qed.

Lemma scan_step_keeps (st st' : Scan) (c : ascii) (k : string) :
  scan_step st c = inr st' ->
  obj_get (scan_terms st) k <> None -> obj_get (scan_terms st') k <> None.
Proof.
  unfold scan_step.
  repeat match goal with
         | |- context [if ?b then _ else _] => destruct b
         | |- context [push_term ?o ?col ?t] =>
             let E := fresh "E" in
             destruct (push_term o col t) eqn:E; [discriminate|]
         end;
    intros Hs; inversion Hs; subst; simpl;
    eauto using push_term_keeps, obj_get_set_defined.
Qed.

Lemma scan_keeps (query : string) (k : string) :
  forall st st', scan query st = inr st' ->
    obj_get (scan_terms st) k <> None -> obj_get (scan_terms st') k <> None.
Proof.
  induction query as [|c query IH]; intros st st' Hs Hk; simpl in Hs.
  - inversion Hs; subst; exact Hk.
  - destruct (scan_step st c) as [|s1] eqn:E; [discriminate|].
    eapply IH; [exact Hs|]. eapply scan_step_keeps; eauto.
Qed.

Lemma flush_defined (st : Scan) :
  columns_defined st ->
  exists o, flush st = inr o
            /\ forall k, obj_get (scan_terms st) k <> None -> obj_get o k <> None.
Proof.
  intros [_ Hc]. unfold flush. destruct (currentTerm st =? "")%string.
  - exists (scan_terms st). auto.
  - destruct (push_term_defined _ _ (currentTerm st) Hc) as (l & _ & Hp).
    rewrite Hp. eexists; split; [reflexivity|].
    intros k. apply obj_get_set_defined.
Qed.

Lemma obj_get_None {V} (o : JSObject V) (k : string) :
  obj_get o k = None <-> ~ In k (map fst o).
Proof.
  induction o as [|[k' v] o IH]; simpl; [tauto|].
  destruct (String.eqb_spec k' k) as [->|Hne].
  - split; [discriminate|]. intros Hn. exfalso. apply Hn. left; reflexivity.
  - rewrite IH. tauto.
Qed.

Section ParserMore.
Context `{Collaborators}.

(** X10: the scanning loop of [parseQuery] never reads a column that is
    not there, so it never throws; [parseQuery] returns a parsed query for
    every query but those that left a column named [hasOwnProperty], for
    which the call of [terms.hasOwnProperty] throws. *)
Theorem parseQuery_outcomes (query : string) :
  exists o,
    scan_query query = inr o
    /\ (obj_get o "hasOwnProperty" = None -> exists p, parseQuery query = inr p)
    /\ (obj_get o "hasOwnProperty" <> None -> parseQuery query = inl hasOwnProperty_error).
Proof.
  destruct (scan_defined query scan_start scan_start_defined) as (st & Hs & Hd).
  destruct (flush_defined st Hd) as (o & Ho & _).
  exists o. unfold parseQuery. rewrite scan_query_flush, Hs, Ho.
  split; [reflexivity|].
  destruct (obj_get o "hasOwnProperty").
  - split; [discriminate | reflexivity].
  - split; [eauto | congruence].
Qed.

(** X11: a query with an unquoted [hasOwnProperty:], that is, one cut at
    an unquoted colon before which the scanning loop holds the buffer
    [hasOwnProperty], makes [parseQuery] throw, whatever follows the
    colon. *)
Theorem hasOwnProperty_column_throws (before rest : string) (st : Scan) :
  scan before scan_start = inr st ->
  inQuote st = false ->
  currentTerm st = "hasOwnProperty" ->
  parseQuery (before ++ ":" ++ rest) = inl hasOwnProperty_error.
Proof.
  intros Hs Hq Hbuf.
  pose proof (scan_reaches_defined _ _ Hs) as Hd.
  unfold parseQuery. rewrite scan_query_flush, !scan_app, Hs. cbn [scan append].
  rewrite (scan_colon st Hq), Hbuf.
  set (a := {| scan_terms := obj_set (scan_terms st) _ _ |}).
  assert (Hda : columns_defined a).
  { split; simpl; [apply obj_get_set_defined; apply Hd|].
    rewrite obj_get_set_same; discriminate. }
  assert (Hka : obj_get (scan_terms a) "hasOwnProperty" <> None).
  { simpl. rewrite obj_get_set_same. discriminate. }
  destruct (scan_defined rest a Hda) as (b & Hb & Hdb). rewrite Hb.
  pose proof (scan_keeps rest "hasOwnProperty" a b Hb Hka) as Hkb.
  destruct (flush_defined b Hdb) as (o & Ho & Hko). rewrite Ho.
  specialize (Hko _ Hkb).
  destruct (obj_get o "hasOwnProperty"); [reflexivity | congruence].
Qed.

Lemma filter_terms_In (col_terms : list string) (t : Term) :
  In t (filter_terms col_terms) ->
  In (originalValue t) col_terms
  /\ originalValue t <> "*"
  /\ term_scriptType t = scriptType (originalValue t)
  /\ ((term_type t = text
       /\ contains_char "*" (originalValue t) = false
       /\ term_value t = originalValue t)
      \/ (term_type t = regex
          /\ contains_char "*" (originalValue t) = true
          /\ term_value t = queryTermToRegex (originalValue t))).
Proof.
  induction col_terms as [|term rest IH]; simpl; [tauto|].
  destruct (String.eqb_spec term star) as [Hstar|Hstar].
  - intros Hin. apply IH in Hin. tauto.
  - destruct (contains_char "*" term) eqn:Hc; simpl;
      (intros [<-|Hin]; [simpl; unfold star in Hstar; tauto | apply IH in Hin; tauto]).
Qed.

Lemma filter_columns_summary (cols : list (string * list string)) :
  forall termCount0 keys0 out,
    keys (filter_columns cols termCount0 keys0 out)
    = keys0 ++ map fst (filter kept_column cols)
    /\ termCount (filter_columns cols termCount0 keys0 out)
       = termCount0
         + Z.of_nat (List.length
                       (List.concat (map (fun p => filter_terms (snd p))
                                       (filter kept_column cols)))).
Proof.
  induction cols as [|[col ts] cols IH]; intros termCount0 keys0 out.
  - simpl. rewrite app_nil_r. split; [reflexivity | lia].
  - destruct ts as [|t ts].
    + cbn [filter_columns filter kept_column snd]. apply IH.
    + cbn [filter_columns filter kept_column snd fst map List.concat].
      destruct (IH (termCount0 + Z.of_nat (List.length (filter_terms (t :: ts))))
                  (keys0 ++ [col]) (out ++ [(col, filter_terms (t :: ts))])) as [Hk Hc].
      rewrite Hk, Hc, <- app_assoc. split; [reflexivity|].
      rewrite length_app. lia.
Qed.

Lemma parsed_keys_are_columns (query : string) (p : ParsedQuery) :
  parseQuery query = inr p -> keys p = map fst (terms p).
Proof.
  unfold parseQuery. destruct (scan_query query) as [|o]; [discriminate|].
  destruct (obj_get o "hasOwnProperty"); [discriminate|].
  intros Hp; inversion Hp; subst; clear Hp.
  destruct (filter_columns_summary (own_properties o) 0 [] []) as [Hk _].
  rewrite Hk, filter_columns_terms. cbn [app]. rewrite map_map. reflexivity.
Qed.

(** X12: in a parsed query, [keys] lists the columns of [terms], each
    once and in the same order; [termCount] is the number of terms of all
    columns together; and every term records its original text, which is
    never [*] alone, and the script of that text: a text term has no
    wildcard and its value is the original text, a regex term has a
    wildcard and its value is what [queryTermToRegex] makes of the
    original text. *)
Theorem parsed_query_invariants (query : string) (p : ParsedQuery) :
  parseQuery query = inr p ->
  keys p = map fst (terms p)
  /\ NoDup (keys p)
  /\ termCount p = Z.of_nat (List.length (List.concat (map snd (terms p))))
  /\ (forall col ts t,
        In (col, ts) (terms p) -> In t ts ->
        originalValue t <> "*"
        /\ term_scriptType t = scriptType (originalValue t)
        /\ ((term_type t = text
             /\ contains_char "*" (originalValue t) = false
             /\ term_value t = originalValue t)
            \/ (term_type t = regex
                /\ contains_char "*" (originalValue t) = true
                /\ term_value t = queryTermToRegex (originalValue t)))).
Proof.
  unfold parseQuery. destruct (scan_query query) as [|o] eqn:Hs; [discriminate|].
  destruct (obj_get o "hasOwnProperty"); [discriminate|].
  intros Hp; inversion Hp; subst; clear Hp.
  pose proof (scan_query_NoDup query o Hs) as Hnd.
  destruct (filter_columns_summary (own_properties o) 0 [] []) as [Hk Hc].
  rewrite Hk, Hc, filter_columns_terms. cbn [app]. rewrite !map_map. cbn [fst snd].
  split; [reflexivity|]. split; [|split; [reflexivity|]].
  - apply NoDup_map_filter. apply own_properties_NoDup. exact Hnd.
  - intros col ts t Hin Ht. apply in_map_iff in Hin.
    destruct Hin as ([col' ts'] & Heq & _). cbn [fst snd] in Heq.
    inversion Heq; subst. apply filter_terms_In in Ht. tauto.
Qed.

(** X13: a column introduced as [__proto__] never shows in a parsed
    query: the assignment replaces the prototype of [terms] and creates no
    property, so neither [keys] nor [terms] has the column. *)
Theorem proto_column_hidden (query : string) (p : ParsedQuery) :
  parseQuery query = inr p ->
  ~ In "__proto__" (keys p)
  /\ obj_get (terms p) "__proto__" = None.
Proof.
  intros Hp.
  pose proof (parsed_keys_are_columns query p Hp) as Hk.
  destruct (parseQuery_column query p "__proto__" Hp) as (o & _ & Hcol).
  unfold filtered_column in Hcol. simpl in Hcol.
  split; [|exact Hcol].
  rewrite Hk. apply obj_get_None. exact Hcol.
Qed.

End ParserMore.

(** * Queries of a given shape *)

Lemma string_app_nil_r (s : string) : (s ++ "")%string = s.
Proof. induction s as [|c s IH]; simpl; [reflexivity | rewrite IH; reflexivity]. Qed.

Lemma string_app_assoc (a b c : string) : ((a ++ b) ++ c = a ++ (b ++ c))%string.
Proof. induction a as [|x a IH]; simpl; [reflexivity | rewrite IH; reflexivity]. Qed.

(** A character the loop does not act on goes to the buffer. *)
Lemma scan_step_buffers (st : Scan) (c : ascii) :
  Ascii.eqb c quote_char = false ->
  (Ascii.eqb c " " || Ascii.eqb c ":" = false \/ inQuote st = true) ->
  scan_step st c
  = inr {| scan_terms := scan_terms st; inQuote := inQuote st;
           currentCol := currentCol st;
           currentTerm := (currentTerm st ++ String c EmptyString)%string |}.
Proof.
  intros Hq Hc. unfold scan_step. rewrite Hq.
  destruct Hc as [Hc|Hc].
  - apply orb_false_iff in Hc. destruct Hc as [-> ->]. reflexivity.
  - rewrite Hc. simpl. rewrite !andb_false_r. reflexivity.
Qed.

Lemma scan_plain (s : string) :
  plain s = true ->
  forall st,
    scan s st
    = inr {| scan_terms := scan_terms st; inQuote := inQuote st;
             currentCol := currentCol st;
             currentTerm := (currentTerm st ++ s)%string |}.
Proof.
  induction s as [|c s IH]; intros Hp st; simpl.
  - rewrite string_app_nil_r. destruct st; reflexivity.
  - simpl in Hp. apply andb_true_iff in Hp. destruct Hp as [Hc Hs].
    apply andb_true_iff in Hc. destruct Hc as [Hc Hcolon].
    apply andb_true_iff in Hc. destruct Hc as [Hquote Hspace].
    apply negb_true_iff in Hquote, Hspace, Hcolon.
    rewrite scan_step_buffers by (auto; left; rewrite Hspace, Hcolon; reflexivity).
    rewrite (IH Hs). simpl. rewrite string_app_assoc. reflexivity.
Qed.


(** A run of plain words read from between two terms of the default
    column. *)
Lemma scan_words (words : list string) :
  Forall (fun w => plain w = true /\ w <> "") words ->
  words <> [] ->
  forall l,
    match scan (join " " words) (between_terms l) with
    | inl err => inl err
    | inr st => flush st
    end = inr [("_", l ++ words)].
Proof.
  induction 1 as [|w words [Hp Hne] Hall IH]; intros Hwords l; [congruence|].
  assert (Hnotempty : (w =? "")%string = false) by (apply String.eqb_neq; exact Hne).
  destruct words as [|w2 words].
  - simpl. rewrite (scan_plain w Hp). unfold flush. simpl. rewrite Hnotempty.
    reflexivity.
  - change (join " " (w :: w2 :: words))
      with (w ++ " " ++ join " " (w2 :: words))%string.
    rewrite !scan_app, (scan_plain w Hp). cbn [scan append].
    unfold scan_step. cbn. rewrite Hnotempty. cbn.
    fold (between_terms (l ++ [w])).
    rewrite IH by discriminate. rewrite <- app_assoc. reflexivity.
Qed.

Lemma scan_spaces (n : nat) (query : string) :
  scan (spaces n ++ query) scan_start = scan query scan_start.
Proof. induction n as [|n IH]; simpl; [reflexivity | exact IH]. Qed.

Section QueryShapes.
Context `{Collaborators}.

(** X14: a query of plain words, none empty, with one space between them
    has one column, the default one, with the words as its terms, in order:
    a word that is [*] alone is left out, a word with a wildcard gives a
    regex term, any other word a text term. *)
Theorem plain_words (words : list string) :
  Forall (fun w => plain w = true /\ w <> "") words ->
  words <> [] ->
  scan_query (join " " words) = inr [("_", words)]
  /\ parseQuery (join " " words)
     = inr {| termCount := Z.of_nat (List.length (filter_terms words));
              keys := ["_"];
              terms := [("_", filter_terms words)] |}.
Proof.
  intros Hall Hne.
  assert (Hs : scan_query (join " " words) = inr [("_", words)]).
  { rewrite scan_query_flush. exact (scan_words words Hall Hne []). }
  split; [exact Hs|]. unfold parseQuery. rewrite Hs.
  destruct words as [|w words]; [congruence|]. reflexivity.
Qed.



(** X17: spaces ahead of a query change nothing, and a query of spaces
    alone parses to no term and no column. *)
Theorem leading_spaces (n : nat) (query : string) :
  parseQuery (spaces n ++ query) = parseQuery query
  /\ parseQuery (spaces n) = inr {| termCount := 0; keys := []; terms := [] |}.
Proof.
  assert (Hlead : forall q, parseQuery (spaces n ++ q) = parseQuery q).
  { intros q. unfold parseQuery. rewrite !scan_query_flush, scan_spaces. reflexivity. }
  split; [apply Hlead|].
  rewrite <- (string_app_nil_r (spaces n)), Hlead. reflexivity.
Qed.

End QueryShapes.

(** * Wildcards, and the terms of a parsed query *)

Lemma strip_leading_stars_stars (n : nat) (term : string) :
  strip_leading_stars (stars n ++ term) = strip_leading_stars term.
Proof. induction n as [|n IH]; simpl; [reflexivity | exact IH]. Qed.

Lemma last_char_app (s1 s2 : string) :
  s2 <> EmptyString -> last_char (s1 ++ s2) = last_char s2.
Proof.
  intros Hne. induction s1 as [|c s1 IH]; simpl; [reflexivity|].
  rewrite IH. destruct (s1 ++ s2)%string eqn:Happ; [|reflexivity].
  destruct s1; simpl in Happ; [congruence | discriminate].
Qed.

Lemma string_length_app (s1 s2 : string) :
  String.length (s1 ++ s2) = (String.length s1 + String.length s2)%nat.
Proof. induction s1 as [|c s1 IH]; simpl; [reflexivity | rewrite IH; reflexivity]. Qed.

Lemma substring_prefix (s1 s2 : string) :
  substring 0 (String.length s1) (s1 ++ s2) = s1.
Proof.
  induction s1 as [|c s1 IH]; simpl.
  - destruct s2; reflexivity.
  - rewrite IH. reflexivity.
Qed.

Lemma perm_filter {A} (f : A -> bool) (l l' : list A) :
  Permutation l l' -> Permutation (filter f l) (filter f l').
Proof.
  induction 1 as [|x l l' Hp IH|x y l|l l' l'' Hp1 IH1 Hp2 IH2]; simpl.
  - constructor.
  - destruct (f x); [constructor|]; exact IH.
  - destruct (f x), (f y); try reflexivity. apply perm_swap.
  - etransitivity; eauto.
Qed.

Section TermsMore.
Context `{Collaborators}.

(** X18: [queryTermToRegex] drops the wildcards a term starts with; and
    when the quoted term ends with an escaped wildcard, it replaces the
    escape and the wildcard by the lazy class of the characters that are
    not among the stops. *)
Theorem queryTermToRegex_wildcards (n : nat) (term before : string) :
  queryTermToRegex (stars n ++ term) = queryTermToRegex term
  /\ (pregQuote (strip_leading_stars term) = (before ++ "\*")%string ->
      queryTermToRegex term
      = (before ++ "[^" ++ pregQuote wildcard_stops ++ "]*?")%string).
Proof.
  split.
  - unfold queryTermToRegex. rewrite strip_leading_stars_stars. reflexivity.
  - intros Hq. unfold queryTermToRegex. rewrite Hq.
    rewrite last_char_app by discriminate. cbn [last_char].
    rewrite string_length_app. cbn [String.length].
    replace (String.length before + 2 - 2)%nat with (String.length before) by lia.
    rewrite substring_prefix. reflexivity.
Qed.

Lemma parseQuery_returned (query : string) (p : ParsedQuery) :
  parseQuery query = inr p ->
  exists o,
    scan_query query = inr o
    /\ obj_get o "hasOwnProperty" = None
    /\ NoDup (map fst o)
    /\ terms p = map (fun c => (fst c, filter_terms (snd c)))
                   (filter kept_column (own_properties o))
    /\ termCount p = Z.of_nat (List.length (List.concat (map snd (terms p)))).
Proof.
  unfold parseQuery. destruct (scan_query query) as [|o] eqn:Hs; [discriminate|].
  destruct (obj_get o "hasOwnProperty") eqn:Hk; [discriminate|].
  intros Hp; inversion Hp; subst; clear Hp.
  exists o. split; [reflexivity|]. split; [exact Hk|].
  split; [eapply scan_query_NoDup; eauto|].
  destruct (filter_columns_summary (own_properties o) 0 [] []) as [_ Hc].
  rewrite Hc, filter_columns_terms. cbn [app]. rewrite !map_map. cbn [fst snd].
  split; reflexivity.
Qed.

(** X19: [allParsedQueryTerms] returns nothing for [null]; for a query
    that [parseQuery] returned it does not throw and returns the terms of
    every column, as many as [termCount] says. *)
Theorem allParsedQueryTerms_count (query : string) (p : ParsedQuery) :
  parseQuery query = inr p ->
  allParsedQueryTerms None = inr []
  /\ exists ts,
       allParsedQueryTerms (Some p) = inr ts
       /\ Z.of_nat (List.length ts) = termCount p
       /\ (forall t, In t ts <-> exists col l, In (col, l) (terms p) /\ In t l).
Proof.
  intros Hp. split; [reflexivity|].
  destruct (parseQuery_returned query p Hp) as (o & _ & Hk & Hnd & Hterms & Hcount).
  assert (Hin : forall t,
             In t (List.concat (map snd (terms p)))
             <-> exists col l, In (col, l) (terms p) /\ In t l).
  { intros t. rewrite in_concat. split.
    - intros (l & Hl & Ht). apply in_map_iff in Hl. destruct Hl as ([col l'] & <- & Hl).
      exists col, l'. auto.
    - intros (col & l & Hl & Ht). exists l. split; [|exact Ht].
      apply in_map_iff. exists (col, l). auto. }
  unfold allParsedQueryTerms.
  destruct (Z.eqb_spec (termCount p) 0) as [Hzero|Hnz].
  - exists []. split; [reflexivity|]. split; [simpl; lia|].
    intros t. rewrite <- Hin.
    assert (Hnil : List.concat (map snd (terms p)) = []).
    { destruct (List.concat (map snd (terms p))); [reflexivity|].
      rewrite Hcount in Hzero. simpl in Hzero. lia. }
    rewrite Hnil. reflexivity.
  - assert (Hown : forall c, In c (terms p) -> is_own_key (fst c) = true).
    { intros c Hc. rewrite Hterms in Hc. apply in_map_iff in Hc.
      destruct Hc as (c' & <- & Hc'). apply filter_In in Hc'. destruct Hc' as [Hc' _].
      unfold own_properties in Hc'. apply filter_In in Hc'. simpl. tauto. }
    assert (Hnokey : obj_get (terms p) "hasOwnProperty" = None).
    { apply obj_get_None. intros Hin'. rewrite Hterms, map_map in Hin'. cbn [fst] in Hin'.
      apply in_map_iff in Hin'. destruct Hin' as (c & Hc & Hc').
      apply filter_In in Hc'. destruct Hc' as [Hc' _].
      destruct c as [k v]. apply own_properties_In in Hc'. destruct Hc' as [Hc' _].
      simpl in Hc. subst k.
      apply (obj_get_In o "hasOwnProperty" v Hnd) in Hc'. congruence. }
    rewrite Hnokey.
    assert (Hperm : Permutation (own_properties (terms p)) (terms p)).
    { unfold own_properties.
      rewrite (perm_filter _ _ _ (enumeration_perm (terms p))).
      rewrite forallb_filter_id; [reflexivity|].
      apply forallb_forall. exact Hown. }
    assert (Hperm' : Permutation (List.concat (map snd (own_properties (terms p))))
                       (List.concat (map snd (terms p)))).
    { rewrite <- !flat_map_concat_map. apply Permutation_flat_map. exact Hperm. }
    eexists. split; [reflexivity|]. split.
    + rewrite (Permutation_length Hperm'). symmetry. exact Hcount.
    + intros t. rewrite <- Hin. split; apply Permutation_in;
        [exact Hperm' | symmetry; exact Hperm'].
Qed.

End TermsMore.

(** * Further properties of the ranker *)

Lemma columnIndexes_loop_spec (n : nat) :
  forall rest pre i indexes,
    (List.length rest < n)%nat ->
    List.length pre = (i * 4)%nat ->
    columnIndexes_loop (List.length (occurrences rest)) i (pre ++ rest) indexes
    = fold_left push_if_new
        (map (fun o => (column o - 1)%float) (occurrences rest)) indexes.
Proof.
  induction n as [|n IH]; intros rest pre i indexes Hn Hpre; [lia|].
  destruct rest as [|a [|b [|c [|d rest]]]]; try reflexivity.
  cbn [occurrences List.length map column columnIndexes_loop fold_left].
  assert (Hnth : nth (i * 4) (pre ++ a :: b :: c :: d :: rest) nan = a).
  { rewrite app_nth2 by lia.
    replace (i * 4 - List.length pre)%nat with 0%nat by lia. reflexivity. }
  rewrite Hnth.
  replace (pre ++ a :: b :: c :: d :: rest) with ((pre ++ [a; b; c; d]) ++ rest)
    by (rewrite <- app_assoc; reflexivity).
  rewrite IH; [reflexivity | simpl in Hn; lia | rewrite length_app; simpl; lia].
Qed.

Lemma ordered_pairs_snoc {A} (R : A -> A -> Prop) (l : list A) (c : A) :
  ForallOrdPairs R l -> Forall (fun x => R x c) l -> ForallOrdPairs R (l ++ [c]).
Proof.
  induction 1 as [|a l Ha Hl IH]; intros Hc; simpl.
  - repeat constructor.
  - inversion Hc; subst. constructor; [|auto].
    apply Forall_app. split; [exact Ha | repeat constructor; assumption].
Qed.

Lemma push_if_new_facts (indexes : list float) (c : float) :
  (forall x, In x (push_if_new indexes c) -> In x indexes \/ x = c)
  /\ (forall x, In x indexes -> In x (push_if_new indexes c))
  /\ (is_number c = true -> exists x, In x (push_if_new indexes c) /\ (x =? c)%float = true)
  /\ (ForallOrdPairs (fun a b => (a =? b)%float = false) indexes ->
      ForallOrdPairs (fun a b => (a =? b)%float = false) (push_if_new indexes c))
  /\ (List.length (push_if_new indexes c) <= S (List.length indexes))%nat.
Proof.
  unfold push_if_new.
  destruct (existsb (fun x => (x =? c)%float) indexes) eqn:Hex.
  - split; [auto|]. split; [auto|]. split; [|split; [auto | lia]].
    intros _. apply existsb_exists in Hex. exact Hex.
  - split; [intros x Hx; apply in_app_or in Hx; simpl in Hx; intuition congruence|].
    split; [intros x Hx; apply in_or_app; auto|].
    split; [|split].
    + intros Hc. exists c. split; [apply in_or_app; simpl; auto|].
      unfold is_number, PrimFloat.is_nan in Hc. rewrite negb_involutive in Hc. exact Hc.
    + intros Hord. apply ordered_pairs_snoc; [exact Hord|].
      apply Forall_forall. intros x Hx.
      destruct (x =? c)%float eqn:Hxc; [|reflexivity].
      assert (Htrue : existsb (fun y => (y =? c)%float) indexes = true)
        by (apply existsb_exists; eauto).
      congruence.
    + rewrite length_app. simpl. lia.
Qed.

Lemma fold_push_if_new (cs : list float) :
  forall indexes,
    let result := fold_left push_if_new cs indexes in
    (forall x, In x result -> In x indexes \/ In x cs)
    /\ (forall x, In x indexes -> In x result)
    /\ (forall c, In c cs -> is_number c = true ->
                  exists x, In x result /\ (x =? c)%float = true)
    /\ (ForallOrdPairs (fun a b => (a =? b)%float = false) indexes ->
        ForallOrdPairs (fun a b => (a =? b)%float = false) result)
    /\ (List.length result <= List.length indexes + List.length cs)%nat.
Proof.
  induction cs as [|c cs IH]; intros indexes; cbn [fold_left].
  - cbn. split; [auto|]. split; [auto|]. split; [intros c []|]. split; [auto | lia].
  - destruct (push_if_new_facts indexes c) as (P1 & P2 & P3 & P4 & P5).
    destruct (IH (push_if_new indexes c)) as (Q1 & Q2 & Q3 & Q4 & Q5).
    cbv zeta in *. split; [|split; [|split; [|split]]].
    + intros x Hx. apply Q1 in Hx. destruct Hx as [Hx|Hx]; [|simpl; auto].
      apply P1 in Hx. destruct Hx as [Hx| ->]; simpl; auto.
    + auto.
    + intros c' [<-|Hc'] Hnum; [|eauto].
      destruct (P3 Hnum) as (x & Hx & Hxc). exists x. auto.
    + auto.
    + simpl. lia.
Qed.

(** X20: [columnIndexesFromOffsets_] returns column indexes of the
    occurrences, each the column field less one; no two of its elements are
    equal as [===] tells; every occurrence whose index is a number finds an
    equal element; and there are no more elements than occurrences. *)
Theorem columnIndexes_distinct (offsets : list float) :
  let indexes := columnIndexesFromOffsets_ offsets in
  (forall x, In x indexes ->
     exists o, In o (occurrences offsets) /\ x = (column o - 1)%float)
  /\ (forall o, In o (occurrences offsets) ->
        is_number (column o - 1) = true ->
        exists x, In x indexes /\ (x =? column o - 1)%float = true)
  /\ ForallOrdPairs (fun a b => (a =? b)%float = false) indexes
  /\ (List.length indexes <= List.length (occurrences offsets))%nat.
Proof.
  intros indexes. unfold indexes, columnIndexesFromOffsets_.
  rewrite occurrences_count, Nat2Z.id.
  pose proof (columnIndexes_loop_spec (S (List.length offsets)) offsets [] 0 []) as Hl.
  cbn [app] in Hl. rewrite Hl by (simpl; lia). clear Hl.
  destruct (fold_push_if_new (map (fun o => (column o - 1)%float) (occurrences offsets)) [])
    as (Q1 & _ & Q3 & Q4 & Q5).
  cbv zeta in *. split; [|split; [|split]].
  - intros x Hx. apply Q1 in Hx. destruct Hx as [[]|Hx].
    apply in_map_iff in Hx. destruct Hx as (o & <- & Ho). eauto.
  - intros o Ho Hnum. apply Q3; [|exact Hnum].
    apply in_map_iff. eauto.
  - apply Q4. constructor.
  - rewrite length_map in Q5. simpl in Q5. exact Q5.
Qed.

(** X21: with fewer than four offsets a row has no occurrence: its weight
    is 0 for a query of one term, and NaN, zero divided by zero, for any
    other query.  With one occurrence, whatever its numbers, the spread is
    zero and the weight of a query of several terms is infinite. *)
Theorem calculateWeight_edges
  (termCount : Z) (short tail : list float) (a b c d : float) :
  termCount <> 1 ->
  (List.length short < 4)%nat ->
  (List.length tail < 4)%nat ->
  calculateWeight_ short 1 = 0%float
  /\ calculateWeight_ short termCount = nan
  /\ is_number (calculateWeight_ short termCount) = false
  /\ calculateWeight_ (a :: b :: c :: d :: tail) termCount = infinity.
Proof.
  intros Hne Hshort Htail.
  assert (Htc : (termCount =? 1) = false) by (apply Z.eqb_neq; exact Hne).
  unfold calculateWeight_. rewrite Htc.
  destruct short as [|s1 [|s2 [|s3 [|s4 short]]]]; try (simpl in Hshort; lia);
    (split; [reflexivity|]); (split; [reflexivity|]); (split; [reflexivity|]);
    destruct tail as [|t1 [|t2 [|t3 [|t4 tail]]]]; try (simpl in Htail; lia);
    reflexivity.
Qed.

(** * Further properties of the search *)

Lemma trim_start_blank (s : string) : all_white_space s = true -> trim_start s = EmptyString.
Proof.
  unfold all_white_space. intros Hs. apply String.eqb_eq in Hs. exact Hs.
Qed.

(** A text of white space alone begins with a white-space character, and
    what follows is white space alone. *)
Lemma all_white_space_head (c : ascii) (s : string) :
  all_white_space (String c s) = true ->
  exists ws rest,
    In ws white_space /\ String c s = (ws ++ rest)%string /\ all_white_space rest = true.
Proof.
  intros Hs.
  destruct (white_space_width (String c s)) as [|k] eqn:Hw.
  - unfold all_white_space in Hs. rewrite (trim_start_clean c s Hw) in Hs. discriminate.
  - unfold white_space_width in Hw.
    destruct (find (fun p => starts_with p (String c s)) white_space) as [ws|] eqn:Hf;
      [|discriminate].
    apply find_some in Hf. destruct Hf as [Hin Hp].
    destruct (starts_with_app _ _ Hp) as [rest Hrest].
    exists ws, rest. split; [exact Hin|]. split; [exact Hrest|].
    destruct (white_space_cases ws Hin) as (_ & Htrim & _).
    unfold all_white_space in *. rewrite Hrest, Htrim in Hs. exact Hs.
Qed.

Lemma split_on_blank_bounded (n : nat) :
  forall s, (String.length s <= n)%nat ->
    all_white_space s = true ->
    Forall (fun piece => all_white_space piece = true) (split_on " " s).
Proof.
  induction n as [|n IH]; intros s Hlen Hs.
  - destruct s; [repeat constructor | simpl in Hlen; lia].
  - destruct s as [|c s]; [repeat constructor|].
    destruct (all_white_space_head c s Hs) as (ws & rest & Hin & Heq & Hrest).
    destruct (white_space_cases ws Hin) as (Hne & Htrim & Hsplit).
    assert (Hshort : (String.length rest <= n)%nat).
    { apply (f_equal String.length) in Heq. rewrite string_length_app in Heq.
      destruct ws; [congruence|]. simpl in *. lia. }
    specialize (IH rest Hshort Hrest). rewrite Heq.
    destruct Hsplit as [->|Hsplit].
    + simpl. constructor; [reflexivity | exact IH].
    + rewrite Hsplit. destruct (split_on " " rest) as [|piece pieces].
      * constructor; [|constructor]. unfold all_white_space.
        rewrite <- (string_app_nil_r ws), Htrim. reflexivity.
      * inversion IH; subst. constructor; [|assumption].
        unfold all_white_space in *. rewrite Htrim. assumption.
Qed.

Lemma split_on_blank (s : string) :
  all_white_space s = true ->
  Forall (fun piece => all_white_space piece = true) (split_on " " s).
Proof.
  apply (split_on_blank_bounded (String.length s)). lia.
Qed.

Lemma anywherePattern_blank (s : string) :
  all_white_space s = true -> anywherePattern s = "**".
Proof.
  intros Hs. unfold anywherePattern.
  assert (Hnone : filter (fun t => negb (t =? "")%string) (map trim (split_on " " s)) = []).
  { pose proof (split_on_blank s Hs) as Hall.
    induction Hall as [|piece pieces Hp Hall IH]; [reflexivity|]. simpl.
    unfold trim at 1. rewrite (trim_start_blank piece Hp). simpl. exact IH. }
  rewrite Hnone. reflexivity.
Qed.

Section SearchMore.
Context `{Collaborators}.

(** X22: a query whose normalized text is of script [ja], [zh] or [ko]
    goes to [basicSearch] whether or not indexed search is enabled, and so
    does every query when it is disabled.  A search makes at most one call
    to a store: it asks for previews, or it sends the [MATCH] query, after
    which it logs at most one warning, or it calls nothing when parsing
    throws. *)
Theorem search_paths (env : SearchEnv) (query : string) :
  let normalized := normalizeText_ query in
  (In (scriptType normalized) ["ja"; "zh"; "ko"] ->
   search env query = basicSearch env normalized)
  /\ (ftsEnabled env = false -> search env query = basicSearch env normalized)
  /\ (fst (search env query) = [CallPreviews (anywherePattern normalized)]
      \/ (fst (search env query) = [] /\ exists err, snd (search env query) = inl err)
      \/ fst (search env query) = [CallSelectAll match_sql normalized]
      \/ exists message,
           fst (search env query)
           = [CallSelectAll match_sql normalized;
              LogWarn ("Cannot execute MATCH query: " ++ normalized ++ ": " ++ message)%string]).
Proof.
  intros normalized. unfold search. fold normalized. split; [|split].
  - intros Hin. apply existsb_eqb_In in Hin. rewrite Hin, orb_true_r. reflexivity.
  - intros ->. reflexivity.
  - destruct (negb (ftsEnabled env) || existsb (String.eqb (scriptType normalized)) _).
    + left. reflexivity.
    + right. destruct (parseQuery normalized) as [err|parsed].
      * left. simpl. eauto.
      * right. destruct (selectAll_match env normalized) as [message|rows]; simpl; eauto.
Qed.

(** X23: when the [MATCH] query succeeds, [search] returns the rows it
    gave, each once, with id, title and offsets as they came and with the
    weight [calculateWeight_] gives the row for the term count of the parsed
    query; it logs nothing and does not ask for previews. *)
Theorem search_returns_matches
  (env : SearchEnv) (query : string) (parsedQuery : ParsedQuery) (rows : list Row) :
  uses_basicSearch env query = false ->
  parseQuery (normalizeText_ query) = inr parsedQuery ->
  selectAll_match env (normalizeText_ query) = inr rows ->
  exists ranked,
    search env query = ([CallSelectAll match_sql (normalizeText_ query)], inr (Rows ranked))
    /\ Permutation
         (map (fun r => (row_id r, row_title r, row_offsets r)) ranked)
         (map (fun r => (row_id r, row_title r, row_offsets r)) rows)
    /\ Forall (fun r => row_weight r
                        = Some (calculateWeight_ (row_numbers r) (termCount parsedQuery)))
         ranked.
Proof.
  unfold uses_basicSearch, search. intros Hroute Hparse Hmatch.
  rewrite Hroute, Hparse, Hmatch. eexists. split; [reflexivity|].
  unfold orderResults_.
  pose proof (Array_sort_perm by_weight
                (map (fun row => set_weight (calculateWeight_ (row_numbers row)
                                               (termCount parsedQuery)) row) rows)) as Hperm.
  split.
  - rewrite (Permutation_map _ Hperm), map_map. reflexivity.
  - eapply Permutation_Forall; [symmetry; exact Hperm|].
    apply Forall_forall. intros r Hr. apply in_map_iff in Hr.
    destruct Hr as (r0 & <- & _). reflexivity.
Qed.

(** X24: a query that normalizes to white space alone, the empty query
    among them, makes the fallback search ask for the previews of the
    pattern of two wildcards with nothing between them. *)
Theorem blank_fallback_query (env : SearchEnv) (query : string) :
  uses_basicSearch env query = true ->
  all_white_space (normalizeText_ query) = true ->
  search env query = ([CallPreviews "**"], inr (Previews (Note_previews env "**"))).
Proof.
  unfold uses_basicSearch, search. intros Hroute Hblank. rewrite Hroute.
  unfold basicSearch. rewrite (anywherePattern_blank _ Hblank). reflexivity.
Qed.

End SearchMore.

(** * The properties at concrete inputs *)

Lemma applied_batch_rows_witness :
  forallb (is_literal world_batch)
    (map item_id (select_changes (H := sample_host) world_batch 0)) = true
  /\ exists e',
       sync_turn (H := sample_host) world_batch 0 indexed_engine = Applied 4 e'
       /\ rows_with_id "n1" (notes_normalized e') = []
       /\ rows_with_id "n3" (notes_normalized e')
          = [{| n_id := "n3"; n_title := "three"; n_body := "cc" |}]
       /\ rows_with_id "n9" (notes_normalized e') = [].
Proof.
  split; [reflexivity|].
  destruct (sync_turn (H := sample_host) world_batch 0 indexed_engine)
    as [| err | id' e'] eqn:Ht;
    try (vm_compute in Ht; discriminate Ht).
  assert (Hid : id' = 4) by (vm_compute in Ht; inversion Ht; reflexivity).
  subst id'. exists e'. split; [reflexivity|].
  rewrite !(applied_batch_rows (H := sample_host) world_batch 0 4 indexed_engine e' _
              eq_refl Ht).
  repeat split; reflexivity.
Defined.

Lemma returning_run_witness :
  exists e',
    isIndexing_ indexed_engine = false
    /\ syncTables (H := sample_host) world_batch indexed_engine = (Returned, e')
    /\ isIndexing_ e' = false
    /\ select_changes (H := sample_host) world_batch (lastProcessedChangeId e') = []
    /\ NoDup (map change_id (item_changes world_batch))
    /\ events e'
       = [InfoUpdating; WaitForAllSaved; SaveAll; DeleteProcessedChanges; InfoUpdated].
Proof.
  destruct (syncTables (H := sample_host) world_batch indexed_engine) as [out e'] eqn:Hrun.
  assert (Hout : out = Returned) by (vm_compute in Hrun; inversion Hrun; reflexivity).
  subst out.
  assert (Hnd : NoDup (map change_id (item_changes world_batch))).
  { simpl. repeat constructor; simpl; intuition discriminate. }
  destruct (returning_run (H := sample_host) world_batch indexed_engine e' eq_refl Hrun)
    as (Hguard & _ & Hdone & _).
  destruct (Hdone eq_refl) as (Hnone & n & Hevents & Hn).
  exists e'. split; [reflexivity|]. split; [reflexivity|]. split; [exact Hguard|].
  split; [exact Hnone|]. split; [exact Hnd|].
  rewrite Hevents, (Hn Hnd). reflexivity.
Defined.


Lemma rebuildIndex_rows_witness :
  forallb (is_literal world_three_notes) (select_eligible_ids world_three_notes) = true
  /\ NoDup (map note_id (notes world_three_notes))
  /\ exists e',
       rebuildIndex_ (H := sample_host) world_three_notes new_engine = Some e'
       /\ (forall r,
             In r (notes_normalized e') <->
             exists n, In n (notes world_three_notes)
                       /\ is_conflict n = 0 /\ encryption_applied n = 0
                       /\ r = normalized_row (H := sample_host) n)
       /\ NoDup (map n_id (notes_normalized e'))
       /\ lastProcessedChangeId e' = 2.
Proof.
  assert (Hnd : NoDup (map note_id (notes world_three_notes))).
  { simpl. repeat constructor; simpl; intuition discriminate. }
  split; [reflexivity|]. split; [exact Hnd|].
  destruct (rebuildIndex_rows (H := sample_host) world_three_notes new_engine eq_refl)
    as (e' & Hrun & Hrows & Hone & Hmark & _).
  exists e'. split; [exact Hrun|]. split; [exact Hrows|].
  split; [exact (Hone Hnd) | exact Hmark].
Defined.

Lemma scheduling_stuck_after_throw_witness :
  run_ops (H := sample_host) [CallScheduleSyncTables] (scheduler_of indexed_engine)
  = scheduled_once
  /\ fst (timeout_due (H := sample_host) 1 world_invalid_change scheduled_once)
     = Thrown (InvalidChangeType 4)
  /\ scheduleSyncTablesIID_
       (run_ops (H := sample_host) [CallScheduleSyncTables; CallRunInBackground world_batch]
          (snd (timeout_due (H := sample_host) 1 world_invalid_change scheduled_once)))
     <> None.
Proof.
  split; [reflexivity|]. split; [reflexivity|].
  apply (scheduling_stuck_after_throw (H := sample_host) indexed_engine
           [CallScheduleSyncTables] [CallScheduleSyncTables; CallRunInBackground world_batch]
           1 world_invalid_change
           {| timeout_id := 1; timeout_delay := 10000; timeout_callback := ScheduledSync |}
           (InvalidChangeType 4));
    reflexivity.
Defined.

Lemma hasOwnProperty_column_throws_witness :
  scan "a hasOwnProperty" scan_start = inr scan_before_colon
  /\ parseQuery (H := sample_host) "a hasOwnProperty:x y" = inl hasOwnProperty_error.
Proof.
  split; [reflexivity|].
  apply (hasOwnProperty_column_throws (H := sample_host) "a hasOwnProperty" "x y"
           scan_before_colon);
    reflexivity.
Defined.

Lemma parsed_query_invariants_witness :
  exists p,
    parseQuery (H := sample_host) "title:a*b c *" = inr p
    /\ keys p = map fst (terms p)
    /\ termCount p = Z.of_nat (List.length (List.concat (map snd (terms p)))).
Proof.
  destruct (parseQuery (H := sample_host) "title:a*b c *") as [err|p] eqn:Hp;
    [vm_compute in Hp; discriminate Hp|].
  exists p. split; [reflexivity|].
  destruct (parsed_query_invariants (H := sample_host) "title:a*b c *" p Hp)
    as (Hkeys & _ & Hcount & _).
  split; assumption.
Defined.

Lemma proto_column_hidden_witness :
  exists p,
    parseQuery (H := sample_host) "__proto__:a b" = inr p
    /\ obj_get (terms p) "__proto__" = None.
Proof.
  destruct (parseQuery (H := sample_host) "__proto__:a b") as [err|p] eqn:Hp;
    [vm_compute in Hp; discriminate Hp|].
  exists p. split; [reflexivity|].
  exact (proj2 (proto_column_hidden (H := sample_host) "__proto__:a b" p Hp)).
Defined.

Lemma plain_words_witness :
  Forall (fun w => plain w = true /\ w <> "") ["foo"; "b*r"; "*"]
  /\ scan_query "foo b*r *" = inr [("_", ["foo"; "b*r"; "*"])].
Proof.
  assert (Hall : Forall (fun w => plain w = true /\ w <> "") ["foo"; "b*r"; "*"]).
  { repeat constructor; discriminate. }
  split; [exact Hall|].
  apply (plain_words (H := sample_host) ["foo"; "b*r"; "*"] Hall). discriminate.
Defined.



Lemma allParsedQueryTerms_count_witness :
  exists p ts,
    parseQuery (H := sample_host) "title:foo bar" = inr p
    /\ allParsedQueryTerms (Some p) = inr ts
    /\ Z.of_nat (List.length ts) = termCount p.
Proof.
  destruct (parseQuery (H := sample_host) "title:foo bar") as [err|p] eqn:Hp;
    [vm_compute in Hp; discriminate Hp|].
  destruct (allParsedQueryTerms_count (H := sample_host) "title:foo bar" p Hp)
    as (_ & ts & Hts & Hlen & _).
  exists p, ts. split; [reflexivity|]. split; assumption.
Defined.

Lemma calculateWeight_edges_witness :
  2 <> 1
  /\ calculateWeight_ [1%float; 2%float; 3%float] 2 = nan
  /\ calculateWeight_ [0%float; 0%float; 5%float; 3%float; 7%float] 2 = infinity.
Proof.
  split; [discriminate|].
  destruct (calculateWeight_edges 2 [1%float; 2%float; 3%float] [7%float]
              0%float 0%float 5%float 3%float)
    as (_ & Hnan & _ & Hinf); [discriminate | simpl; lia | simpl; lia |].
  split; assumption.
Defined.

Lemma search_returns_matches_witness :
  uses_basicSearch (H := sample_host) env_match_succeeds "Foo bar" = false
  /\ exists ranked,
       search (H := sample_host) env_match_succeeds "Foo bar"
       = ([CallSelectAll match_sql "foo bar"], inr (Rows ranked))
       /\ Permutation (map (fun r => (row_id r, row_title r, row_offsets r)) ranked)
            (map (fun r => (row_id r, row_title r, row_offsets r)) rows_sample).
Proof.
  split; [reflexivity|].
  destruct (parseQuery (H := sample_host) "foo bar") as [err|parsed] eqn:Hparse;
    [vm_compute in Hparse; discriminate Hparse|].
  destruct (search_returns_matches (H := sample_host) env_match_succeeds "Foo bar"
              parsed rows_sample eq_refl Hparse eq_refl)
    as (ranked & Hsearch & Hperm & _).
  exists ranked. split; assumption.
Defined.

Lemma blank_fallback_query_witness :
  uses_basicSearch (H := sample_host) env_fts_off
    (String " " (String "009" ideographic_space)) = true
  /\ all_white_space (String " " (String "009" ideographic_space)) = true
  /\ search (H := sample_host) env_fts_off (String " " (String "009" ideographic_space))
     = ([CallPreviews "**"], inr (Previews [])).
Proof.
  split; [reflexivity|]. split; [reflexivity|].
  apply (blank_fallback_query (H := sample_host) env_fts_off
           (String " " (String "009" ideographic_space)));
    reflexivity.
Defined.
